(** * Red-black trees of the RedLockTree repository: model and verification

    The repository holds one red-black tree algorithm (CLRS, with a shared
    sentinel and parent pointers) in several files that differ in their
    locking:

    - [include/lock_based_rb_tree.hpp]: per-node [std::shared_mutex], lock
      coupling in [lookup] and in the descent of [insert] (module
      [LockCoupled]);
    - [race_free_rb_tree.cpp]: one tree-wide reader/writer lock (module
      [RaceFree]);
    - [epoch_based_rb_tree.cpp]: the same, under another name (module
      [EpochBased]);
    - [lock_based_rb_tree.cpp]: a lookup that orders its lock acquisitions by
      [lock_id] (module [OrderedLocking]).

    Nodes live in a store indexed by addresses; pointers are addresses, the
    null pointer is address [0].  A [while] loop is the iteration of its body
    with fuel, [None] meaning that the fuel ran out.  The locks a thread takes
    are recorded as a trace of events. *)

From stdpp Require Import gmap list sorting.
From Stdlib Require Import ZArith Ascii.

Local Open Scope Z_scope.
Local Open Scope nat_scope.

(** ** Colours, nodes and the tree object *)

Inductive Color := RED | BLACK.

#[global] Instance Color_eq_dec : EqDecision Color.
Proof. solve_decision. Defined.

(** The comparator object [comp] of the class template and the
    value-initialised [K{}], [V{}] of the sentinel. *)
Class Compare (K : Type) := comp : K → K → bool.
Class ValueInit (A : Type) := value_init : A.

#[global] Instance Z_compare : Compare Z := Z.ltb.
#[global] Instance Z_value_init : ValueInit Z := 0%Z.

(** The comparator is a strict total order, and [operator!=] of the key type
    (used by [erase]) is the negation of Leibniz equality. *)
Class StrictTotalOrder (K : Type) `{Compare K} : Prop := {
  comp_irrefl (a : K) : comp a a = false;
  comp_trans (a b c : K) : comp a b = true → comp b c = true → comp a c = true;
  comp_total (a b : K) : comp a b = false → comp b a = false → a = b
}.

Abbreviation addr := nat.
Definition nullptr : addr := 0.

Section Store.
Context {K V : Type}.

Record Node := mkNode {
  key : K;
  val : V;
  color : Color;
  parent : addr;
  left : addr;
  right : addr
}.

Record RBTree := mkRBTree {
  heap : gmap addr Node;
  root : addr;
  NIL : addr
}.

Context `{ValueInit K, ValueInit V}.

(** Reading through a pointer.  A pointer that is not allocated is
    undefined behaviour in the source; here it reads a node as a bare
    constructor call would leave it. *)
Definition node (s : RBTree) (a : addr) : Node :=
  default (mkNode value_init value_init RED nullptr nullptr nullptr) (heap s !! a).

(** Writing one field through a pointer. *)
Definition store (s : RBTree) (a : addr) (f : Node → Node) : RBTree :=
  mkRBTree (alter f a (heap s)) (root s) (NIL s).

Definition with_val (v : V) (n : Node) : Node :=
  mkNode (key n) v (color n) (parent n) (left n) (right n).
Definition with_color (c : Color) (n : Node) : Node :=
  mkNode (key n) (val n) c (parent n) (left n) (right n).
Definition with_parent (p : addr) (n : Node) : Node :=
  mkNode (key n) (val n) (color n) p (left n) (right n).
Definition with_left (l : addr) (n : Node) : Node :=
  mkNode (key n) (val n) (color n) (parent n) l (right n).
Definition with_right (r : addr) (n : Node) : Node :=
  mkNode (key n) (val n) (color n) (parent n) (left n) r.

Definition set_val (s : RBTree) (a : addr) (v : V) := store s a (with_val v).
Definition set_color (s : RBTree) (a : addr) (c : Color) := store s a (with_color c).
Definition set_parent (s : RBTree) (a p : addr) := store s a (with_parent p).
Definition set_left (s : RBTree) (a l : addr) := store s a (with_left l).
Definition set_right (s : RBTree) (a r : addr) := store s a (with_right r).
Definition set_root (s : RBTree) (r : addr) := mkRBTree (heap s) r (NIL s).

(** [new NodeT(k, v, c)]: a node at an address that is neither null nor
    in use, its three links null. *)
Definition fresh_addr (h : gmap addr Node) : addr := fresh ({[nullptr]} ∪ dom h).

Definition new_node (s : RBTree) (k : K) (v : V) (c : Color) : RBTree * addr :=
  let a := fresh_addr (heap s) in
  (mkRBTree (<[a := mkNode k v c nullptr nullptr nullptr]> (heap s)) (root s) (NIL s), a).

(** [delete z] *)
Definition delete_node (s : RBTree) (z : addr) : RBTree :=
  mkRBTree (delete z (heap s)) (root s) (NIL s).

(** The constructor: [NIL = new NodeT(K{}, V{}, Color::BLACK); root = NIL;] *)
Definition RBTree_new : RBTree :=
  let a := fresh_addr ∅ in
  mkRBTree {[a := mkNode value_init value_init BLACK nullptr nullptr nullptr]} a a.
End Store.

Arguments Node : clear implicits.
Arguments RBTree : clear implicits.

Notation "s .[ a ]" := (node s a) (at level 1, left associativity, format "s .[ a ]").

(** A [while] loop: [body] either continues with a new loop state or leaves
    the loop with a result. *)
Fixpoint loop {St R : Type} (fuel : nat) (body : St → St + R) (x : St) : option R :=
  match fuel with
  | 0 => None
  | S fuel =>
    match body x with
    | inl x' => loop fuel body x'
    | inr r => Some r
    end
  end.

(** ** Lock events of one thread

    A node's mutex [rw] is named by the node's address. *)
Inductive LockEvent :=
  | LockShared (m : addr)
  | UnlockShared (m : addr)
  | LockUnique (m : addr)
  | UnlockUnique (m : addr).

#[global] Instance LockEvent_eq_dec : EqDecision LockEvent.
Proof. solve_decision. Defined.

(** [std::shared_lock] and [std::unique_lock]: the mutex and whether the
    object owns a lock on it. *)
Record shared_lock := mk_shared_lock { sl_mutex : addr; sl_owns : bool }.
Record unique_lock := mk_unique_lock { ul_mutex : addr; ul_owns : bool }.

Definition shared_lock_ctor (m : addr) : shared_lock * list LockEvent :=
  (mk_shared_lock m true, [LockShared m]).
Definition shared_lock_defer (m : addr) : shared_lock := mk_shared_lock m false.
Definition shared_lock_lock (l : shared_lock) : shared_lock * list LockEvent :=
  (mk_shared_lock (sl_mutex l) true, [LockShared (sl_mutex l)]).
Definition shared_lock_unlock (l : shared_lock) : shared_lock * list LockEvent :=
  (mk_shared_lock (sl_mutex l) false, [UnlockShared (sl_mutex l)]).
(** The destructor, also the first half of a move assignment. *)
Definition shared_lock_release (l : shared_lock) : list LockEvent :=
  if sl_owns l then [UnlockShared (sl_mutex l)] else [].

Definition unique_lock_defer (m : addr) : unique_lock := mk_unique_lock m false.
Definition unique_lock_lock (l : unique_lock) : unique_lock * list LockEvent :=
  (mk_unique_lock (ul_mutex l) true, [LockUnique (ul_mutex l)]).
Definition unique_lock_release (l : unique_lock) : list LockEvent :=
  if ul_owns l then [UnlockUnique (ul_mutex l)] else [].

(** The locks held after a trace, with multiplicity. *)
Fixpoint remove_one (m : addr) (l : list addr) : list addr :=
  match l with
  | [] => []
  | x :: l => if decide (x = m) then l else x :: remove_one m l
  end.

Definition held_step (h : list addr) (e : LockEvent) : list addr :=
  match e with
  | LockShared m | LockUnique m => m :: h
  | UnlockShared m | UnlockUnique m => remove_one m h
  end.

Definition held (tr : list LockEvent) : list addr := foldl held_step [] tr.

(** ** [include/lock_based_rb_tree.hpp]

    [insert] and [erase] also hold the [writers_mutex] of the tree from
    their first statement to their return.  It is the lock of no node and
    the traces, which name node locks, leave it out. *)
Module LockCoupled.
Section WithKV.
Context {K V : Type} `{EqDecision K, Compare K, ValueInit K, ValueInit V}.
Implicit Types (s : RBTree K V) (k : K) (v : V).

(** [struct UpgradeLock]: both lock objects are on the same mutex; the
    constructor defers both and then locks [shared]. *)
Record UpgradeLock := mkUpgradeLock { shared : shared_lock; unique : unique_lock }.

Definition UpgradeLock_ctor (mtx : addr) : UpgradeLock * list LockEvent :=
  let shared := shared_lock_defer mtx in
  let unique := unique_lock_defer mtx in
  let '(shared, e) := shared_lock_lock shared in
  (mkUpgradeLock shared unique, e).

(** [upgrade()]: [shared.unlock(); unique.lock();], as its two steps. *)
Definition upgrade_drop (l : UpgradeLock) : UpgradeLock * list LockEvent :=
  let '(sh, e) := shared_lock_unlock (shared l) in (mkUpgradeLock sh (unique l), e).
Definition upgrade_acquire (l : UpgradeLock) : UpgradeLock * list LockEvent :=
  let '(un, e) := unique_lock_lock (unique l) in (mkUpgradeLock (shared l) un, e).
Definition upgrade (l : UpgradeLock) : UpgradeLock * list LockEvent :=
  let '(l, e1) := upgrade_drop l in
  let '(l, e2) := upgrade_acquire l in
  (l, e1 ++ e2).

(** [lock_x.shared.unlock()] *)
Definition UpgradeLock_shared_unlock (l : UpgradeLock) : UpgradeLock * list LockEvent :=
  let '(sh, e) := shared_lock_unlock (shared l) in (mkUpgradeLock sh (unique l), e).

(** Destructor, members in reverse order of declaration; also what a move
    assignment does to the assigned-to object. *)
Definition UpgradeLock_release (l : UpgradeLock) : list LockEvent :=
  unique_lock_release (unique l) ++ shared_lock_release (shared l).

(** *** lookup *)
Definition lookup_body s k (st : addr * shared_lock * list LockEvent)
    : (addr * shared_lock * list LockEvent) + (option V * list LockEvent) :=
  let '(n, lock_cur, tr) := st in
  if decide (n ≠ NIL s) then
    if comp k (key s.[n]) then
      let child := left s.[n] in
      let '(lock_child, e1) := shared_lock_ctor child in
      let '(lock_cur, e2) := shared_lock_unlock lock_cur in
      let n := child in
      let e3 := shared_lock_release lock_cur in
      let lock_cur := lock_child in
      inl (n, lock_cur, tr ++ e1 ++ e2 ++ e3)
    else if comp (key s.[n]) k then
      let child := right s.[n] in
      let '(lock_child, e1) := shared_lock_ctor child in
      let '(lock_cur, e2) := shared_lock_unlock lock_cur in
      let n := child in
      let e3 := shared_lock_release lock_cur in
      let lock_cur := lock_child in
      inl (n, lock_cur, tr ++ e1 ++ e2 ++ e3)
    else
      let v := val s.[n] in
      inr (Some v, tr ++ shared_lock_release lock_cur)
  else inr (None, tr ++ shared_lock_release lock_cur).

Definition lookup (fuel : nat) s k : option (option V * list LockEvent) :=
  let n := root s in
  let '(lock_cur, e) := shared_lock_ctor n in
  loop fuel (lookup_body s k) (n, lock_cur, e).

(** *** Rotations *)
Definition left_rotate s (x : addr) : RBTree K V :=
  let y := right s.[x] in
  let s := set_right s x (left s.[y]) in
  let s := if decide (left s.[y] ≠ NIL s) then set_parent s (left s.[y]) x else s in
  let s := set_parent s y (parent s.[x]) in
  let s := if decide (parent s.[x] = NIL s) then set_root s y
           else if decide (x = left s.[parent s.[x]]) then set_left s (parent s.[x]) y
           else set_right s (parent s.[x]) y in
  let s := set_left s y x in
  set_parent s x y.

Definition right_rotate s (y : addr) : RBTree K V :=
  let x := left s.[y] in
  let s := set_left s y (right s.[x]) in
  let s := if decide (right s.[x] ≠ NIL s) then set_parent s (right s.[x]) y else s in
  let s := set_parent s x (parent s.[y]) in
  let s := if decide (parent s.[y] = NIL s) then set_root s x
           else if decide (y = right s.[parent s.[y]]) then set_right s (parent s.[y]) x
           else set_left s (parent s.[y]) x in
  let s := set_right s x y in
  set_parent s y x.

(** *** insert_fixup: the body of [while (z->parent->color == Color::RED)] *)
Definition insert_fixup_body (st : RBTree K V * addr) : (RBTree K V * addr) + RBTree K V :=
  let '(s, z) := st in
  if decide (color s.[parent s.[z]] = RED) then
    if decide (parent s.[z] = left s.[parent s.[parent s.[z]]]) then
      let y := right s.[parent s.[parent s.[z]]] in
      if decide (color s.[y] = RED) then
        let s := set_color s (parent s.[z]) BLACK in
        let s := set_color s y BLACK in
        let s := set_color s (parent s.[parent s.[z]]) RED in
        let z := parent s.[parent s.[z]] in
        inl (s, z)
      else
        let '(s, z) :=
          if decide (z = right s.[parent s.[z]]) then
            let z := parent s.[z] in
            (left_rotate s z, z)
          else (s, z) in
        let s := set_color s (parent s.[z]) BLACK in
        let s := set_color s (parent s.[parent s.[z]]) RED in
        let s := right_rotate s (parent s.[parent s.[z]]) in
        inl (s, z)
    else
      let y := left s.[parent s.[parent s.[z]]] in
      if decide (color s.[y] = RED) then
        let s := set_color s (parent s.[z]) BLACK in
        let s := set_color s y BLACK in
        let s := set_color s (parent s.[parent s.[z]]) RED in
        let z := parent s.[parent s.[z]] in
        inl (s, z)
      else
        let '(s, z) :=
          if decide (z = left s.[parent s.[z]]) then
            let z := parent s.[z] in
            (right_rotate s z, z)
          else (s, z) in
        let s := set_color s (parent s.[z]) BLACK in
        let s := set_color s (parent s.[parent s.[z]]) RED in
        let s := left_rotate s (parent s.[parent s.[z]]) in
        inl (s, z)
  else inr s.

Definition insert_fixup (fuel : nat) s (z : addr) : option (RBTree K V) :=
  s ← loop fuel insert_fixup_body (s, z);
  Some (set_color s (root s) BLACK).

(** *** insert *)
Inductive Descent :=
  | Duplicate (x : addr) (lock_x : UpgradeLock) (tr : list LockEvent)
  | FellOff (y x : addr) (lock_x : UpgradeLock) (tr : list LockEvent).

Definition insert_body s k (st : addr * addr * UpgradeLock * list LockEvent)
    : (addr * addr * UpgradeLock * list LockEvent) + Descent :=
  let '(y, x, lock_x, tr) := st in
  if decide (x ≠ NIL s) then
    let y := x in
    if comp k (key s.[x]) then
      let next := left s.[x] in
      let '(lock_next, e1) := UpgradeLock_ctor next in
      let '(lock_x, e2) := UpgradeLock_shared_unlock lock_x in
      let x := next in
      let e3 := UpgradeLock_release lock_x in
      let lock_x := lock_next in
      inl (y, x, lock_x, tr ++ e1 ++ e2 ++ e3)
    else if comp (key s.[x]) k then
      let next := right s.[x] in
      let '(lock_next, e1) := UpgradeLock_ctor next in
      let '(lock_x, e2) := UpgradeLock_shared_unlock lock_x in
      let x := next in
      let e3 := UpgradeLock_release lock_x in
      let lock_x := lock_next in
      inl (y, x, lock_x, tr ++ e1 ++ e2 ++ e3)
    else inr (Duplicate x lock_x tr)
  else inr (FellOff y x lock_x tr).

Definition insert (fuel : nat) s k v : option (RBTree K V * list LockEvent) :=
  let '(s, z) := new_node s k v RED in
  let s := set_parent s z (NIL s) in
  let s := set_right s z (NIL s) in
  let s := set_left s z (NIL s) in
  let y := NIL s in
  let x := root s in
  let '(lock_x, e) := UpgradeLock_ctor x in
  d ← loop fuel (insert_body s k) (y, x, lock_x, e);
  match d with
  | Duplicate x lock_x tr =>
    let '(lock_x, e) := upgrade lock_x in
    let s := set_val s x v in
    let s := delete_node s z in
    Some (s, tr ++ e ++ UpgradeLock_release lock_x)
  | FellOff y x lock_x tr =>
    let '(lock_x, e) := upgrade lock_x in
    let s := set_parent s z y in
    let s :=
      if decide (y = NIL s) then set_root s z
      else if comp (key s.[z]) (key s.[y]) then set_left s y z
      else set_right s y z in
    s ← insert_fixup fuel s z;
    Some (s, tr ++ e ++ UpgradeLock_release lock_x)
  end.

(** *** transplant, minimum *)
Definition transplant s (u v : addr) : RBTree K V :=
  let s :=
    if decide (parent s.[u] = NIL s) then set_root s v
    else if decide (u = left s.[parent s.[u]]) then set_left s (parent s.[u]) v
    else set_right s (parent s.[u]) v in
  set_parent s v (parent s.[u]).

Definition minimum_body s (x : addr) : addr + addr :=
  if decide (left s.[x] ≠ NIL s) then inl (left s.[x]) else inr x.

Definition minimum (fuel : nat) s (x : addr) : option addr :=
  loop fuel (minimum_body s) x.

(** *** delete_fixup: the body of
    [while (x != root && x->color == Color::BLACK)] *)
Definition delete_fixup_body (st : RBTree K V * addr) : (RBTree K V * addr) + (RBTree K V * addr) :=
  let '(s, x) := st in
  if decide (x ≠ root s ∧ color s.[x] = BLACK) then
    if decide (x = left s.[parent s.[x]]) then
      let w := right s.[parent s.[x]] in
      let '(s, w) :=
        if decide (color s.[w] = RED) then
          let s := set_color s w BLACK in
          let s := set_color s (parent s.[x]) RED in
          let s := left_rotate s (parent s.[x]) in
          (s, right s.[parent s.[x]])
        else (s, w) in
      if decide (color s.[left s.[w]] = BLACK ∧ color s.[right s.[w]] = BLACK) then
        let s := set_color s w RED in
        let x := parent s.[x] in
        inl (s, x)
      else
        let '(s, w) :=
          if decide (color s.[right s.[w]] = BLACK) then
            let s := set_color s (left s.[w]) BLACK in
            let s := set_color s w RED in
            let s := right_rotate s w in
            (s, right s.[parent s.[x]])
          else (s, w) in
        let s := set_color s w (color s.[parent s.[x]]) in
        let s := set_color s (parent s.[x]) BLACK in
        let s := set_color s (right s.[w]) BLACK in
        let s := left_rotate s (parent s.[x]) in
        let x := root s in
        inl (s, x)
    else
      let w := left s.[parent s.[x]] in
      let '(s, w) :=
        if decide (color s.[w] = RED) then
          let s := set_color s w BLACK in
          let s := set_color s (parent s.[x]) RED in
          let s := right_rotate s (parent s.[x]) in
          (s, left s.[parent s.[x]])
        else (s, w) in
      if decide (color s.[right s.[w]] = BLACK ∧ color s.[left s.[w]] = BLACK) then
        let s := set_color s w RED in
        let x := parent s.[x] in
        inl (s, x)
      else
        let '(s, w) :=
          if decide (color s.[left s.[w]] = BLACK) then
            let s := set_color s (right s.[w]) BLACK in
            let s := set_color s w RED in
            let s := left_rotate s w in
            (s, left s.[parent s.[x]])
          else (s, w) in
        let s := set_color s w (color s.[parent s.[x]]) in
        let s := set_color s (parent s.[x]) BLACK in
        let s := set_color s (left s.[w]) BLACK in
        let s := right_rotate s (parent s.[x]) in
        let x := root s in
        inl (s, x)
  else inr (s, x).

Definition delete_fixup (fuel : nat) s (x : addr) : option (RBTree K V) :=
  '(s, x) ← loop fuel delete_fixup_body (s, x);
  Some (set_color s x BLACK).

(** *** erase *)
Definition erase_body s k (z : addr) : addr + addr :=
  if decide (z ≠ NIL s ∧ k ≠ key s.[z]) then
    inl (if comp k (key s.[z]) then left s.[z] else right s.[z])
  else inr z.

Definition erase (fuel : nat) s k : option (RBTree K V * bool) :=
  z ← loop fuel (erase_body s k) (root s);
  if decide (z = NIL s) then Some (s, false)
  else
    let y := z in
    let y_original := color s.[y] in
    '(s, x, y_original) ←
      (if decide (left s.[z] = NIL s) then
         let x := right s.[z] in
         let s := transplant s z (right s.[z]) in
         Some (s, x, y_original)
       else if decide (right s.[z] = NIL s) then
         let x := left s.[z] in
         let s := transplant s z (left s.[z]) in
         Some (s, x, y_original)
       else
         y ← minimum fuel s (right s.[z]);
         let y_original := color s.[y] in
         let x := right s.[y] in
         let s :=
           if decide (parent s.[y] = z) then set_parent s x y
           else
             let s := transplant s y (right s.[y]) in
             let s := set_right s y (right s.[z]) in
             set_parent s (right s.[y]) y in
         let s := transplant s z y in
         let s := set_left s y (left s.[z]) in
         let s := set_parent s (left s.[y]) y in
         let s := set_color s y (color s.[z]) in
         Some (s, x, y_original));
    let s := delete_node s z in
    if decide (y_original = BLACK) then
      s ← delete_fixup fuel s x;
      Some (s, true)
    else Some (s, true).

(** *** validate *)
Fixpoint validate_rec (fuel : nat) s (n : addr) (blacks : Z) (target : Z) : option (bool * Z) :=
  match fuel with
  | 0 => None
  | S fuel =>
    if decide (n = NIL s) then
      let target := if decide (target = (-1)%Z) then blacks else target in
      Some (bool_decide (blacks = target), target)
    else
      let blacks := if decide (color s.[n] = BLACK) then (blacks + 1)%Z else blacks in
      if decide (color s.[n] = RED ∧
                 (color s.[left s.[n]] = RED ∨ color s.[right s.[n]] = RED)) then
        Some (false, target)
      else if bool_decide (left s.[n] ≠ NIL s) && comp (key s.[n]) (key s.[left s.[n]]) then
        Some (false, target)
      else if bool_decide (right s.[n] ≠ NIL s) && comp (key s.[right s.[n]]) (key s.[n]) then
        Some (false, target)
      else
        match validate_rec fuel s (left s.[n]) blacks target with
        | Some (true, target) => validate_rec fuel s (right s.[n]) blacks target
        | r => r
        end
  end.

Definition validate (fuel : nat) s : option bool :=
  let bh := (-1)%Z in
  fst <$> validate_rec fuel s (root s) 0%Z bh.
End WithKV.
End LockCoupled.

(** ** [race_free_rb_tree.cpp] *)
Module RaceFree.
Section WithKV.
Context {K V : Type} `{EqDecision K, Compare K, ValueInit K, ValueInit V}.
Implicit Types (s : RBTree K V) (k : K) (v : V).

(** *** lookup

    Every public operation holds the one lock of the tree, [global_rw_lock],
    from its first statement to its return; no node has a lock. *)
Definition lookup_body s k (n : addr) : addr + option V :=
  if decide (n ≠ NIL s) then
    if comp k (key s.[n]) then inl (left s.[n])
    else if comp (key s.[n]) k then inl (right s.[n])
    else inr (Some (val s.[n]))
  else inr None.

Definition lookup (fuel : nat) s k : option (option V) :=
  loop fuel (lookup_body s k) (root s).

(** *** Rotations *)
Definition left_rotate s (x : addr) : RBTree K V :=
  let y := right s.[x] in
  let s := set_right s x (left s.[y]) in
  let s := if decide (left s.[y] ≠ NIL s) then set_parent s (left s.[y]) x else s in
  let s := set_parent s y (parent s.[x]) in
  let s := if decide (parent s.[x] = NIL s) then set_root s y
           else if decide (x = left s.[parent s.[x]]) then set_left s (parent s.[x]) y
           else set_right s (parent s.[x]) y in
  let s := set_left s y x in
  set_parent s x y.

Definition right_rotate s (y : addr) : RBTree K V :=
  let x := left s.[y] in
  let s := set_left s y (right s.[x]) in
  let s := if decide (right s.[x] ≠ NIL s) then set_parent s (right s.[x]) y else s in
  let s := set_parent s x (parent s.[y]) in
  let s := if decide (parent s.[y] = NIL s) then set_root s x
           else if decide (y = right s.[parent s.[y]]) then set_right s (parent s.[y]) x
           else set_left s (parent s.[y]) x in
  let s := set_right s x y in
  set_parent s y x.

(** *** insert_fixup: the body of [while (z->parent->color == Color::RED)] *)
Definition insert_fixup_body (st : RBTree K V * addr) : (RBTree K V * addr) + RBTree K V :=
  let '(s, z) := st in
  if decide (color s.[parent s.[z]] = RED) then
    if decide (parent s.[z] = left s.[parent s.[parent s.[z]]]) then
      let y := right s.[parent s.[parent s.[z]]] in
      if decide (color s.[y] = RED) then
        let s := set_color s (parent s.[z]) BLACK in
        let s := set_color s y BLACK in
        let s := set_color s (parent s.[parent s.[z]]) RED in
        let z := parent s.[parent s.[z]] in
        inl (s, z)
      else
        let '(s, z) :=
          if decide (z = right s.[parent s.[z]]) then
            let z := parent s.[z] in
            (left_rotate s z, z)
          else (s, z) in
        let s := set_color s (parent s.[z]) BLACK in
        let s := set_color s (parent s.[parent s.[z]]) RED in
        let s := right_rotate s (parent s.[parent s.[z]]) in
        inl (s, z)
    else
      let y := left s.[parent s.[parent s.[z]]] in
      if decide (color s.[y] = RED) then
        let s := set_color s (parent s.[z]) BLACK in
        let s := set_color s y BLACK in
        let s := set_color s (parent s.[parent s.[z]]) RED in
        let z := parent s.[parent s.[z]] in
        inl (s, z)
      else
        let '(s, z) :=
          if decide (z = left s.[parent s.[z]]) then
            let z := parent s.[z] in
            (right_rotate s z, z)
          else (s, z) in
        let s := set_color s (parent s.[z]) BLACK in
        let s := set_color s (parent s.[parent s.[z]]) RED in
        let s := left_rotate s (parent s.[parent s.[z]]) in
        inl (s, z)
  else inr s.

Definition insert_fixup (fuel : nat) s (z : addr) : option (RBTree K V) :=
  s ← loop fuel insert_fixup_body (s, z);
  Some (set_color s (root s) BLACK).

(** *** insert *)
Inductive Descent :=
  | Duplicate (x : addr)
  | FellOff (y x : addr).

Definition insert_body s k (st : addr * addr) : (addr * addr) + Descent :=
  let '(y, x) := st in
  if decide (x ≠ NIL s) then
    let y := x in
    if comp k (key s.[x]) then inl (y, left s.[x])
    else if comp (key s.[x]) k then inl (y, right s.[x])
    else inr (Duplicate x)
  else inr (FellOff y x).

Definition insert (fuel : nat) s k v : option (RBTree K V) :=
  let '(s, z) := new_node s k v RED in
  let s := set_parent s z (NIL s) in
  let s := set_right s z (NIL s) in
  let s := set_left s z (NIL s) in
  let y := NIL s in
  let x := root s in
  d ← loop fuel (insert_body s k) (y, x);
  match d with
  | Duplicate x =>
    let s := set_val s x v in
    let s := delete_node s z in
    Some s
  | FellOff y x =>
    let s := set_parent s z y in
    let s :=
      if decide (y = NIL s) then set_root s z
      else if comp (key s.[z]) (key s.[y]) then set_left s y z
      else set_right s y z in
    insert_fixup fuel s z
  end.

(** *** transplant, minimum *)
Definition transplant s (u v : addr) : RBTree K V :=
  let s :=
    if decide (parent s.[u] = NIL s) then set_root s v
    else if decide (u = left s.[parent s.[u]]) then set_left s (parent s.[u]) v
    else set_right s (parent s.[u]) v in
  set_parent s v (parent s.[u]).

Definition minimum_body s (x : addr) : addr + addr :=
  if decide (left s.[x] ≠ NIL s) then inl (left s.[x]) else inr x.

Definition minimum (fuel : nat) s (x : addr) : option addr :=
  loop fuel (minimum_body s) x.

(** *** delete_fixup: the body of
    [while (x != root && x->color == Color::BLACK)] *)
Definition delete_fixup_body (st : RBTree K V * addr) : (RBTree K V * addr) + (RBTree K V * addr) :=
  let '(s, x) := st in
  if decide (x ≠ root s ∧ color s.[x] = BLACK) then
    if decide (x = left s.[parent s.[x]]) then
      let w := right s.[parent s.[x]] in
      let '(s, w) :=
        if decide (color s.[w] = RED) then
          let s := set_color s w BLACK in
          let s := set_color s (parent s.[x]) RED in
          let s := left_rotate s (parent s.[x]) in
          (s, right s.[parent s.[x]])
        else (s, w) in
      if decide (color s.[left s.[w]] = BLACK ∧ color s.[right s.[w]] = BLACK) then
        let s := set_color s w RED in
        let x := parent s.[x] in
        inl (s, x)
      else
        let '(s, w) :=
          if decide (color s.[right s.[w]] = BLACK) then
            let s := set_color s (left s.[w]) BLACK in
            let s := set_color s w RED in
            let s := right_rotate s w in
            (s, right s.[parent s.[x]])
          else (s, w) in
        let s := set_color s w (color s.[parent s.[x]]) in
        let s := set_color s (parent s.[x]) BLACK in
        let s := set_color s (right s.[w]) BLACK in
        let s := left_rotate s (parent s.[x]) in
        let x := root s in
        inl (s, x)
    else
      let w := left s.[parent s.[x]] in
      let '(s, w) :=
        if decide (color s.[w] = RED) then
          let s := set_color s w BLACK in
          let s := set_color s (parent s.[x]) RED in
          let s := right_rotate s (parent s.[x]) in
          (s, left s.[parent s.[x]])
        else (s, w) in
      if decide (color s.[right s.[w]] = BLACK ∧ color s.[left s.[w]] = BLACK) then
        let s := set_color s w RED in
        let x := parent s.[x] in
        inl (s, x)
      else
        let '(s, w) :=
          if decide (color s.[left s.[w]] = BLACK) then
            let s := set_color s (right s.[w]) BLACK in
            let s := set_color s w RED in
            let s := left_rotate s w in
            (s, left s.[parent s.[x]])
          else (s, w) in
        let s := set_color s w (color s.[parent s.[x]]) in
        let s := set_color s (parent s.[x]) BLACK in
        let s := set_color s (left s.[w]) BLACK in
        let s := right_rotate s (parent s.[x]) in
        let x := root s in
        inl (s, x)
  else inr (s, x).

Definition delete_fixup (fuel : nat) s (x : addr) : option (RBTree K V) :=
  '(s, x) ← loop fuel delete_fixup_body (s, x);
  Some (set_color s x BLACK).

(** *** erase *)
Definition erase_body s k (z : addr) : addr + addr :=
  if decide (z ≠ NIL s ∧ k ≠ key s.[z]) then
    inl (if comp k (key s.[z]) then left s.[z] else right s.[z])
  else inr z.

Definition erase (fuel : nat) s k : option (RBTree K V * bool) :=
  z ← loop fuel (erase_body s k) (root s);
  if decide (z = NIL s) then Some (s, false)
  else
    let y := z in
    let y_original := color s.[y] in
    '(s, x, y_original) ←
      (if decide (left s.[z] = NIL s) then
         let x := right s.[z] in
         let s := transplant s z (right s.[z]) in
         Some (s, x, y_original)
       else if decide (right s.[z] = NIL s) then
         let x := left s.[z] in
         let s := transplant s z (left s.[z]) in
         Some (s, x, y_original)
       else
         y ← minimum fuel s (right s.[z]);
         let y_original := color s.[y] in
         let x := right s.[y] in
         let s :=
           if decide (parent s.[y] = z) then set_parent s x y
           else
             let s := transplant s y (right s.[y]) in
             let s := set_right s y (right s.[z]) in
             set_parent s (right s.[y]) y in
         let s := transplant s z y in
         let s := set_left s y (left s.[z]) in
         let s := set_parent s (left s.[y]) y in
         let s := set_color s y (color s.[z]) in
         Some (s, x, y_original));
    let s := delete_node s z in
    if decide (y_original = BLACK) then
      s ← delete_fixup fuel s x;
      Some (s, true)
    else Some (s, true).

(** *** validate *)
Fixpoint validate_rec (fuel : nat) s (n : addr) (blacks : Z) (target : Z) : option (bool * Z) :=
  match fuel with
  | 0 => None
  | S fuel =>
    if decide (n = NIL s) then
      let target := if decide (target = (-1)%Z) then blacks else target in
      Some (bool_decide (blacks = target), target)
    else
      let blacks := if decide (color s.[n] = BLACK) then (blacks + 1)%Z else blacks in
      if decide (color s.[n] = RED ∧
                 (color s.[left s.[n]] = RED ∨ color s.[right s.[n]] = RED)) then
        Some (false, target)
      else if bool_decide (left s.[n] ≠ NIL s) && comp (key s.[n]) (key s.[left s.[n]]) then
        Some (false, target)
      else if bool_decide (right s.[n] ≠ NIL s) && comp (key s.[right s.[n]]) (key s.[n]) then
        Some (false, target)
      else
        match validate_rec fuel s (left s.[n]) blacks target with
        | Some (true, target) => validate_rec fuel s (right s.[n]) blacks target
        | r => r
        end
  end.

Definition validate (fuel : nat) s : option bool :=
  let bh := (-1)%Z in
  fst <$> validate_rec fuel s (root s) 0%Z bh.
End WithKV.
End RaceFree.

(** ** [epoch_based_rb_tree.cpp] *)
Module EpochBased.
Section WithKV.
Context {K V : Type} `{EqDecision K, Compare K, ValueInit K, ValueInit V}.
Implicit Types (s : RBTree K V) (k : K) (v : V).

(** *** lookup

    [simple_rbt::SimpleConcurrentRBTree]: as in [race_free_rb_tree.cpp], one
    lock for the whole tree, held for the whole operation. *)
Definition lookup_body s k (n : addr) : addr + option V :=
  if decide (n ≠ NIL s) then
    if comp k (key s.[n]) then inl (left s.[n])
    else if comp (key s.[n]) k then inl (right s.[n])
    else inr (Some (val s.[n]))
  else inr None.

Definition lookup (fuel : nat) s k : option (option V) :=
  loop fuel (lookup_body s k) (root s).

(** *** Rotations *)
Definition left_rotate s (x : addr) : RBTree K V :=
  let y := right s.[x] in
  let s := set_right s x (left s.[y]) in
  let s := if decide (left s.[y] ≠ NIL s) then set_parent s (left s.[y]) x else s in
  let s := set_parent s y (parent s.[x]) in
  let s := if decide (parent s.[x] = NIL s) then set_root s y
           else if decide (x = left s.[parent s.[x]]) then set_left s (parent s.[x]) y
           else set_right s (parent s.[x]) y in
  let s := set_left s y x in
  set_parent s x y.

Definition right_rotate s (y : addr) : RBTree K V :=
  let x := left s.[y] in
  let s := set_left s y (right s.[x]) in
  let s := if decide (right s.[x] ≠ NIL s) then set_parent s (right s.[x]) y else s in
  let s := set_parent s x (parent s.[y]) in
  let s := if decide (parent s.[y] = NIL s) then set_root s x
           else if decide (y = right s.[parent s.[y]]) then set_right s (parent s.[y]) x
           else set_left s (parent s.[y]) x in
  let s := set_right s x y in
  set_parent s y x.

(** *** insert_fixup: the body of [while (z->parent->color == Color::RED)] *)
Definition insert_fixup_body (st : RBTree K V * addr) : (RBTree K V * addr) + RBTree K V :=
  let '(s, z) := st in
  if decide (color s.[parent s.[z]] = RED) then
    if decide (parent s.[z] = left s.[parent s.[parent s.[z]]]) then
      let y := right s.[parent s.[parent s.[z]]] in
      if decide (color s.[y] = RED) then
        let s := set_color s (parent s.[z]) BLACK in
        let s := set_color s y BLACK in
        let s := set_color s (parent s.[parent s.[z]]) RED in
        let z := parent s.[parent s.[z]] in
        inl (s, z)
      else
        let '(s, z) :=
          if decide (z = right s.[parent s.[z]]) then
            let z := parent s.[z] in
            (left_rotate s z, z)
          else (s, z) in
        let s := set_color s (parent s.[z]) BLACK in
        let s := set_color s (parent s.[parent s.[z]]) RED in
        let s := right_rotate s (parent s.[parent s.[z]]) in
        inl (s, z)
    else
      let y := left s.[parent s.[parent s.[z]]] in
      if decide (color s.[y] = RED) then
        let s := set_color s (parent s.[z]) BLACK in
        let s := set_color s y BLACK in
        let s := set_color s (parent s.[parent s.[z]]) RED in
        let z := parent s.[parent s.[z]] in
        inl (s, z)
      else
        let '(s, z) :=
          if decide (z = left s.[parent s.[z]]) then
            let z := parent s.[z] in
            (right_rotate s z, z)
          else (s, z) in
        let s := set_color s (parent s.[z]) BLACK in
        let s := set_color s (parent s.[parent s.[z]]) RED in
        let s := left_rotate s (parent s.[parent s.[z]]) in
        inl (s, z)
  else inr s.

Definition insert_fixup (fuel : nat) s (z : addr) : option (RBTree K V) :=
  s ← loop fuel insert_fixup_body (s, z);
  Some (set_color s (root s) BLACK).

(** *** insert *)
Inductive Descent :=
  | Duplicate (x : addr)
  | FellOff (y x : addr).

Definition insert_body s k (st : addr * addr) : (addr * addr) + Descent :=
  let '(y, x) := st in
  if decide (x ≠ NIL s) then
    let y := x in
    if comp k (key s.[x]) then inl (y, left s.[x])
    else if comp (key s.[x]) k then inl (y, right s.[x])
    else inr (Duplicate x)
  else inr (FellOff y x).

Definition insert (fuel : nat) s k v : option (RBTree K V) :=
  let '(s, z) := new_node s k v RED in
  let s := set_parent s z (NIL s) in
  let s := set_right s z (NIL s) in
  let s := set_left s z (NIL s) in
  let y := NIL s in
  let x := root s in
  d ← loop fuel (insert_body s k) (y, x);
  match d with
  | Duplicate x =>
    let s := set_val s x v in
    let s := delete_node s z in
    Some s
  | FellOff y x =>
    let s := set_parent s z y in
    let s :=
      if decide (y = NIL s) then set_root s z
      else if comp (key s.[z]) (key s.[y]) then set_left s y z
      else set_right s y z in
    insert_fixup fuel s z
  end.

(** *** transplant, minimum *)
Definition transplant s (u v : addr) : RBTree K V :=
  let s :=
    if decide (parent s.[u] = NIL s) then set_root s v
    else if decide (u = left s.[parent s.[u]]) then set_left s (parent s.[u]) v
    else set_right s (parent s.[u]) v in
  set_parent s v (parent s.[u]).

Definition minimum_body s (x : addr) : addr + addr :=
  if decide (left s.[x] ≠ NIL s) then inl (left s.[x]) else inr x.

Definition minimum (fuel : nat) s (x : addr) : option addr :=
  loop fuel (minimum_body s) x.

(** *** delete_fixup: the body of
    [while (x != root && x->color == Color::BLACK)] *)
Definition delete_fixup_body (st : RBTree K V * addr) : (RBTree K V * addr) + (RBTree K V * addr) :=
  let '(s, x) := st in
  if decide (x ≠ root s ∧ color s.[x] = BLACK) then
    if decide (x = left s.[parent s.[x]]) then
      let w := right s.[parent s.[x]] in
      let '(s, w) :=
        if decide (color s.[w] = RED) then
          let s := set_color s w BLACK in
          let s := set_color s (parent s.[x]) RED in
          let s := left_rotate s (parent s.[x]) in
          (s, right s.[parent s.[x]])
        else (s, w) in
      if decide (color s.[left s.[w]] = BLACK ∧ color s.[right s.[w]] = BLACK) then
        let s := set_color s w RED in
        let x := parent s.[x] in
        inl (s, x)
      else
        let '(s, w) :=
          if decide (color s.[right s.[w]] = BLACK) then
            let s := set_color s (left s.[w]) BLACK in
            let s := set_color s w RED in
            let s := right_rotate s w in
            (s, right s.[parent s.[x]])
          else (s, w) in
        let s := set_color s w (color s.[parent s.[x]]) in
        let s := set_color s (parent s.[x]) BLACK in
        let s := set_color s (right s.[w]) BLACK in
        let s := left_rotate s (parent s.[x]) in
        let x := root s in
        inl (s, x)
    else
      let w := left s.[parent s.[x]] in
      let '(s, w) :=
        if decide (color s.[w] = RED) then
          let s := set_color s w BLACK in
          let s := set_color s (parent s.[x]) RED in
          let s := right_rotate s (parent s.[x]) in
          (s, left s.[parent s.[x]])
        else (s, w) in
      if decide (color s.[right s.[w]] = BLACK ∧ color s.[left s.[w]] = BLACK) then
        let s := set_color s w RED in
        let x := parent s.[x] in
        inl (s, x)
      else
        let '(s, w) :=
          if decide (color s.[left s.[w]] = BLACK) then
            let s := set_color s (right s.[w]) BLACK in
            let s := set_color s w RED in
            let s := left_rotate s w in
            (s, left s.[parent s.[x]])
          else (s, w) in
        let s := set_color s w (color s.[parent s.[x]]) in
        let s := set_color s (parent s.[x]) BLACK in
        let s := set_color s (left s.[w]) BLACK in
        let s := right_rotate s (parent s.[x]) in
        let x := root s in
        inl (s, x)
  else inr (s, x).

Definition delete_fixup (fuel : nat) s (x : addr) : option (RBTree K V) :=
  '(s, x) ← loop fuel delete_fixup_body (s, x);
  Some (set_color s x BLACK).

(** *** erase *)
Definition erase_body s k (z : addr) : addr + addr :=
  if decide (z ≠ NIL s ∧ k ≠ key s.[z]) then
    inl (if comp k (key s.[z]) then left s.[z] else right s.[z])
  else inr z.

Definition erase (fuel : nat) s k : option (RBTree K V * bool) :=
  z ← loop fuel (erase_body s k) (root s);
  if decide (z = NIL s) then Some (s, false)
  else
    let y := z in
    let y_original := color s.[y] in
    '(s, x, y_original) ←
      (if decide (left s.[z] = NIL s) then
         let x := right s.[z] in
         let s := transplant s z (right s.[z]) in
         Some (s, x, y_original)
       else if decide (right s.[z] = NIL s) then
         let x := left s.[z] in
         let s := transplant s z (left s.[z]) in
         Some (s, x, y_original)
       else
         y ← minimum fuel s (right s.[z]);
         let y_original := color s.[y] in
         let x := right s.[y] in
         let s :=
           if decide (parent s.[y] = z) then set_parent s x y
           else
             let s := transplant s y (right s.[y]) in
             let s := set_right s y (right s.[z]) in
             set_parent s (right s.[y]) y in
         let s := transplant s z y in
         let s := set_left s y (left s.[z]) in
         let s := set_parent s (left s.[y]) y in
         let s := set_color s y (color s.[z]) in
         Some (s, x, y_original));
    let s := delete_node s z in
    if decide (y_original = BLACK) then
      s ← delete_fixup fuel s x;
      Some (s, true)
    else Some (s, true).

(** *** validate *)
Fixpoint validate_rec (fuel : nat) s (n : addr) (blacks : Z) (target : Z) : option (bool * Z) :=
  match fuel with
  | 0 => None
  | S fuel =>
    if decide (n = NIL s) then
      let target := if decide (target = (-1)%Z) then blacks else target in
      Some (bool_decide (blacks = target), target)
    else
      let blacks := if decide (color s.[n] = BLACK) then (blacks + 1)%Z else blacks in
      if decide (color s.[n] = RED ∧
                 (color s.[left s.[n]] = RED ∨ color s.[right s.[n]] = RED)) then
        Some (false, target)
      else if bool_decide (left s.[n] ≠ NIL s) && comp (key s.[n]) (key s.[left s.[n]]) then
        Some (false, target)
      else if bool_decide (right s.[n] ≠ NIL s) && comp (key s.[right s.[n]]) (key s.[n]) then
        Some (false, target)
      else
        match validate_rec fuel s (left s.[n]) blacks target with
        | Some (true, target) => validate_rec fuel s (right s.[n]) blacks target
        | r => r
        end
  end.

Definition validate (fuel : nat) s : option bool :=
  let bh := (-1)%Z in
  fst <$> validate_rec fuel s (root s) 0%Z bh.
End WithKV.
End EpochBased.

(** ** [lock_based_rb_tree.cpp]: the ordered lock guard and the lookup that
    uses it *)
Module OrderedLocking.
(** [lock_id(reinterpret_cast<uintptr_t>(this))]: the identifier of a node
    is its address. *)
Definition lock_id (a : addr) : nat := a.

Definition lock_id_le (a b : addr) : Prop := lock_id a ≤ lock_id b.
Definition lock_id_lt (a b : addr) : Prop := lock_id a < lock_id b.

#[global] Instance lock_id_le_dec : RelDecision lock_id_le.
Proof. intros a b. unfold lock_id_le. apply _. Defined.

(** [std::sort] with the comparator [a->lock_id < b->lock_id].  Two nodes
    with the same identifier are the same node, so the sorted sequence does
    not depend on the sorting algorithm. *)
Definition std_sort (nodes : list addr) : list addr := merge_sort lock_id_le nodes.

(** [nodes.erase(std::unique(nodes.begin(), nodes.end()), nodes.end())]:
    of every run of equal adjacent pointers one is kept. *)
Fixpoint std_unique (nodes : list addr) : list addr :=
  match nodes with
  | [] => []
  | a :: nodes' =>
    match nodes' with
    | [] => [a]
    | b :: _ => if decide (a = b) then std_unique nodes' else a :: std_unique nodes'
    end
  end.

(** [class OrderedLockGuard] *)
Record OrderedLockGuard := mkOrderedLockGuard { locks_ : list shared_lock }.

Definition OrderedLockGuard_ctor (nodes : list addr) : OrderedLockGuard * list LockEvent :=
  let nodes := std_sort nodes in
  let nodes := std_unique nodes in
  (mkOrderedLockGuard (map (λ node, (shared_lock_ctor node).1) nodes),
   flat_map (λ node, (shared_lock_ctor node).2) nodes).

(** The destructor of the vector releases every lock. *)
Definition OrderedLockGuard_dtor (g : OrderedLockGuard) : list LockEvent :=
  flat_map shared_lock_release (locks_ g).

Section WithKV.
Context {K V : Type} `{EqDecision K, Compare K, ValueInit K, ValueInit V}.
Implicit Types (s : RBTree K V) (k : K) (v : V).

(** The block that both branches of the descent contain: from [curr] to
    [next], which is not the sentinel. *)
Definition descend (curr next : addr) (curr_lock : shared_lock)
    : shared_lock * list LockEvent :=
  if decide (lock_id curr < lock_id next) then
    let '(next_lock, e1) := shared_lock_ctor next in
    let '(curr_lock, e2) := shared_lock_unlock curr_lock in
    let e3 := shared_lock_release curr_lock in
    (next_lock, e1 ++ e2 ++ e3)
  else
    let nodes := [curr; next] in
    let '(ordered_lock, e1) := OrderedLockGuard_ctor nodes in
    let '(curr_lock, e2) := shared_lock_unlock curr_lock in
    let '(tmp, e3) := shared_lock_ctor next in
    let e4 := shared_lock_release curr_lock in
    let e5 := OrderedLockGuard_dtor ordered_lock in
    (tmp, e1 ++ e2 ++ e3 ++ e4 ++ e5).

Definition lookup_body s k (st : addr * shared_lock * list LockEvent)
    : (addr * shared_lock * list LockEvent) + (option V * list LockEvent) :=
  let '(curr, curr_lock, tr) := st in
  if decide (curr ≠ NIL s) then
    if comp k (key s.[curr]) then
      let next := left s.[curr] in
      if decide (next = NIL s) then inr (None, tr ++ shared_lock_release curr_lock)
      else
        let '(curr_lock, e) := descend curr next curr_lock in
        inl (next, curr_lock, tr ++ e)
    else if comp (key s.[curr]) k then
      let next := right s.[curr] in
      if decide (next = NIL s) then inr (None, tr ++ shared_lock_release curr_lock)
      else
        let '(curr_lock, e) := descend curr next curr_lock in
        inl (next, curr_lock, tr ++ e)
    else inr (Some (val s.[curr]), tr ++ shared_lock_release curr_lock)
  else inr (None, tr ++ shared_lock_release curr_lock).

Definition lookup (fuel : nat) s k : option (option V * list LockEvent) :=
  if decide (root s = NIL s) then Some (None, [])
  else
    let curr := root s in
    let '(curr_lock, e) := shared_lock_ctor curr in
    loop fuel (lookup_body s k) (curr, curr_lock, e).
End WithKV.
End OrderedLocking.

(** ** The tree a store holds *)
Section Abstract.
Context {K V : Type}.

Inductive tree :=
  | Leaf
  | T (c : Color) (l : tree) (a : addr) (k : K) (v : V) (r : tree).

(** One step of a path from a node to its parent: the hole is the left
    ([FL]) or the right ([FR]) child. *)
Inductive frame :=
  | FL (c : Color) (a : addr) (k : K) (v : V) (r : tree)
  | FR (c : Color) (l : tree) (a : addr) (k : K) (v : V).

Definition fill (F : frame) (t : tree) : tree :=
  match F with
  | FL c a k v r => T c t a k v r
  | FR c l a k v => T c l a k v t
  end.

(** Contexts list their frames from the hole upwards. *)
Fixpoint plug (C : list frame) (t : tree) : tree :=
  match C with
  | [] => t
  | F :: C => plug C (fill F t)
  end.

Definition fa (F : frame) : addr :=
  match F with FL _ a _ _ _ | FR _ _ a _ _ => a end.
Definition fc (F : frame) : Color :=
  match F with FL c _ _ _ _ | FR c _ _ _ _ => c end.
Definition fk (F : frame) : K :=
  match F with FL _ _ k _ _ | FR _ _ _ k _ => k end.
Definition fsib (F : frame) : tree :=
  match F with FL _ _ _ _ t | FR _ t _ _ _ => t end.

Definition ptr (nil : addr) (t : tree) : addr :=
  match t with Leaf => nil | T _ _ a _ _ _ => a end.
Definition tcolor (t : tree) : Color :=
  match t with Leaf => BLACK | T c _ _ _ _ _ => c end.

Fixpoint addrs (t : tree) : list addr :=
  match t with
  | Leaf => []
  | T _ l a _ _ r => a :: addrs l ++ addrs r
  end.

Fixpoint addrsC (C : list frame) : list addr :=
  match C with
  | [] => []
  | F :: C => fa F :: addrs (fsib F) ++ addrsC C
  end.

Fixpoint elems (t : tree) : list (K * V) :=
  match t with
  | Leaf => []
  | T _ l _ k v r => elems l ++ (k, v) :: elems r
  end.

Fixpoint size (t : tree) : nat :=
  match t with
  | Leaf => 0
  | T _ l _ _ _ r => S (size l + size r)
  end.

Fixpoint height (t : tree) : nat :=
  match t with
  | Leaf => 0
  | T _ l _ _ _ r => S (height l `max` height r)
  end.

(** The parent pointer of the hole, and the root pointer of the plugged
    tree. *)
Definition cparent (nil : addr) (C : list frame) : addr :=
  match C with [] => nil | F :: _ => fa F end.
Fixpoint croot (C : list frame) (a : addr) : addr :=
  match C with [] => a | F :: C => croot C (fa F) end.

(** [rep h nil p t]: the store holds [t] below parent [p], every leaf link
    being the sentinel [nil]. *)
Fixpoint rep (h : gmap addr (Node K V)) (nil p : addr) (t : tree) : Prop :=
  match t with
  | Leaf => True
  | T c l a k v r =>
    h !! a = Some (mkNode k v c p (ptr nil l) (ptr nil r)) ∧
    rep h nil a l ∧ rep h nil a r
  end.

Definition frame_node (nil : addr) (F : frame) (hole p : addr) : Node K V :=
  match F with
  | FL c a k v r => mkNode k v c p hole (ptr nil r)
  | FR c l a k v => mkNode k v c p (ptr nil l) hole
  end.

Fixpoint repC (h : gmap addr (Node K V)) (nil : addr) (C : list frame) (hole : addr) : Prop :=
  match C with
  | [] => True
  | F :: C =>
    h !! fa F = Some (frame_node nil F hole (cparent nil C)) ∧
    rep h nil (fa F) (fsib F) ∧ repC h nil C (fa F)
  end.

Context `{ValueInit K, ValueInit V}.

Definition sentinel (p : addr) : Node K V :=
  mkNode value_init value_init BLACK p nullptr nullptr.

(** [Rep nil np s t]: the tree object [s] holds [t]; its sentinel is at
    [nil], with parent field [np]. *)
Record Rep (nil np : addr) (s : RBTree K V) (t : tree) : Prop := mkRep {
  Rep_NIL : NIL s = nil;
  Rep_sentinel : heap s !! nil = Some (sentinel np);
  Rep_root : root s = ptr nil t;
  Rep_rep : rep (heap s) nil nil t;
  Rep_nodup : NoDup (addrs t);
  Rep_nil : nil ∉ addrs t
}.

(** *** Red-black conditions *)

(** [rb n t]: no red node of [t] has a red child and every path to a leaf
    has [n] black nodes. *)
Fixpoint rb (n : nat) (t : tree) : Prop :=
  match t with
  | Leaf => n = 0
  | T RED l _ _ _ r => tcolor l = BLACK ∧ tcolor r = BLACK ∧ rb n l ∧ rb n r
  | T BLACK l _ _ _ r =>
    match n with
    | 0 => False
    | S m => rb m l ∧ rb m r
    end
  end.

(** [crb n C]: the context is red-black around a hole of black height [n];
    the colour of the hole is not constrained. *)
Fixpoint crb (n : nat) (C : list frame) : Prop :=
  match C with
  | [] => True
  | F :: C =>
    match fc F with
    | RED => tcolor (fsib F) = BLACK ∧ rb n (fsib F) ∧ crb n C ∧
             match C with [] => False | F' :: _ => fc F' = BLACK end
    | BLACK => rb n (fsib F) ∧ crb (S n) C
    end
  end.

Definition ccolor (C : list frame) : Color :=
  match C with [] => BLACK | F :: _ => fc F end.

Context `{Compare K}.

Definition klt (e1 e2 : K * V) : Prop := comp e1.1 e2.1 = true.
Definition sorted (t : tree) : Prop := StronglySorted klt (elems t).

(** The invariant of the tree object between two operations. *)
Record Inv (nil np : addr) (s : RBTree K V) (t : tree) : Prop := mkInv {
  Inv_Rep : Rep nil np s t;
  Inv_black : tcolor t = BLACK;
  Inv_rb : ∃ n, rb n t;
  Inv_sorted : sorted t
}.
End Abstract.

Arguments tree : clear implicits.
Arguments frame : clear implicits.

(** Disjointness of two address lists, and paths into a tree. *)
Definition disj (l k : list addr) : Prop := ∀ x, x ∈ l → x ∉ k.

Inductive dir := L | R.

Section Paths.
Context {K V : Type}.

(** [unzip path t acc]: follow [path] from the root of [t], pushing the
    frames passed on [acc]. *)
Fixpoint unzip (path : list dir) (t : tree K V) (acc : list (frame K V))
    : option (list (frame K V) * tree K V) :=
  match path with
  | [] => Some (acc, t)
  | d :: path =>
    match t with
    | Leaf => None
    | T c l a k v r =>
      match d with
      | L => unzip path l (FL c a k v r :: acc)
      | R => unzip path r (FR c l a k v :: acc)
      end
    end
  end.

(** The elements to the left and to the right of the hole. *)
Fixpoint lpart (C : list (frame K V)) : list (K * V) :=
  match C with
  | [] => []
  | FL _ _ _ _ _ :: C => lpart C
  | FR _ l _ k v :: C => lpart C ++ elems l ++ [(k, v)]
  end.

Fixpoint rpart (C : list (frame K V)) : list (K * V) :=
  match C with
  | [] => []
  | FL _ _ k v r :: C => (k, v) :: elems r ++ rpart C
  | FR _ _ _ _ _ :: C => rpart C
  end.
End Paths.

Section Blacken.
Context {K V : Type}.
Definition blacken (t : tree K V) : tree K V :=
  match t with
  | Leaf => Leaf
  | T _ l a k v r => T BLACK l a k v r
  end.
End Blacken.

Section Search.
Context {K V : Type} `{EqDecision K, Compare K}.

(** The reference semantics: the first binding of a key in a list. *)
Fixpoint assoc (k : K) (E : list (K * V)) : option V :=
  match E with
  | [] => None
  | (k', v) :: E => if decide (k = k') then Some v else assoc k E
  end.

(** The frames of [C] are those a search for [k] passes. *)
Definition on_path (k : K) (F : frame K V) : Prop :=
  match F with
  | FL _ _ k' _ _ => comp k k' = true
  | FR _ _ _ k' _ => comp k' k = true
  end.
Definition spath (k : K) (C : list (frame K V)) : Prop := Forall (on_path k) C.
End Search.

Section Deficient.
Context {K V : Type}.

(** Red-black of black height [bh], except that a red root may have red
    children. *)
Definition defic (bh : nat) (t : tree K V) : Prop :=
  match t with
  | T RED l _ _ _ r => rb bh l ∧ rb bh r
  | _ => rb bh t
  end.

Definition valid (t : tree K V) : Prop := tcolor t = BLACK ∧ ∃ m, rb m t.
End Deficient.

(** * Statements

    The definitions that the theorems are stated with: lock traces, the
    parts of [erase], loop invariants, what [validate] computes, and
    sequences of operations. *)

Import LockCoupled.

(** ** Lock traces *)

(** The largest number of locks held at any instant of a trace that starts
    with the locks [h] held. *)
Fixpoint peak (h : list addr) (tr : list LockEvent) : nat :=
  match tr with
  | [] => length h
  | e :: tr => length h `max` peak (held_step h e) tr
  end.

Definition is_LockUnique (e : LockEvent) : Prop :=
  match e with LockUnique _ => True | _ => False end.

(** The trace of a descent by lock coupling from the node [n] along
    [path]: the lock of the next node is taken, then the lock of the
    current node is released; [tail] is what is done at the last node. *)
Fixpoint coupled (n : addr) (path : list addr) (tail : addr → list LockEvent)
    : list LockEvent :=
  match path with
  | [] => tail n
  | c :: path => LockShared c :: UnlockShared n :: coupled c path tail
  end.

(** [tr] is the trace of such a descent from [r] that has arrived at [n]. *)
Definition coupled_so_far (r n : addr) (tr : list LockEvent) : Prop :=
  ∃ path, ∀ tail, tr ++ tail n = LockShared r :: coupled r path tail.

(** What [lookup] does at the last node, and what [insert] does. *)
Definition lookup_tail (n : addr) : list LockEvent := [UnlockShared n].
Definition insert_tail (n : addr) : list LockEvent :=
  [UnlockShared n; LockUnique n; UnlockUnique n].

Section Statements.
Context {K V : Type} `{EqDecision K, Compare K, ValueInit K, ValueInit V}.
Implicit Types (s : RBTree K V) (t : tree K V) (F : frame K V)
  (C : list (frame K V)) (k : K) (v : V).

(** What the loop of [lookup] keeps, [r] being the root: the lock object
    owns the lock of the current node, which is the one lock held. *)
Definition lookup_locks (r : addr) (st : addr * shared_lock * list LockEvent) : Prop :=
  st.1.2 = mk_shared_lock st.1.1 true ∧ held st.2 = [st.1.1] ∧ peak [] st.2 ≤ 2 ∧
  coupled_so_far r st.1.1 st.2.

Definition lookup_locks_post (r : addr) (res : option V * list LockEvent) : Prop :=
  held res.2 = [] ∧ peak [] res.2 ≤ 2 ∧
  ∃ path, res.2 = LockShared r :: coupled r path lookup_tail.

(** The same for the descent of [insert]; no exclusive lock was taken. *)
Definition insert_locks (r : addr) (st : addr * addr * UpgradeLock * list LockEvent) : Prop :=
  st.1.2 = mkUpgradeLock (mk_shared_lock st.1.1.2 true) (mk_unique_lock st.1.1.2 false) ∧
  held st.2 = [st.1.1.2] ∧ peak [] st.2 ≤ 2 ∧ Forall (λ e, ¬ is_LockUnique e) st.2 ∧
  coupled_so_far r st.1.1.2 st.2.

Definition descent_locks (r : addr) s (d : Descent) : Prop :=
  match d with
  | Duplicate x lock_x tr => insert_locks r (x, x, lock_x, tr)
  | FellOff y x lock_x tr => insert_locks r (y, x, lock_x, tr) ∧ x = NIL s
  end.

(** ** Loop invariants *)

(** [lookup]: the current node is the root of the subtree [t] in the hole
    of a context that a search for [k] passes. *)
Definition lookup_inv (nil : addr) (t0 : tree K V) (k : K) (n : nat)
    (st : addr * shared_lock * list LockEvent) : Prop :=
  ∃ C t, t0 = plug C t ∧ st.1.1 = ptr nil t ∧ spath k C ∧ height t = n.

Definition lookup_post (t0 : tree K V) (k : K) (r : option V * list LockEvent) : Prop :=
  r.1 = assoc k (elems t0).

(** The descent of [insert]. *)
Definition descent_inv (nil : addr) (t0 : tree K V) (k : K) (n : nat)
    (st : addr * addr * UpgradeLock * list LockEvent) : Prop :=
  ∃ C t, t0 = plug C t ∧ st.1.1.2 = ptr nil t ∧ st.1.1.1 = cparent nil C ∧
         spath k C ∧ height t = n.

Definition descent_post (nil : addr) (t0 : tree K V) (k : K) (d : Descent) : Prop :=
  match d with
  | Duplicate x _ _ => ∃ C c l v r, t0 = plug C (T c l x k v r) ∧ spath k C
  | FellOff y x _ _ => ∃ C, t0 = plug C Leaf ∧ spath k C ∧ y = cparent nil C ∧ x = nil
  end.

(** [insert_fixup]: [z] is a red node whose subtree is red-black, in a
    red-black context; only [z] and its parent may both be red. *)
Definition IF_inv (nil np : addr) (E : list (K * V)) (n : nat)
    (st : RBTree K V * addr) : Prop :=
  ∃ C l k v r bh,
    Rep nil np st.1 (plug C (T RED l st.2 k v r)) ∧
    rb bh (T RED l st.2 k v r) ∧ crb bh C ∧
    elems (plug C (T RED l st.2 k v r)) = E ∧ length C = n.

Definition IF_post (nil np : addr) (E : list (K * V)) (s : RBTree K V) : Prop :=
  ∃ t, Rep nil np s t ∧ (∃ m, rb m (blacken t)) ∧ elems t = E.

(** [delete_fixup]: either the subtree at [x] is one black node short, or
    the tree is repaired and [x] is the root. *)
Definition DF_inv (nil np : addr) (E : list (K * V)) (n : nat)
    (st : RBTree K V * addr) : Prop :=
  (∃ C t bh,
     Rep nil np st.1 (plug C t) ∧ st.2 = ptr nil t ∧ (t = Leaf → np = cparent nil C) ∧
     defic bh t ∧ crb (S bh) C ∧ elems (plug C t) = E ∧
     n = match tcolor t with RED => 0 | BLACK => S (length C) end) ∨
  (∃ t, Rep nil np st.1 t ∧ st.2 = root st.1 ∧ valid t ∧ elems t = E ∧ n = 0).

Definition DF_post (nil np : addr) (E : list (K * V)) (st : RBTree K V * addr) : Prop :=
  ∃ t, Rep nil np (set_color st.1 st.2 BLACK) t ∧ valid t ∧ elems t = E.

(** The search of [erase]: it compares with [!=] first, then with the
    comparator. *)
Definition search_step (k : K) (F : frame K V) : Prop :=
  match F with
  | FL _ _ k' _ _ => comp k k' = true ∧ k ≠ k'
  | FR _ _ _ k' _ => comp k k' = false ∧ k ≠ k'
  end.

Definition search_inv (nil : addr) (t0 : tree K V) (k : K) (n : nat) (z : addr) : Prop :=
  ∃ C t, t0 = plug C t ∧ z = ptr nil t ∧ Forall (search_step k) C ∧ height t = n.

Definition search_post (nil : addr) (t0 : tree K V) (k : K) (z : addr) : Prop :=
  ∃ C t, t0 = plug C t ∧ z = ptr nil t ∧ Forall (search_step k) C ∧
         (t = Leaf ∨ ∃ c l v r, t = T c l z k v r).

(** [minimum] goes down left links only. *)
Definition is_FL (F : frame K V) : Prop :=
  match F with FL _ _ _ _ _ => True | FR _ _ _ _ _ => False end.

Definition minimum_inv (nil : addr) (r : tree K V) (n : nat) (x : addr) : Prop :=
  ∃ Cy t, r = plug Cy t ∧ t ≠ Leaf ∧ x = ptr nil t ∧ Forall is_FL Cy ∧ height t = n.

Definition minimum_post (r : tree K V) (y : addr) : Prop :=
  ∃ Cy cy ky vy ry, r = plug Cy (T cy Leaf y ky vy ry) ∧ Forall is_FL Cy.

(** ** The parts of [erase]

    Step 3 of [erase], from the node [z] that the search found: the node
    is unlinked, by its in-order successor if it has two children.
    [erase] is the search, this step, [delete z] and [delete_fixup]. *)
Definition erase_two_children s (z y : addr) : RBTree K V * addr * Color :=
  let y_original := color s.[y] in
  let x := right s.[y] in
  let s :=
    if decide (parent s.[y] = z) then set_parent s x y
    else
      let s := transplant s y (right s.[y]) in
      let s := set_right s y (right s.[z]) in
      set_parent s (right s.[y]) y in
  let s := transplant s z y in
  let s := set_left s y (left s.[z]) in
  let s := set_parent s (left s.[y]) y in
  let s := set_color s y (color s.[z]) in
  (s, x, y_original).

Definition erase_unlink (fuel : nat) s (z : addr) : option (RBTree K V * addr * Color) :=
  let y := z in
  let y_original := color s.[y] in
  if decide (left s.[z] = NIL s) then
    let x := right s.[z] in
    let s := transplant s z (right s.[z]) in
    Some (s, x, y_original)
  else if decide (right s.[z] = NIL s) then
    let x := left s.[z] in
    let s := transplant s z (left s.[z]) in
    Some (s, x, y_original)
  else
    y ← minimum fuel s (right s.[z]);
    Some (erase_two_children s z y).

(** What step 3 does to the tree [plug C (T c l z k v r)]: the hole of the
    context [C'] is where the removed node was, [t'] is the subtree that
    moved there and [c'] the colour of the removed node. *)
Definition unlink_shape C (c : Color) (l : tree K V) (r : tree K V)
    C' (c' : Color) (t' : tree K V) : Prop :=
  (l = Leaf ∧ C' = C ∧ t' = r ∧ c' = c) ∨
  (l ≠ Leaf ∧ r = Leaf ∧ C' = C ∧ t' = l ∧ c' = c) ∨
  (l ≠ Leaf ∧ ∃ Cy y ky vy,
     r = plug Cy (T c' Leaf y ky vy t') ∧ Forall is_FL Cy ∧
     C' = Cy ++ FR c l y ky vy :: C).

(** The parent field of the sentinel after [transplant(u, v)] with [v]
    the root of [t] under the context [C]. *)
Definition np_after (nil np : addr) C t : addr :=
  match t with Leaf => cparent nil C | _ => np end.

(** ** What [validate] computes *)

(** The key at the root of a subtree; the sentinel's key for a leaf. *)
Definition tkey (t : tree K V) : K :=
  match t with Leaf => value_init | T _ _ _ k _ _ => k end.

Definition is_node (t : tree K V) : bool :=
  match t with Leaf => false | T _ _ _ _ _ _ => true end.

(** [validate_rec] on the tree that the store holds. *)
Fixpoint check (t : tree K V) (blacks target : Z) : bool * Z :=
  match t with
  | Leaf =>
    let target := if decide (target = (-1)%Z) then blacks else target in
    (bool_decide (blacks = target), target)
  | T c l _ k _ r =>
    let blacks := if decide (c = BLACK) then (blacks + 1)%Z else blacks in
    if decide (c = RED ∧ (tcolor l = RED ∨ tcolor r = RED)) then (false, target)
    else if is_node l && comp k (tkey l) then (false, target)
    else if is_node r && comp (tkey r) k then (false, target)
    else
      match check l blacks target with
      | (true, target) => check r blacks target
      | res => res
      end
  end.

(** The order test of [validate_rec]: no node's key is before the key of
    its left child, or after the key of its right child. *)
Fixpoint local_order (t : tree K V) : Prop :=
  match t with
  | Leaf => True
  | T _ l _ k _ r =>
    (is_node l && comp k (tkey l) = false) ∧ (is_node r && comp (tkey r) k = false) ∧
    local_order l ∧ local_order r
  end.

(** ** The descents of the three [insert]s end alike *)
Definition same_descent (d1 : LockCoupled.Descent) (d2 : RaceFree.Descent) : Prop :=
  match d1, d2 with
  | LockCoupled.Duplicate x _ _, RaceFree.Duplicate x' => x = x'
  | LockCoupled.FellOff y x _ _, RaceFree.FellOff y' x' => y = y' ∧ x = x'
  | _, _ => False
  end.

Definition same_descent_coarse (d1 : RaceFree.Descent) (d2 : EpochBased.Descent) : Prop :=
  match d1, d2 with
  | RaceFree.Duplicate x, EpochBased.Duplicate x' => x = x'
  | RaceFree.FellOff y x, EpochBased.FellOff y' x' => y = y' ∧ x = x'
  | _, _ => False
  end.
End Statements.

Section SearchPaths.
Context {K V : Type} `{EqDecision K, Compare K, ValueInit K, ValueInit V}.
Implicit Types (s : RBTree K V) (k : K).

(** ** The nodes a search visits

    A search for [k] moves from the node [n] to its child [c]: the left
    child when [k] is less than the key of [n], the right child when it is
    greater. *)
Definition search_child s k (n c : addr) : Prop :=
  n ≠ NIL s ∧
  if comp k (key s.[n]) then c = left s.[n]
  else comp (key s.[n]) k = true ∧ c = right s.[n].

(** It ends at the sentinel, and at a node whose key is neither. *)
Definition search_ends s k (n : addr) : Prop :=
  n = NIL s ∨ (comp k (key s.[n]) = false ∧ comp (key s.[n]) k = false).

(** [path] is the nodes that a search for [k] visits after [n], in the
    order of the visits, down to the node where it ends. *)
Fixpoint visits s k (n : addr) (path : list addr) : Prop :=
  match path with
  | [] => search_ends s k n
  | c :: path => search_child s k n c ∧ visits s k c path
  end.

(** [tr] is the trace of a descent by lock coupling along the nodes that
    a search for [k] visits from [r], which has arrived at [n]. *)
Definition visiting s k (r n : addr) (tr : list LockEvent) : Prop :=
  ∃ path,
    (∀ rest, visits s k n rest → visits s k r (path ++ rest)) ∧
    (∀ tail, tr ++ tail n = LockShared r :: coupled r path tail).

Definition lookup_visiting s k (st : addr * shared_lock * list LockEvent) : Prop :=
  st.1.2 = mk_shared_lock st.1.1 true ∧ visiting s k (root s) st.1.1 st.2.

Definition insert_visiting s k (st : addr * addr * UpgradeLock * list LockEvent) : Prop :=
  st.1.2 = mkUpgradeLock (mk_shared_lock st.1.1.2 true) (mk_unique_lock st.1.1.2 false) ∧
  visiting s k (root s) st.1.1.2 st.2.

(** The trace of the whole descent, [tail] being what is done at the node
    where it ends. *)
Definition visited s k (tail : addr → list LockEvent) (tr : list LockEvent) : Prop :=
  ∃ path, visits s k (root s) path ∧ tr = LockShared (root s) :: coupled (root s) path tail.

Definition descent_visited s k (d : Descent) : Prop :=
  match d with
  | Duplicate x lock_x tr | FellOff _ x lock_x tr =>
    lock_x = mkUpgradeLock (mk_shared_lock x true) (mk_unique_lock x false) ∧
    ∀ tail, visited s k tail (tr ++ tail x)
  end.
End SearchPaths.

Section OrderedPaths.
Context {K V : Type} `{EqDecision K, Compare K, ValueInit K, ValueInit V}.
Implicit Types (s : RBTree K V) (k : K).

(** ** The ordered descent

    The events of a move from the node [n] to its child [c]: with the
    identifier of [n] the smaller one, the lock of [c] and then the unlock
    of [n]; otherwise the locks of a guard on the two nodes, the unlock of
    [n], the lock of [c], and the unlocks of the guard. *)
Definition ordered_move (n c : addr) (e : list LockEvent) : Prop :=
  if decide (OrderedLocking.lock_id n < OrderedLocking.lock_id c) then
    e = [LockShared c; UnlockShared n]
  else
    ∃ l, e = map LockShared l ++ [UnlockShared n; LockShared c] ++ map UnlockShared l ∧
         StronglySorted OrderedLocking.lock_id_lt l ∧ (∀ a, a ∈ l ↔ a = n ∨ a = c).

(** The ordered [lookup] does not move to the sentinel: it ends at a node
    whose child on the side of [k] is the sentinel, and at a node with the
    key. *)
Definition ordered_ends s k (n : addr) : Prop :=
  n ≠ NIL s ∧
  if comp k (key s.[n]) then left s.[n] = NIL s
  else if comp (key s.[n]) k then right s.[n] = NIL s
  else True.

(** [path] is the nodes that it visits after [n]. *)
Fixpoint ordered_visits s k (n : addr) (path : list addr) : Prop :=
  match path with
  | [] => ordered_ends s k n
  | c :: path => search_child s k n c ∧ c ≠ NIL s ∧ ordered_visits s k c path
  end.

(** [tr] is the events of the moves from [n] along [path], and the unlock
    of the last node. *)
Fixpoint ordered_coupled (n : addr) (path : list addr) (tr : list LockEvent) : Prop :=
  match path with
  | [] => tr = [UnlockShared n]
  | c :: path => ∃ e tr', tr = e ++ tr' ∧ ordered_move n c e ∧ ordered_coupled c path tr'
  end.

(** The trace of an ordered [lookup] of [k]. *)
Definition ordered_visited s k (tr : list LockEvent) : Prop :=
  ∃ path tr',
    ordered_visits s k (root s) path ∧
    tr = LockShared (root s) :: tr' ∧ ordered_coupled (root s) path tr'.

(** What its loop keeps. *)
Definition ordered_visiting s k (st : addr * shared_lock * list LockEvent) : Prop :=
  st.1.1 ≠ NIL s ∧ st.1.2 = mk_shared_lock st.1.1 true ∧
  ∃ path tr',
    st.2 = LockShared (root s) :: tr' ∧
    (∀ rest, ordered_visits s k st.1.1 rest → ordered_visits s k (root s) (path ++ rest)) ∧
    (∀ rest tr'', ordered_coupled st.1.1 rest tr'' →
                  ordered_coupled (root s) (path ++ rest) (tr' ++ tr'')).
End OrderedPaths.

(** ** Sequences of operations *)
Inductive Op (K V : Type) :=
  | OpInsert (k : K) (v : V)
  | OpErase (k : K)
  | OpLookup (k : K).
Arguments OpInsert {K V} k v.
Arguments OpErase {K V} k.
Arguments OpLookup {K V} k.

Inductive Result (V : Type) :=
  | RInsert
  | RErase (b : bool)
  | RLookup (o : option V).
Arguments RInsert {V}.
Arguments RErase {V} b.
Arguments RLookup {V} o.

Section Run.
Context {K V : Type} `{EqDecision K, Compare K, ValueInit K, ValueInit V}.

(** A single-threaded client of one of the three classes. *)
Definition step_with
    (insert : nat → RBTree K V → K → V → option (RBTree K V))
    (erase : nat → RBTree K V → K → option (RBTree K V * bool))
    (lookup : nat → RBTree K V → K → option (option V))
    (fuel : nat) (s : RBTree K V) (op : Op K V) : option (RBTree K V * Result V) :=
  match op with
  | OpInsert k v => s' ← insert fuel s k v; Some (s', RInsert)
  | OpErase k => '(s', b) ← erase fuel s k; Some (s', RErase b)
  | OpLookup k => o ← lookup fuel s k; Some (s, RLookup o)
  end.

Fixpoint run_with
    (insert : nat → RBTree K V → K → V → option (RBTree K V))
    (erase : nat → RBTree K V → K → option (RBTree K V * bool))
    (lookup : nat → RBTree K V → K → option (option V))
    (fuel : nat) (ops : list (Op K V)) (s : RBTree K V)
    : option (RBTree K V * list (Result V)) :=
  match ops with
  | [] => Some (s, [])
  | op :: ops =>
    '(s', r) ← step_with insert erase lookup fuel s op;
    '(s'', rs) ← run_with insert erase lookup fuel ops s';
    Some (s'', r :: rs)
  end.

Definition run_lock_coupled :=
  run_with (λ fuel s k v, fst <$> LockCoupled.insert fuel s k v)
           LockCoupled.erase
           (λ fuel s k, fst <$> LockCoupled.lookup fuel s k).
Definition run_race_free := run_with RaceFree.insert RaceFree.erase RaceFree.lookup.
Definition run_epoch_based := run_with EpochBased.insert EpochBased.erase EpochBased.lookup.

(** The map that a sequence of operations describes. *)
Definition apply_op (m : K → option V) (op : Op K V) : K → option V :=
  match op with
  | OpInsert k v => λ k', if decide (k' = k) then Some v else m k'
  | OpErase k => λ k', if decide (k' = k) then None else m k'
  | OpLookup _ => m
  end.

Definition bindings (ops : list (Op K V)) : K → option V :=
  foldl apply_op (λ _, None) ops.

Fixpoint expected (m : K → option V) (ops : list (Op K V)) : list (Result V) :=
  match ops with
  | [] => []
  | op :: ops =>
    match op with
    | OpInsert _ _ => RInsert
    | OpErase k => RErase (bool_decide (is_Some (m k)))
    | OpLookup k => RLookup (m k)
    end :: expected (apply_op m op) ops
  end.
End Run.

(** ** Some stores with integer keys *)

(** A black root with key [5]; the same with a red root; and a tree whose
    keys are, in order, [3; 7; 5; 8]. *)
Definition znode (k v : Z) (c : Color) (p l r : addr) : Node Z Z := mkNode k v c p l r.

Definition black_root : RBTree Z Z :=
  mkRBTree (<[2 := znode 5 50 BLACK 1 1 1]> {[1 := znode 0 0 BLACK 0 0 0]}) 2 1.

Definition red_root : RBTree Z Z :=
  mkRBTree (<[2 := znode 5 50 RED 1 1 1]> {[1 := znode 0 0 BLACK 0 0 0]}) 2 1.

Definition unordered : RBTree Z Z :=
  mkRBTree (<[2 := znode 5 50 BLACK 1 3 5]>
            (<[3 := znode 3 30 BLACK 2 1 4]>
             (<[4 := znode 7 70 RED 3 1 1]>
              (<[5 := znode 8 80 BLACK 2 1 1]> {[1 := znode 0 0 BLACK 0 0 0]})))) 2 1.

Definition ztree (c : Color) (l : tree Z Z) (a : addr) (k v : Z) (r : tree Z Z) : tree Z Z :=
  T c l a k v r.

Definition unordered_tree : tree Z Z :=
  ztree BLACK (ztree BLACK Leaf 3 3 30 (ztree RED Leaf 4 7 70 Leaf)) 2 5 50
    (ztree BLACK Leaf 5 8 80 Leaf).

(** A tree whose root has a larger address than its child. *)
Definition reversed : RBTree Z Z :=
  mkRBTree (<[3 := znode 5 50 BLACK 1 2 1]>
            (<[2 := znode 3 30 RED 3 1 1]> {[1 := znode 0 0 BLACK 0 0 0]})) 3 1.

Definition reversed_tree : tree Z Z :=
  ztree BLACK (ztree RED Leaf 2 3 30 Leaf) 3 5 50 Leaf.

Definition example_ops : list (Op Z Z) :=
  [OpInsert 3 30; OpInsert 1 10; OpInsert 2 20; OpErase 3; OpLookup 2; OpInsert 5 50]%Z.

(** * The rest of the code: destructor, the fourth file, and the callers *)

(** ** The destructor

    [~RBTree()] and [destroy_rec] are the same in the four files.  Here a
    pointer that is not allocated is an error: reading a field through it
    or deleting it gives [None], as running out of fuel does. *)
Section Destroy.
Context {K V : Type}.
Implicit Types (s : RBTree K V).

(** [delete p] *)
Definition checked_delete s (p : addr) : option (RBTree K V) :=
  match heap s !! p with
  | Some _ => Some (delete_node s p)
  | None => None
  end.

Fixpoint destroy_rec (fuel : nat) s (n : addr) : option (RBTree K V) :=
  match fuel with
  | 0 => None
  | S fuel =>
    if decide (n = NIL s) then Some s
    else
      nd ← heap s !! n;
      s ← destroy_rec fuel s (left nd);
      nd ← heap s !! n;
      s ← destroy_rec fuel s (right nd);
      checked_delete s n
  end.

Definition RBTree_dtor (fuel : nat) s : option (RBTree K V) :=
  s ← destroy_rec fuel s (root s);
  checked_delete s (NIL s).

(** The number of nodes that are allocated, the sentinel among them. *)
Definition allocated_nodes s : nat := base.size (dom (heap s)).

(** The allocated nodes are the sentinel and the nodes of the tree. *)
Definition Tight (nil : addr) s (t : tree K V) : Prop :=
  dom (heap s) = list_to_set (nil :: addrs t).
End Destroy.
(** ** [lock_based_rb_tree.cpp]: the other member functions

    [lookup_simple], [insert] and [erase] hold [writers_mutex], and
    [lookup_hybrid] and [insert_hybrid] hold [global_rw_lock], from their
    first statement to their return.  None of them takes the lock of a
    node. *)
Module LockBased.
Section WithKV.
Context {K V : Type} `{EqDecision K, Compare K, ValueInit K, ValueInit V}.
Implicit Types (s : RBTree K V) (k : K) (v : V).

(** *** lookup_simple, lookup_hybrid

    The body of [while (curr != NIL)], which is the same in both. *)
Definition lookup_body s k (curr : addr) : addr + option V :=
  if decide (curr ≠ NIL s) then
    if comp k (key s.[curr]) then inl (left s.[curr])
    else if comp (key s.[curr]) k then inl (right s.[curr])
    else inr (Some (val s.[curr]))
  else inr None.

Definition lookup_simple (fuel : nat) s k : option (option V) :=
  let curr := root s in
  loop fuel (lookup_body s k) curr.

Definition lookup_hybrid (fuel : nat) s k : option (option V) :=
  let curr := root s in
  loop fuel (lookup_body s k) curr.

(** *** Rotations *)
Definition left_rotate s (x : addr) : RBTree K V :=
  let y := right s.[x] in
  let s := set_right s x (left s.[y]) in
  let s := if decide (left s.[y] ≠ NIL s) then set_parent s (left s.[y]) x else s in
  let s := set_parent s y (parent s.[x]) in
  let s := if decide (parent s.[x] = NIL s) then set_root s y
           else if decide (x = left s.[parent s.[x]]) then set_left s (parent s.[x]) y
           else set_right s (parent s.[x]) y in
  let s := set_left s y x in
  set_parent s x y.

Definition right_rotate s (y : addr) : RBTree K V :=
  let x := left s.[y] in
  let s := set_left s y (right s.[x]) in
  let s := if decide (right s.[x] ≠ NIL s) then set_parent s (right s.[x]) y else s in
  let s := set_parent s x (parent s.[y]) in
  let s := if decide (parent s.[y] = NIL s) then set_root s x
           else if decide (y = right s.[parent s.[y]]) then set_right s (parent s.[y]) x
           else set_left s (parent s.[y]) x in
  let s := set_right s x y in
  set_parent s y x.

(** *** insert_fixup: the body of [while (z->parent->color == Color::RED)] *)
Definition insert_fixup_body (st : RBTree K V * addr) : (RBTree K V * addr) + RBTree K V :=
  let '(s, z) := st in
  if decide (color s.[parent s.[z]] = RED) then
    if decide (parent s.[z] = left s.[parent s.[parent s.[z]]]) then
      let y := right s.[parent s.[parent s.[z]]] in
      if decide (color s.[y] = RED) then
        let s := set_color s (parent s.[z]) BLACK in
        let s := set_color s y BLACK in
        let s := set_color s (parent s.[parent s.[z]]) RED in
        let z := parent s.[parent s.[z]] in
        inl (s, z)
      else
        let '(s, z) :=
          if decide (z = right s.[parent s.[z]]) then
            let z := parent s.[z] in
            (left_rotate s z, z)
          else (s, z) in
        let s := set_color s (parent s.[z]) BLACK in
        let s := set_color s (parent s.[parent s.[z]]) RED in
        let s := right_rotate s (parent s.[parent s.[z]]) in
        inl (s, z)
    else
      let y := left s.[parent s.[parent s.[z]]] in
      if decide (color s.[y] = RED) then
        let s := set_color s (parent s.[z]) BLACK in
        let s := set_color s y BLACK in
        let s := set_color s (parent s.[parent s.[z]]) RED in
        let z := parent s.[parent s.[z]] in
        inl (s, z)
      else
        let '(s, z) :=
          if decide (z = left s.[parent s.[z]]) then
            let z := parent s.[z] in
            (right_rotate s z, z)
          else (s, z) in
        let s := set_color s (parent s.[z]) BLACK in
        let s := set_color s (parent s.[parent s.[z]]) RED in
        let s := left_rotate s (parent s.[parent s.[z]]) in
        inl (s, z)
  else inr s.

Definition insert_fixup (fuel : nat) s (z : addr) : option (RBTree K V) :=
  s ← loop fuel insert_fixup_body (s, z);
  Some (set_color s (root s) BLACK).

(** *** insert, insert_hybrid

    The body of [while (x != NIL)], which is the same in both. *)
Inductive Descent :=
  | Duplicate (x : addr)
  | FellOff (y x : addr).

Definition insert_body s k (st : addr * addr) : (addr * addr) + Descent :=
  let '(y, x) := st in
  if decide (x ≠ NIL s) then
    let y := x in
    if comp k (key s.[x]) then inl (y, left s.[x])
    else if comp (key s.[x]) k then inl (y, right s.[x])
    else inr (Duplicate x)
  else inr (FellOff y x).

Definition insert (fuel : nat) s k v : option (RBTree K V) :=
  let '(s, z) := new_node s k v RED in
  let s := set_parent s z (NIL s) in
  let s := set_right s z (NIL s) in
  let s := set_left s z (NIL s) in
  if decide (root s = NIL s) then
    let s := set_root s z in
    let s := set_color s z BLACK in
    Some s
  else
    let y := NIL s in
    let x := root s in
    d ← loop fuel (insert_body s k) (y, x);
    match d with
    | Duplicate x =>
      let s := set_val s x v in
      let s := delete_node s z in
      Some s
    | FellOff y x =>
      let s := set_parent s z y in
      let s :=
        if comp (key s.[z]) (key s.[y]) then set_left s y z
        else set_right s y z in
      insert_fixup fuel s z
    end.

Definition insert_hybrid (fuel : nat) s k v : option (RBTree K V) :=
  let '(s, z) := new_node s k v RED in
  let s := set_parent s z (NIL s) in
  let s := set_right s z (NIL s) in
  let s := set_left s z (NIL s) in
  if decide (root s = NIL s) then
    let s := set_root s z in
    let s := set_color s z BLACK in
    Some s
  else
    let y := NIL s in
    let x := root s in
    d ← loop fuel (insert_body s k) (y, x);
    match d with
    | Duplicate x =>
      let s := set_val s x v in
      let s := delete_node s z in
      Some s
    | FellOff y x =>
      let s := set_parent s z y in
      let s :=
        if comp (key s.[z]) (key s.[y]) then set_left s y z
        else set_right s y z in
      insert_fixup fuel s z
    end.

(** *** transplant, minimum *)
Definition transplant s (u v : addr) : RBTree K V :=
  let s :=
    if decide (parent s.[u] = NIL s) then set_root s v
    else if decide (u = left s.[parent s.[u]]) then set_left s (parent s.[u]) v
    else set_right s (parent s.[u]) v in
  set_parent s v (parent s.[u]).

Definition minimum_body s (x : addr) : addr + addr :=
  if decide (left s.[x] ≠ NIL s) then inl (left s.[x]) else inr x.

Definition minimum (fuel : nat) s (x : addr) : option addr :=
  loop fuel (minimum_body s) x.

(** *** delete_fixup: the body of
    [while (x != root && x->color == Color::BLACK)] *)
Definition delete_fixup_body (st : RBTree K V * addr) : (RBTree K V * addr) + (RBTree K V * addr) :=
  let '(s, x) := st in
  if decide (x ≠ root s ∧ color s.[x] = BLACK) then
    if decide (x = left s.[parent s.[x]]) then
      let w := right s.[parent s.[x]] in
      let '(s, w) :=
        if decide (color s.[w] = RED) then
          let s := set_color s w BLACK in
          let s := set_color s (parent s.[x]) RED in
          let s := left_rotate s (parent s.[x]) in
          (s, right s.[parent s.[x]])
        else (s, w) in
      if decide (color s.[left s.[w]] = BLACK ∧ color s.[right s.[w]] = BLACK) then
        let s := set_color s w RED in
        let x := parent s.[x] in
        inl (s, x)
      else
        let '(s, w) :=
          if decide (color s.[right s.[w]] = BLACK) then
            let s := set_color s (left s.[w]) BLACK in
            let s := set_color s w RED in
            let s := right_rotate s w in
            (s, right s.[parent s.[x]])
          else (s, w) in
        let s := set_color s w (color s.[parent s.[x]]) in
        let s := set_color s (parent s.[x]) BLACK in
        let s := set_color s (right s.[w]) BLACK in
        let s := left_rotate s (parent s.[x]) in
        let x := root s in
        inl (s, x)
    else
      let w := left s.[parent s.[x]] in
      let '(s, w) :=
        if decide (color s.[w] = RED) then
          let s := set_color s w BLACK in
          let s := set_color s (parent s.[x]) RED in
          let s := right_rotate s (parent s.[x]) in
          (s, left s.[parent s.[x]])
        else (s, w) in
      if decide (color s.[right s.[w]] = BLACK ∧ color s.[left s.[w]] = BLACK) then
        let s := set_color s w RED in
        let x := parent s.[x] in
        inl (s, x)
      else
        let '(s, w) :=
          if decide (color s.[left s.[w]] = BLACK) then
            let s := set_color s (right s.[w]) BLACK in
            let s := set_color s w RED in
            let s := left_rotate s w in
            (s, left s.[parent s.[x]])
          else (s, w) in
        let s := set_color s w (color s.[parent s.[x]]) in
        let s := set_color s (parent s.[x]) BLACK in
        let s := set_color s (left s.[w]) BLACK in
        let s := right_rotate s (parent s.[x]) in
        let x := root s in
        inl (s, x)
  else inr (s, x).

Definition delete_fixup (fuel : nat) s (x : addr) : option (RBTree K V) :=
  '(s, x) ← loop fuel delete_fixup_body (s, x);
  Some (set_color s x BLACK).

(** *** erase *)
Definition erase_body s k (z : addr) : addr + addr :=
  if decide (z ≠ NIL s ∧ k ≠ key s.[z]) then
    inl (if comp k (key s.[z]) then left s.[z] else right s.[z])
  else inr z.

Definition erase (fuel : nat) s k : option (RBTree K V * bool) :=
  z ← loop fuel (erase_body s k) (root s);
  if decide (z = NIL s) then Some (s, false)
  else
    let y := z in
    let y_original := color s.[y] in
    '(s, x, y_original) ←
      (if decide (left s.[z] = NIL s) then
         let x := right s.[z] in
         let s := transplant s z (right s.[z]) in
         Some (s, x, y_original)
       else if decide (right s.[z] = NIL s) then
         let x := left s.[z] in
         let s := transplant s z (left s.[z]) in
         Some (s, x, y_original)
       else
         y ← minimum fuel s (right s.[z]);
         let y_original := color s.[y] in
         let x := right s.[y] in
         let s :=
           if decide (parent s.[y] = z) then set_parent s x y
           else
             let s := transplant s y (right s.[y]) in
             let s := set_right s y (right s.[z]) in
             set_parent s (right s.[y]) y in
         let s := transplant s z y in
         let s := set_left s y (left s.[z]) in
         let s := set_parent s (left s.[y]) y in
         let s := set_color s y (color s.[z]) in
         Some (s, x, y_original));
    let s := delete_node s z in
    if decide (y_original = BLACK) then
      s ← delete_fixup fuel s x;
      Some (s, true)
    else Some (s, true).

(** *** validate *)
Fixpoint validate_rec (fuel : nat) s (n : addr) (blacks : Z) (target : Z) : option (bool * Z) :=
  match fuel with
  | 0 => None
  | S fuel =>
    if decide (n = NIL s) then
      let target := if decide (target = (-1)%Z) then blacks else target in
      Some (bool_decide (blacks = target), target)
    else
      let blacks := if decide (color s.[n] = BLACK) then (blacks + 1)%Z else blacks in
      if decide (color s.[n] = RED ∧
                 (color s.[left s.[n]] = RED ∨ color s.[right s.[n]] = RED)) then
        Some (false, target)
      else if bool_decide (left s.[n] ≠ NIL s) && comp (key s.[n]) (key s.[left s.[n]]) then
        Some (false, target)
      else if bool_decide (right s.[n] ≠ NIL s) && comp (key s.[right s.[n]]) (key s.[n]) then
        Some (false, target)
      else
        match validate_rec fuel s (left s.[n]) blacks target with
        | Some (true, target) => validate_rec fuel s (right s.[n]) blacks target
        | r => r
        end
  end.

Definition validate (fuel : nat) s : option bool :=
  let bh := (-1)%Z in
  fst <$> validate_rec fuel s (root s) 0%Z bh.
End WithKV.
End LockBased.

(** ** [main] of [lock_based_rb_tree.cpp], phase 1

    The keys are inserted in the order of the shuffled vector [keys], each
    with itself as value; every key is looked up and the tree is
    validated.  The result tells whether every [assert] held. *)
Fixpoint insert_all (fuel : nat) (keys : list Z) (tree : RBTree Z Z) : option (RBTree Z Z) :=
  match keys with
  | [] => Some tree
  | k :: keys =>
    tree ← LockBased.insert fuel tree k k;
    insert_all fuel keys tree
  end.

Fixpoint verify_all (fuel : nat) (keys : list Z) (tree : RBTree Z Z) : option bool :=
  match keys with
  | [] => Some true
  | k :: keys =>
    v ← LockBased.lookup_simple fuel tree k;
    if bool_decide (v = Some k) then verify_all fuel keys tree else Some false
  end.

Definition main_phase1 (fuel : nat) (keys : list Z) : option bool :=
  let tree := @RBTree_new Z Z _ _ in
  tree ← insert_all fuel keys tree;
  ok ← verify_all fuel keys tree;
  if (ok : bool) then LockBased.validate fuel tree else Some false.

(** ** [rbtree_stress_test.cpp]: the reference map and the set-up *)
Module ReferenceMap.
(** [std::unordered_map<int, int> map] *)
Definition insert (map : gmap Z Z) (k v : Z) : gmap Z Z := <[k := v]> map.

Definition erase (map : gmap Z Z) (k : Z) : gmap Z Z * bool :=
  (delete k map, bool_decide (is_Some (map !! k))).

Definition lookup (map : gmap Z Z) (k : Z) : option Z := map !! k.

(** The loop of [compare_with_tree] over the entries in the order
    [entries]; a mismatch returns [false] at once. *)
Fixpoint compare_loop (fuel : nat) (tree : RBTree Z Z) (entries : list (Z * Z)) : option bool :=
  match entries with
  | [] => Some true
  | (k, v) :: entries =>
    tree_val ← fst <$> LockCoupled.lookup fuel tree k;
    if bool_decide (tree_val ≠ Some v) then Some false
    else compare_loop fuel tree entries
  end.

Definition compare_with_tree (fuel : nat) (map : gmap Z Z) (tree : RBTree Z Z) : option bool :=
  compare_loop fuel tree (map_to_list map).
End ReferenceMap.

(** [initialize_tree]: [draws] are the pairs that the two distributions
    give, [config.initial_elements] of them. *)
Fixpoint initialize_tree (fuel : nat) (draws : list (Z * Z))
    (tree : RBTree Z Z) (reference : gmap Z Z) : option (RBTree Z Z * gmap Z Z) :=
  match draws with
  | [] => Some (tree, reference)
  | (k, v) :: draws =>
    tree ← fst <$> LockCoupled.insert fuel tree k v;
    let reference := ReferenceMap.insert reference k v in
    initialize_tree fuel draws tree reference
  end.

(** ** Statements about [lock_based_rb_tree.cpp] *)
Section LockBasedStatements.
Context {K V : Type} `{EqDecision K, Compare K, ValueInit K, ValueInit V}.

(** What the loop of the ordered [lookup] keeps: [curr] is a node of the
    tree, on the search path of [k]. *)
Definition ordered_lookup_inv (nil : addr) (t0 : tree K V) (k : K) (n : nat)
    (st : addr * shared_lock * list LockEvent) : Prop :=
  ∃ C t, t0 = plug C t ∧ t ≠ Leaf ∧ st.1.1 = ptr nil t ∧ spath k C ∧ height t = n.

(** Its lock object owns the lock of [curr], the only lock held. *)
Definition ordered_lookup_locks (st : addr * shared_lock * list LockEvent) : Prop :=
  st.1.2 = mk_shared_lock st.1.1 true ∧ held st.2 = [st.1.1] ∧ peak [] st.2 ≤ 3.

Definition ordered_lookup_locks_post (res : option V * list LockEvent) : Prop :=
  held res.2 = [] ∧ peak [] res.2 ≤ 3.

(** The descents of the fourth [insert] and of the first end alike. *)
Definition same_descent_cpp (d1 : LockCoupled.Descent) (d2 : LockBased.Descent) : Prop :=
  match d1, d2 with
  | LockCoupled.Duplicate x _ _, LockBased.Duplicate x' => x = x'
  | LockCoupled.FellOff y x _ _, LockBased.FellOff y' x' => y = y' ∧ x = x'
  | _, _ => False
  end.
End LockBasedStatements.

(** ** Nodes and their bindings *)

(** Every node of [s'] is a node of [s], at the same address and with the
    same key and value. *)
Definition same_payload {K V : Type} (s s' : RBTree K V) : Prop :=
  ∀ a n', heap s' !! a = Some n' →
    ∃ n, heap s !! a = Some n ∧ key n' = key n ∧ val n' = val n.

(** ** [include/print.hpp]: [util::detail::format]

    A [std::string] is the list of its characters and a [size_t] an
    integer below [2 ^ 64], [npos] being the largest.  [arg_list] holds the
    arguments after [to_string]. *)
Module Print.
Definition npos : Z := (2 ^ 64 - 1)%Z.

Definition size (str : list ascii) : Z := Z.of_nat (length str).

(** [str.find(c, pos)] *)
Definition find (str : list ascii) (c : ascii) (pos : Z) : Z :=
  if decide (pos < size str)%Z then
    match list_find (λ x, x = c) (drop (Z.to_nat pos) str) with
    | Some (i, _) => (pos + Z.of_nat i)%Z
    | None => npos
    end
  else npos.

(** [str.substr(pos)] and [str.substr(pos, count)], for [pos <= size()] *)
Definition substr_from (str : list ascii) (pos : Z) : list ascii :=
  drop (Z.to_nat pos) str.
Definition substr (str : list ascii) (pos count : Z) : list ascii :=
  take (Z.to_nat count) (drop (Z.to_nat pos) str).

(** The body of [while (start_pos < template_str.size())] *)
Definition format_body (template_str : list ascii) (arg_list : list (list ascii))
    (st : Z * Z * list ascii) : (Z * Z * list ascii) + list ascii :=
  let '(start_pos, arg_index, stream) := st in
  if decide (start_pos < size template_str)%Z then
    let open_brace := find template_str "{"%char start_pos in
    let close_brace := find template_str "}"%char open_brace in
    if decide (open_brace = npos ∨ close_brace = npos) then
      let stream := stream ++ substr_from template_str start_pos in
      inr stream
    else
      let stream := stream ++ substr template_str start_pos (open_brace - start_pos) in
      let '(stream, arg_index) :=
        if decide (arg_index < Z.of_nat (length arg_list))%Z then
          (stream ++ default [] (arg_list !! Z.to_nat arg_index), (arg_index + 1)%Z)
        else (stream, arg_index) in
      let start_pos := (close_brace + 1)%Z in
      inl (start_pos, arg_index, stream)
  else inr stream.

Definition format (fuel : nat) (template_str : list ascii) (arg_list : list (list ascii))
    : option (list ascii) :=
  let stream := [] in
  let start_pos := 0%Z in
  let arg_index := 0%Z in
  loop fuel (format_body template_str arg_list) (start_pos, arg_index, stream).
End Print.

(** A template as the text before each placeholder with what is between
    its braces, and the text after the last placeholder. *)
Fixpoint template_of (pieces : list (list ascii * list ascii)) (last : list ascii) : list ascii :=
  match pieces with
  | [] => last
  | (text, inside) :: pieces =>
    text ++ "{"%char :: inside ++ "}"%char :: template_of pieces last
  end.

(** The same with the arguments in place of the placeholders, one after
    the other, and nothing once they have run out. *)
Fixpoint filled (pieces : list (list ascii * list ascii)) (args : list (list ascii))
    (last : list ascii) : list ascii :=
  match pieces with
  | [] => last
  | (text, _) :: pieces =>
    text ++ default [] (head args) ++ filled pieces (tail args) last
  end.

(** * Proofs *)

(** ** Address lists without repetition *)
Lemma disj_nil_l k : disj [] k ↔ True.
Proof. unfold disj; split; [done|]. intros _ x Hx. by apply elem_of_nil in Hx. Qed.
Lemma disj_nil_r l : disj l [] ↔ True.
Proof. unfold disj; split; [done|]. intros _ x _. apply not_elem_of_nil. Qed.
Lemma disj_cons_l a l k : disj (a :: l) k ↔ (a ∉ k) ∧ disj l k.
Proof.
  unfold disj; split.
  - intros Hd; split; [apply Hd; left|]. intros x Hx; apply Hd; by right.
  - intros [Ha Hd] x [->|Hx]%elem_of_cons; auto.
Qed.
Lemma disj_app_l l1 l2 k : disj (l1 ++ l2) k ↔ disj l1 k ∧ disj l2 k.
Proof.
  unfold disj; split.
  - intros Hd; split; intros x Hx; apply Hd, elem_of_app; auto.
  - intros [H1 H2] x [Hx|Hx]%elem_of_app; auto.
Qed.
Lemma disj_sym l k : disj l k → disj k l.
Proof. unfold disj; intros Hd x Hx Hx'. by apply (Hd x). Qed.
Lemma disj_cons_r a l k : disj l (a :: k) ↔ (a ∉ l) ∧ disj l k.
Proof.
  split.
  - intros Hd%disj_sym. apply disj_cons_l in Hd as [? ?%disj_sym]. done.
  - intros [Ha Hd%disj_sym]. apply disj_sym, disj_cons_l. done.
Qed.
Lemma disj_app_r l k1 k2 : disj l (k1 ++ k2) ↔ disj l k1 ∧ disj l k2.
Proof.
  split.
  - intros Hd%disj_sym. apply disj_app_l in Hd as [?%disj_sym ?%disj_sym]. done.
  - intros [H1%disj_sym H2%disj_sym]. apply disj_sym, disj_app_l. done.
Qed.
Lemma NoDup_app_disj (l k : list addr) : NoDup (l ++ k) ↔ NoDup l ∧ disj l k ∧ NoDup k.
Proof. apply NoDup_app. Qed.
Lemma NoDup_nil_True : NoDup (@nil addr) ↔ True.
Proof. split; [done|]. intros _; constructor. Qed.
Lemma not_elem_of_nil_True (a : addr) : a ∉ @nil addr ↔ True.
Proof. split; [done|]. intros _. apply not_elem_of_nil. Qed.

(** Break every fact about repetition-free address lists into atoms:
    [a ≠ b], [a ∉ l], [disj l k], [NoDup l]. *)
Ltac nd_rewrite_in H :=
  repeat first
    [ rewrite NoDup_cons in H | rewrite NoDup_app_disj in H
    | rewrite not_elem_of_cons in H | rewrite not_elem_of_app in H
    | rewrite disj_cons_l in H | rewrite disj_cons_r in H
    | rewrite disj_app_l in H | rewrite disj_app_r in H
    | rewrite disj_nil_l in H | rewrite disj_nil_r in H
    | rewrite NoDup_nil_True in H | rewrite not_elem_of_nil_True in H ].

Ltac nd_rewrite_goal :=
  repeat first
    [ rewrite NoDup_cons | rewrite NoDup_app_disj
    | rewrite not_elem_of_cons | rewrite not_elem_of_app
    | rewrite disj_cons_l | rewrite disj_cons_r
    | rewrite disj_app_l | rewrite disj_app_r
    | rewrite disj_nil_l | rewrite disj_nil_r
    | rewrite NoDup_nil_True | rewrite not_elem_of_nil_True ].

Ltac nd_destruct :=
  repeat match goal with
  | H : _ ∧ _ |- _ => destruct H
  | H : True |- _ => clear H
  end.

Lemma ptr_ne {K V} nil (t : tree K V) a : a ≠ nil → a ∉ addrs t → a ≠ ptr nil t.
Proof. destruct t; simpl; [done|]. intros _ Hn ->. apply Hn. left. Qed.

Ltac nd_atom0 :=
  first [ assumption | apply not_eq_sym; assumption | apply disj_sym; assumption | exact I ].

Ltac nd_atom :=
  first [ nd_atom0
        | apply ptr_ne; nd_atom0
        | apply not_eq_sym, ptr_ne; nd_atom0 ].

Ltac nd_break H :=
  lazymatch type of H with
  | True => clear H
  | NoDup [] => clear H
  | _ ∉ [] => clear H
  | disj [] _ => clear H
  | disj _ [] => clear H
  | NoDup (_ :: _) =>
    let H1 := fresh "Hnd" in
    apply NoDup_cons in H as [H1 H]; nd_break H1; nd_break H
  | NoDup (_ ++ _) =>
    let H1 := fresh "Hnd" in let H2 := fresh "Hnd" in
    apply NoDup_app_disj in H as (H1 & H2 & H); nd_break H1; nd_break H2; nd_break H
  | _ ∉ _ :: _ =>
    let H1 := fresh "Hnd" in
    apply not_elem_of_cons in H as [H1 H]; nd_break H
  | _ ∉ _ ++ _ =>
    let H1 := fresh "Hnd" in
    apply not_elem_of_app in H as [H1 H]; nd_break H1; nd_break H
  | disj (_ :: _) _ =>
    let H1 := fresh "Hnd" in
    apply disj_cons_l in H as [H1 H]; nd_break H1; nd_break H
  | disj (_ ++ _) _ =>
    let H1 := fresh "Hnd" in
    apply disj_app_l in H as [H1 H]; nd_break H1; nd_break H
  | disj _ (_ :: _) =>
    let H1 := fresh "Hnd" in
    apply disj_cons_r in H as [H1 H]; nd_break H1; nd_break H
  | disj _ (_ ++ _) =>
    let H1 := fresh "Hnd" in
    apply disj_app_r in H as [H1 H]; nd_break H1; nd_break H
  | _ => idtac
  end.

Ltac nd_hyp H := simpl in H; nd_break H.
Ltac nd_solve := simpl; nd_rewrite_goal; repeat split; nd_atom.

Section Base.
Context {K V : Type} `{EqDecision K, Compare K, ValueInit K, ValueInit V}.
Implicit Types (s : RBTree K V) (t : tree K V) (F : frame K V)
  (C : list (frame K V)) (h : gmap addr (Node K V)).

(** *** Contexts *)
Lemma plug_app C1 C2 t : plug (C1 ++ C2) t = plug C2 (plug C1 t).
Proof. revert t; induction C1 as [|F C1 IH]; intros t; simpl; auto. Qed.

Lemma addrs_fill F t : addrs (fill F t) ≡ₚ fa F :: addrs (fsib F) ++ addrs t.
Proof. destruct F; simpl; [|done]. constructor. apply Permutation_app_comm. Qed.

Lemma addrs_plug C t : addrs (plug C t) ≡ₚ addrsC C ++ addrs t.
Proof.
  revert t; induction C as [|F C IH]; intros t; simpl; [done|].
  rewrite IH, addrs_fill. solve_Permutation.
Qed.

Lemma ptr_plug nil C t : ptr nil (plug C t) = croot C (ptr nil t).
Proof. revert t; induction C as [|F C IH]; intros t; simpl; [done|]. rewrite IH. by destruct F. Qed.

Lemma elems_plug C t : elems (plug C t) = lpart C ++ elems t ++ rpart C.
Proof.
  revert t; induction C as [|F C IH]; intros t; simpl.
  - by rewrite app_nil_r.
  - rewrite IH. destruct F; simpl; by rewrite <- ?(assoc_L (++)).
Qed.

Lemma unzip_plug path t acc C' t' :
  unzip path t acc = Some (C', t') → plug C' t' = plug acc t.
Proof.
  revert t acc; induction path as [|d path IH]; intros t acc; simpl.
  - by intros [= <- <-].
  - destruct t as [|c l a k v r]; [done|]. destruct d; intros Hu; by rewrite (IH _ _ Hu).
Qed.

Lemma unzip_plug_app path t C C' t' :
  unzip path t [] = Some (C', t') → plug C t = plug (C' ++ C) t'.
Proof. intros Hu. by rewrite plug_app, (unzip_plug _ _ _ _ _ Hu). Qed.

Lemma size_plug C t : size (plug C t) = size t + sum_list (map (λ F, S (size (fsib F))) C).
Proof.
  revert t; induction C as [|F C IH]; intros t; simpl; [lia|].
  rewrite IH. destruct F; simpl; lia.
Qed.

Lemma length_le_size_plug C t : length C ≤ size (plug C t).
Proof.
  rewrite size_plug. induction C as [|F C IH]; simpl; lia.
Qed.

Lemma length_le_height_plug C t : length C + height t ≤ height (plug C t).
Proof.
  revert t; induction C as [|F C IH]; intros t; simpl; [lia|].
  specialize (IH (fill F t)). destruct F; simpl in *; lia.
Qed.

Lemma height_le_size t : height t ≤ size t.
Proof. induction t; simpl; lia. Qed.

(** *** The store and the tree it holds *)
Lemma rep_frame h h' nil p t :
  (∀ a, a ∈ addrs t → h' !! a = h !! a) → rep h nil p t → rep h' nil p t.
Proof.
  revert p; induction t as [|c l IHl a k v r IHr]; intros p Hag; simpl; [done|].
  intros (Ha & Hl & Hr). split_and!.
  - rewrite Hag; [done|]. simpl; left.
  - apply IHl; [|done]. intros b Hb; apply Hag; simpl. right. apply elem_of_app; auto.
  - apply IHr; [|done]. intros b Hb; apply Hag; simpl. right. apply elem_of_app; auto.
Qed.

Lemma repC_frame h h' nil C hole :
  (∀ a, a ∈ addrsC C → h' !! a = h !! a) → repC h nil C hole → repC h' nil C hole.
Proof.
  revert hole; induction C as [|F C IH]; intros hole Hag; simpl; [done|].
  intros (Ha & Hs & HC). split_and!.
  - rewrite Hag; [done|]. left.
  - eapply rep_frame; [|done]. intros b Hb; apply Hag. right. apply elem_of_app; auto.
  - apply IH; [|done]. intros b Hb; apply Hag. right. apply elem_of_app; auto.
Qed.

Lemma rep_fill h nil p F t :
  rep h nil p (fill F t) ↔
  h !! fa F = Some (frame_node nil F (ptr nil t) p) ∧ rep h nil (fa F) (fsib F) ∧ rep h nil (fa F) t.
Proof. destruct F; simpl; tauto. Qed.

Lemma rep_plug h nil C t :
  rep h nil nil (plug C t) ↔ repC h nil C (ptr nil t) ∧ rep h nil (cparent nil C) t.
Proof.
  revert t; induction C as [|F C IH]; intros t; simpl; [tauto|].
  rewrite IH, rep_fill. replace (ptr nil (fill F t)) with (fa F) by (by destruct F). tauto.
Qed.

Lemma Rep_replace nil np np' s s' C t t' :
  Rep nil np s (plug C t) →
  NIL s' = nil →
  heap s' !! nil = Some (sentinel np') →
  root s' = croot C (ptr nil t') →
  (∀ b, b ∈ addrsC C → b ≠ cparent nil C → heap s' !! b = heap s !! b) →
  match C with
  | [] => True
  | F :: C' => heap s' !! fa F = Some (frame_node nil F (ptr nil t') (cparent nil C'))
  end →
  rep (heap s') nil (cparent nil C) t' →
  NoDup (addrs t') → nil ∉ addrs t' → disj (addrs t') (addrsC C) →
  Rep nil np' s' (plug C t').
Proof.
  intros [HN Hsen Hroot Hrep Hnd Hnil] HN' Hsen' Hroot' Hag Htop Hrep' Hnd' Hnil' Hdisj.
  rewrite addrs_plug in Hnd, Hnil.
  apply rep_plug in Hrep as [HC _].
  split; [done|done|by rewrite ptr_plug| | |].
  - apply rep_plug. split; [|done].
    destruct C as [|F C']; [done|]. simpl in *.
    destruct HC as (_ & Hsib & HC'). nd_hyp Hnd.
    split_and!; [done| |].
    + eapply rep_frame; [|done]. intros b Hb. apply Hag.
      * right. apply elem_of_app; auto.
      * intros ->. done.
    + eapply repC_frame; [|done]. intros b Hb. apply Hag.
      * right. apply elem_of_app; auto.
      * intros ->. done.
  - rewrite addrs_plug. apply NoDup_app_disj. nd_hyp Hnd. split_and!; [done| |done].
    by apply disj_sym.
  - rewrite addrs_plug. nd_hyp Hnil. apply not_elem_of_app. done.
Qed.

(** *** Reading *)
Lemma node_lookup s a n : heap s !! a = Some n → s.[a] = n.
Proof. unfold node. by intros ->. Qed.

Lemma Rep_lookup nil np s C c l a k v r :
  Rep nil np s (plug C (T c l a k v r)) →
  heap s !! a = Some (mkNode k v c (cparent nil C) (ptr nil l) (ptr nil r)).
Proof. intros [_ _ _ Hrep _ _]. apply rep_plug in Hrep as [_ Hrep]. apply Hrep. Qed.

Lemma Rep_read nil np s C c l a k v r :
  Rep nil np s (plug C (T c l a k v r)) →
  s.[a] = mkNode k v c (cparent nil C) (ptr nil l) (ptr nil r).
Proof. intros HR. by apply node_lookup, (Rep_lookup _ _ _ _ _ _ _ _ _ _ HR). Qed.

Lemma read_at path nil np s C t C' c l a k v r :
  Rep nil np s (plug C t) →
  unzip path t [] = Some (C', T c l a k v r) →
  s.[a] = mkNode k v c (cparent nil (C' ++ C)) (ptr nil l) (ptr nil r).
Proof. intros HR Hu. rewrite (unzip_plug_app _ _ C _ _ Hu) in HR. by eapply Rep_read. Qed.

Lemma Rep_read_nil nil np s t : Rep nil np s t → s.[nil] = sentinel np.
Proof. intros [_ Hsen _ _ _ _]. by apply node_lookup. Qed.

Lemma Rep_root_plug nil np s C t : Rep nil np s (plug C t) → root s = croot C (ptr nil t).
Proof. intros [_ _ Hroot _ _ _]. by rewrite Hroot, ptr_plug. Qed.
Lemma Rep_nd nil np s C t :
  Rep nil np s (plug C t) → NoDup (addrsC C ++ addrs t) ∧ nil ∉ addrsC C ++ addrs t.
Proof. intros [_ _ _ _ Hnd Hnil]. by rewrite addrs_plug in Hnd, Hnil. Qed.

Lemma Rep_rep_plug nil np s C t :
  Rep nil np s (plug C t) → repC (heap s) nil C (ptr nil t) ∧ rep (heap s) nil (cparent nil C) t.
Proof. intros [_ _ _ Hrep _ _]. by apply rep_plug. Qed.

Lemma Rep_intro nil np s C t :
  NIL s = nil →
  heap s !! nil = Some (sentinel np) →
  root s = croot C (ptr nil t) →
  repC (heap s) nil C (ptr nil t) →
  rep (heap s) nil (cparent nil C) t →
  NoDup (addrsC C ++ addrs t) →
  nil ∉ addrsC C ++ addrs t →
  Rep nil np s (plug C t).
Proof.
  intros HN Hsen Hroot HC Ht Hnd Hnil.
  split; [done|done|by rewrite ptr_plug|by apply rep_plug| |]; by rewrite addrs_plug.
Qed.

(** Everything a proof about pointer code at a focus needs to know. *)
Lemma Rep_elim nil np s C t :
  Rep nil np s (plug C t) →
  NIL s = nil ∧ heap s !! nil = Some (sentinel np) ∧ root s = croot C (ptr nil t) ∧
  repC (heap s) nil C (ptr nil t) ∧ rep (heap s) nil (cparent nil C) t ∧
  NoDup (addrsC C ++ addrs t) ∧ nil ∉ addrsC C ++ addrs t.
Proof.
  intros HR. pose proof (Rep_nd _ _ _ _ _ HR) as [? ?].
  pose proof (Rep_rep_plug _ _ _ _ _ HR) as [? ?].
  destruct HR as [? ? Hroot _ _ _]. rewrite ptr_plug in Hroot. done.
Qed.

End Base.

(** ** Symbolic execution of pointer code on a window of known nodes *)

Lemma lookup_store_eq {K V} (s : RBTree K V) a f n :
  heap s !! a = Some n → heap (store s a f) !! a = Some (f n).
Proof. intros Hn. unfold store; simpl. by rewrite lookup_alter_eq, Hn. Qed.

Lemma lookup_store_ne {K V} (s : RBTree K V) a b f :
  a ≠ b → heap (store s a f) !! b = heap s !! b.
Proof. intros Hn. unfold store; simpl. by rewrite lookup_alter_ne. Qed.

Lemma rep_store {K V} (s : RBTree K V) a f nil p t :
  a ∉ addrs t → rep (heap s) nil p t → rep (heap (store s a f)) nil p t.
Proof.
  intros Ha. apply rep_frame. intros b Hb. apply lookup_store_ne. by intros ->.
Qed.

Lemma repC_store {K V} (s : RBTree K V) a f nil C hole :
  a ∉ addrsC C → repC (heap s) nil C hole → repC (heap (store s a f)) nil C hole.
Proof.
  intros Ha. apply repC_frame. intros b Hb. apply lookup_store_ne. by intros ->.
Qed.

Ltac fields :=
  cbv beta delta [sentinel with_val with_color with_parent with_left with_right] in *;
  cbn beta iota delta [key val color parent left right] in *.

Ltac nd_atom1 :=
  first [ nd_atom | reflexivity | discriminate | (intros ?; discriminate)
        | (intros ?; subst; contradiction)
        | (let H := fresh in intros H; apply H; reflexivity) ].

Ltac nd_atom' :=
  first [ nd_atom1 | (split; nd_atom1)
        | (intros [? ?]; discriminate) | (intros [? ?]; contradiction) ].

Ltac decides :=
  repeat match goal with
  | |- context [decide ?P] =>
    first
      [ assert P as _ by nd_atom';
        let Hd := fresh in destruct (decide P) as [_|Hd]; [|exfalso; apply Hd; nd_atom']
      | assert (¬ P) as _ by nd_atom';
        let Hd := fresh in destruct (decide P) as [Hd|_]; [exfalso; revert Hd; nd_atom'|] ]
  | |- context [bool_decide ?P] =>
    first
      [ rewrite (bool_decide_eq_true_2 P) by nd_atom'
      | rewrite (bool_decide_eq_false_2 P) by nd_atom' ]
  end.

(** Rewrite the reads of state [s] with the known lookups. *)
Ltac reads1 s :=
  match goal with
  | Hl : heap s !! ?a = Some ?n |- context [s.[?a]] => rewrite (node_lookup s a n Hl)
  | HN : NIL s = _ |- context [NIL s] => rewrite HN
  | HR : root s = _ |- context [root s] => rewrite HR
  end.

Ltac reads s := repeat (progress (repeat reads1 s; fields; decides)).

(** Carry the known facts from state [s] to [s1], the result of a store of
    [f] at [a], or of an assignment to [root]. *)
Ltac carry s s1 a f :=
  repeat match goal with
  | Hb : heap s !! ?b = Some ?n |- _ =>
    lazymatch goal with
    | _ : heap s1 !! b = _ |- _ => fail
    | _ => idtac
    end;
    first
      [ assert (heap s1 !! b = Some (f n)) by (exact (lookup_store_eq s b f n Hb))
      | assert (heap s1 !! b = Some n)
          by (etrans; [apply (lookup_store_ne s a b f); nd_atom'|exact Hb]) ]
  | Hb : rep (heap s) ?nil ?p ?t |- _ =>
    lazymatch goal with
    | _ : rep (heap s1) nil p t |- _ => fail
    | _ => idtac
    end;
    assert (rep (heap s1) nil p t) by (apply (rep_store s a f); [nd_atom'|exact Hb])
  | Hb : repC (heap s) ?nil ?C ?p |- _ =>
    lazymatch goal with
    | _ : repC (heap s1) nil C p |- _ => fail
    | _ => idtac
    end;
    assert (repC (heap s1) nil C p) by (apply (repC_store s a f); [nd_atom'|exact Hb])
  end.

Ltac carry_root s s1 :=
  repeat match goal with
  | Hb : heap s !! ?b = Some ?n |- _ =>
    lazymatch goal with
    | _ : heap s1 !! b = _ |- _ => fail
    | _ => idtac
    end;
    assert (heap s1 !! b = Some n) by exact Hb
  | Hb : rep (heap s) ?nil ?p ?t |- _ =>
    lazymatch goal with
    | _ : rep (heap s1) nil p t |- _ => fail
    | _ => idtac
    end;
    assert (rep (heap s1) nil p t) by exact Hb
  | Hb : repC (heap s) ?nil ?C ?p |- _ =>
    lazymatch goal with
    | _ : repC (heap s1) nil C p |- _ => fail
    | _ => idtac
    end;
    assert (repC (heap s1) nil C p) by exact Hb
  end.

Ltac forget s :=
  repeat match goal with
  | H : heap s !! _ = _ |- _ => clear H
  | H : rep (heap s) _ _ _ |- _ => clear H
  | H : repC (heap s) _ _ _ |- _ => clear H
  | H : NIL s = _ |- _ => clear H
  | H : root s = _ |- _ => clear H
  end.

Ltac carry_NIL_root s s1 r :=
  let HN := fresh "HN" in assert (NIL s1 = NIL s) as HN by reflexivity;
  let HR := fresh "HR" in assert (root s1 = r) as HR by reflexivity;
  repeat match goal with
  | HN' : NIL s = _ |- _ => rewrite HN' in HN
  | HR' : root s = _ |- _ => rewrite HR' in HR
  end.

(** [low_bind s s1 e]: [s1 := e] is in the context and [e] is a store on
    [s]; derive the facts of [s1]. *)
Ltac low_bind s s1 e :=
  lazymatch type of s with
  | RBTree ?K ?V =>
    lazymatch e with
    | store s ?a ?f => carry s s1 a f; carry_NIL_root s s1 (root s)
    | set_val s ?a ?v => carry s s1 a (@with_val K V v); carry_NIL_root s s1 (root s)
    | set_color s ?a ?c => carry s s1 a (@with_color K V c); carry_NIL_root s s1 (root s)
    | set_parent s ?a ?p => carry s s1 a (@with_parent K V p); carry_NIL_root s s1 (root s)
    | set_left s ?a ?l => carry s s1 a (@with_left K V l); carry_NIL_root s s1 (root s)
    | set_right s ?a ?r => carry s s1 a (@with_right K V r); carry_NIL_root s s1 (root s)
    | set_root s ?r => carry_root s s1; carry_NIL_root s s1 r
    end
  end.

Ltac find_store s k :=
  lazymatch goal with
  | |- context [store s ?a ?f] => k (store s a f)
  | |- context [set_val s ?a ?v] => k (set_val s a v)
  | |- context [set_color s ?a ?c] => k (set_color s a c)
  | |- context [set_parent s ?a ?p] => k (set_parent s a p)
  | |- context [set_left s ?a ?l] => k (set_left s a l)
  | |- context [set_right s ?a ?r] => k (set_right s a r)
  | |- context [set_root s ?r] => k (set_root s r)
  end.

(** A conditional whose test only reads the current state is stuck: the
    execution must not pick a store from one of its branches. *)
Ltac stuck_cond c :=
  lazymatch c with
  | context [store _ _ _] => fail
  | context [set_val _ _ _] => fail
  | context [set_color _ _ _] => fail
  | context [set_parent _ _ _] => fail
  | context [set_left _ _ _] => fail
  | context [set_right _ _ _] => fail
  | context [transplant _ _ _] => fail
  | context [delete_node _ _] => fail
  | context [set_root _ _] => fail
  | context [left_rotate _ _] => fail
  | context [right_rotate _ _] => fail
  | _ => idtac
  end.

Ltac stuck_if :=
  match goal with
  | |- context [if decide ?P then _ else _] => stuck_cond P
  | |- context [if bool_decide ?P then _ else _] => stuck_cond P
  | |- context [if comp ?a ?b then _ else _] => stuck_cond a; stuck_cond b
  end.

(** Run straight-line pointer code from state [s]: one [let] at a time,
    then the stores of the final expression. *)
Ltac run s :=
  reads s;
  first
    [ stuck_if
    | match goal with
      | |- context G [let x := ?e in @?b x] =>
        lazymatch type of e with
        | RBTree _ _ =>
          tryif is_var e then
            (let g := context G [b e] in change g); cbv beta; run s
          else
            let s1 := fresh "s" in
            pose (s1 := e); low_bind s s1 e;
            (let g := context G [b s1] in change g); cbv beta;
            forget s; clearbody s1; fields; run s1
        | _ =>
          (let g := context G [b e] in change g); cbv beta; run s
        end
      end
    | find_store s ltac:(fun e =>
        let s1 := fresh "s" in
        pose (s1 := e); low_bind s s1 e;
        change e with s1;
        forget s; clearbody s1; fields; run s1)
    | idtac ].

Ltac rep_close :=
  apply Rep_intro; simpl; repeat split; first [assumption | nd_solve].

Section Prim.
Context {K V : Type} `{EqDecision K, Compare K, ValueInit K, ValueInit V}.
Implicit Types (s : RBTree K V) (t : tree K V) (F : frame K V)
  (C : list (frame K V)) (h : gmap addr (Node K V)).

Lemma left_rotate_Rep nil np s C cx α x kx vx cy β y ky vy γ :
  Rep nil np s (plug C (T cx α x kx vx (T cy β y ky vy γ))) →
  Rep nil np (left_rotate s x) (plug C (T cy (T cx α x kx vx β) y ky vy γ)).
Proof.
  intros (HN & Hsen & Hroot & HC & Hrep & Hnd & Hnil)%Rep_elim.
  destruct β as [|cb bl b bk bv br], C as [|[cp pa pk pv pr|cp pl pa pk pv] C'];
    simpl in HC, Hrep, Hroot; nd_hyp Hnd; nd_hyp Hnil; destruct_and?.
  all: cbv beta iota delta [left_rotate]; run s.
  all: rep_close.
Qed.

Lemma right_rotate_Rep nil np s C cx α x kx vx cy β y ky vy γ :
  Rep nil np s (plug C (T cy (T cx α x kx vx β) y ky vy γ)) →
  Rep nil np (right_rotate s y) (plug C (T cx α x kx vx (T cy β y ky vy γ))).
Proof.
  intros (HN & Hsen & Hroot & HC & Hrep & Hnd & Hnil)%Rep_elim.
  destruct β as [|cb bl b bk bv br], C as [|[cp pa pk pv pr|cp pl pa pk pv] C'];
    simpl in HC, Hrep, Hroot; nd_hyp Hnd; nd_hyp Hnil; destruct_and?.
  all: cbv beta iota delta [right_rotate]; run s.
  all: rep_close.
Qed.

Lemma set_color_Rep nil np s C c l a k v r c' :
  Rep nil np s (plug C (T c l a k v r)) →
  Rep nil np (set_color s a c') (plug C (T c' l a k v r)).
Proof.
  intros (HN & Hsen & Hroot & HC & Hrep & Hnd & Hnil)%Rep_elim.
  destruct C as [|[cp pa pk pv pr|cp pl pa pk pv] C'];
    simpl in HC, Hrep, Hroot; nd_hyp Hnd; nd_hyp Hnil; destruct_and?.
  all: run s.
  all: rep_close.
Qed.

Lemma set_val_Rep nil np s C c l a k v r v' :
  Rep nil np s (plug C (T c l a k v r)) →
  Rep nil np (set_val s a v') (plug C (T c l a k v' r)).
Proof.
  intros (HN & Hsen & Hroot & HC & Hrep & Hnd & Hnil)%Rep_elim.
  destruct C as [|[cp pa pk pv pr|cp pl pa pk pv] C'];
    simpl in HC, Hrep, Hroot; nd_hyp Hnd; nd_hyp Hnil; destruct_and?.
  all: run s.
  all: rep_close.
Qed.

(** Writing BLACK into the sentinel changes nothing. *)
Lemma set_color_nil_Rep nil np s t :
  Rep nil np s t → Rep nil np (set_color s nil BLACK) t.
Proof.
  intros [HN Hsen Hroot Hrep Hnd Hnil].
  split; try done.
  - unfold set_color. by rewrite (lookup_store_eq _ _ _ _ Hsen).
  - unfold set_color. by apply rep_store.
Qed.

(** The same at a path into the tree under the hole. *)
Lemma set_color_at path c' nil np s C t C' c l a k v r :
  Rep nil np s (plug C t) →
  unzip path t [] = Some (C', T c l a k v r) →
  Rep nil np (set_color s a c') (plug C (plug C' (T c' l a k v r))).
Proof.
  intros HR Hu. rewrite (unzip_plug_app _ _ C _ _ Hu) in HR.
  rewrite <- plug_app. by apply set_color_Rep with c.
Qed.

Lemma left_rotate_at path nil np s C t C' cx α x kx vx cy β y ky vy γ :
  Rep nil np s (plug C t) →
  unzip path t [] = Some (C', T cx α x kx vx (T cy β y ky vy γ)) →
  Rep nil np (left_rotate s x) (plug C (plug C' (T cy (T cx α x kx vx β) y ky vy γ))).
Proof.
  intros HR Hu. rewrite (unzip_plug_app _ _ C _ _ Hu) in HR.
  rewrite <- plug_app. by apply left_rotate_Rep.
Qed.

Lemma right_rotate_at path nil np s C t C' cx α x kx vx cy β y ky vy γ :
  Rep nil np s (plug C t) →
  unzip path t [] = Some (C', T cy (T cx α x kx vx β) y ky vy γ) →
  Rep nil np (right_rotate s y) (plug C (plug C' (T cx α x kx vx (T cy β y ky vy γ)))).
Proof.
  intros HR Hu. rewrite (unzip_plug_app _ _ C _ _ Hu) in HR.
  rewrite <- plug_app. by apply right_rotate_Rep.
Qed.
End Prim.

(** ** Loops *)
Lemma loop_inv {St R : Type} (body : St → St + R) (I : nat → St → Prop) (Q : R → Prop) :
  (∀ n x, I n x →
     match body x with
     | inl x' => ∃ n', n' < n ∧ I n' x'
     | inr r => Q r
     end) →
  ∀ fuel n x, I n x → n < fuel → ∃ r, loop fuel body x = Some r ∧ Q r.
Proof.
  intros Hstep. induction fuel as [|fuel IH]; intros n x HI Hn; [lia|].
  simpl. specialize (Hstep n x HI). destruct (body x) as [x'|r].
  - destruct Hstep as (n' & Hn' & HI'). apply (IH n'); [done|lia].
  - eauto.
Qed.

(** Try a tactic at every path of length at most three. *)
Ltac try_paths k :=
  first
    [ k (@nil dir) | k [L] | k [R]
    | k [L; L] | k [L; R] | k [R; L] | k [R; R]
    | k [L; L; L] | k [L; L; R] | k [L; R; L] | k [L; R; R]
    | k [R; L; L] | k [R; L; R] | k [R; R; L] | k [R; R; R] ].

(** The lookups and the distinctness facts a representation gives. *)
Ltac rep_lookups HR :=
  let HN := fresh "HN" in
  let Hsen := fresh "Hsen" in
  let Hroot := fresh "Hroot" in
  let HC := fresh "HC" in
  let Hrep := fresh "Hrep" in
  pose proof (Rep_elim _ _ _ _ _ HR) as (HN & Hsen & Hroot & HC & Hrep & _ & _);
  simpl in HC, Hrep, Hroot; destruct_and?.

Ltac rep_nd HR :=
  let Hnd := fresh "Hnd" in
  let Hnil := fresh "Hnil" in
  pose proof (Rep_elim _ _ _ _ _ HR) as (_ & _ & _ & _ & _ & Hnd & Hnil);
  nd_hyp Hnd; nd_hyp Hnil; destruct_and?.

Ltac rep_facts HR := rep_lookups HR; rep_nd HR.

Ltac clear_facts :=
  repeat match goal with
  | H : _ ≠ _ |- _ => clear H
  | H : _ ∉ _ |- _ => clear H
  | H : disj _ _ |- _ => clear H
  | H : NoDup _ |- _ => clear H
  end.

(** One statement of a fix-up body: a colour write or a rotation at a node
    of the tree under the hole. *)
Ltac hbind HR s e HR1 :=
  lazymatch e with
  | set_color s ?a ?c =>
    try_paths ltac:(fun p =>
      pose proof (set_color_at p c _ _ _ _ _ _ _ _ a _ _ _ HR eq_refl) as HR1)
  | left_rotate s ?x =>
    try_paths ltac:(fun p =>
      pose proof (left_rotate_at p _ _ _ _ _ _ _ _ x _ _ _ _ _ _ _ _ HR eq_refl) as HR1)
  | right_rotate s ?y =>
    try_paths ltac:(fun p =>
      pose proof (right_rotate_at p _ _ _ _ _ _ _ _ _ _ _ _ _ y _ _ _ HR eq_refl) as HR1)
  end;
  simpl in HR1.

Ltac find_prim s k :=
  lazymatch goal with
  | |- context [set_color s ?a ?c] => k (set_color s a c)
  | |- context [left_rotate s ?x] => k (left_rotate s x)
  | |- context [right_rotate s ?y] => k (right_rotate s y)
  end.

Ltac hloop HR s :=
  reads s;
  first
    [ stuck_if
    | match goal with
      | |- context G [let x := ?e in @?b x] =>
        lazymatch type of e with
        | RBTree _ _ =>
          tryif is_var e then
            (let g := context G [b e] in change g); cbv beta iota; hloop HR s
          else
            let s1 := fresh "s" in let HR1 := fresh "HR" in
            hbind HR s e HR1;
            pose (s1 := e); change e with s1 in HR1;
            (let g := context G [b s1] in change g); cbv beta iota;
            forget s; clear HR; clearbody s1;
            rep_lookups HR1; hloop HR1 s1
        | _ =>
          (let g := context G [b e] in change g); cbv beta iota; hloop HR s
        end
      end
    | find_prim s ltac:(fun e =>
        let s1 := fresh "s" in let HR1 := fresh "HR" in
        hbind HR s e HR1;
        pose (s1 := e); change e with s1 in HR1;
        change e with s1;
        forget s; clear HR; clearbody s1;
        rep_lookups HR1; hloop HR1 s1)
    | idtac ].

Ltac hrun HR s := rep_lookups HR; hloop HR s.

Section RB.
Context {K V : Type} `{EqDecision K, Compare K, ValueInit K, ValueInit V}.
Implicit Types (s : RBTree K V) (t : tree K V) (F : frame K V)
  (C : list (frame K V)) (h : gmap addr (Node K V)).

Lemma rb_plug C t bh :
  crb bh C → rb bh t → (ccolor C = RED → tcolor t = BLACK) →
  (∃ m, rb m (plug C t)) ∧ (C ≠ [] → tcolor (plug C t) = BLACK).
Proof.
  revert t bh; induction C as [|F C IH]; intros t bh HC Ht Hc; simpl.
  { split; [eauto|done]. }
  simpl in HC. destruct (fc F) eqn:EF.
  - destruct HC as (Hsc & Hs & HC & Hb).
    destruct (IH (fill F t) bh) as [Hm Hcol]; [done| | |].
    + destruct F; simpl in *; subst; split_and!; auto.
    + destruct C as [|F' C]; [done|]. simpl. by rewrite Hb.
    + split; [done|]. intros _. apply Hcol. by destruct C.
  - destruct HC as (Hs & HC).
    destruct (IH (fill F t) (S bh)) as [Hm Hcol]; [done| | |].
    + destruct F; simpl in *; subst; split_and!; auto.
    + intros _. by destruct F; simpl in *; subst.
    + split; [done|]. intros _. destruct C as [|F' C]; [|by apply Hcol].
      simpl. by destruct F; simpl in *; subst.
Qed.

Lemma rb_unplug C t m :
  rb m (plug C t) → tcolor (plug C t) = BLACK →
  ∃ bh, crb bh C ∧ rb bh t ∧ (ccolor C = RED → tcolor t = BLACK).
Proof.
  revert t; induction C as [|F C IH]; intros t Hrb Hcol; simpl in *.
  { exists m. split_and!; [done|done|]. done. }
  destruct (IH _ Hrb Hcol) as (bh & HC & Hf & Hc).
  destruct (fc F) eqn:EF.
  - exists bh. destruct F; simpl in *; subst; simpl in *; destruct_and?.
    + split_and!; try done. destruct C as [|F' C]; simpl in *; [done|].
      destruct (fc F'); [|done]. by specialize (Hc eq_refl).
    + split_and!; try done. destruct C as [|F' C]; simpl in *; [done|].
      destruct (fc F'); [|done]. by specialize (Hc eq_refl).
  - destruct bh as [|bh]; [by destruct F; simpl in *; subst|].
    exists bh. destruct F; simpl in *; subst; simpl in *; destruct_and?; done.
Qed.

Lemma rb_blacken n t : rb n t → ∃ m, rb m (blacken t).
Proof.
  destruct t as [|[] l a k v r]; simpl; [eauto| |].
  - intros (_ & _ & Hl & Hr). exists (S n). done.
  - destruct n; [done|]. intros. exists (S n). done.
Qed.

Lemma blacken_black t : tcolor t = BLACK → blacken t = t.
Proof. destruct t; simpl; [done|]. by intros ->. Qed.

Lemma elems_blacken t : elems (blacken t) = elems t.
Proof. by destruct t. Qed.

Lemma tcolor_blacken t : tcolor (blacken t) = BLACK.
Proof. by destruct t. Qed.

Lemma set_root_black_Rep nil np s t :
  Rep nil np s t → Rep nil np (set_color s (root s) BLACK) (blacken t).
Proof.
  intros HR. pose proof HR as [_ _ Hroot _ _ _]. rewrite Hroot.
  destruct t as [|c l a k v r]; simpl.
  - by apply set_color_nil_Rep.
  - by apply (set_color_Rep nil np s [] c).
Qed.
End RB.

Ltac elems_solve :=
  repeat match goal with HE : elems _ = _ |- _ => rewrite <- HE; clear HE end;
  rewrite ?elems_plug; simpl;
  repeat (progress (rewrite <- ?List.app_assoc; simpl));
  reflexivity.

Ltac rb_solve :=
  simpl in *; destruct_and?; split_and?; first [assumption | reflexivity | lia | eauto].

Section InsertFixup.
Context {K V : Type} `{EqDecision K, Compare K, ValueInit K, ValueInit V}.
Implicit Types (s : RBTree K V) (t : tree K V) (F : frame K V)
  (C : list (frame K V)) (h : gmap addr (Node K V)).

Lemma insert_fixup_body_spec nil np (E : list (K * V)) n (st : RBTree K V * addr) :
  IF_inv nil np E n st →
  match insert_fixup_body st with
  | inl st' => ∃ n', n' < n ∧ IF_inv nil np E n' st'
  | inr s' => IF_post nil np E s'
  end.
Proof.
  destruct st as [s z]. intros (C & l & k & v & r & bh & HR & Hrb & HC & HE & Hn).
  simpl in HR, Hrb, HE. cbv beta iota delta [insert_fixup_body].
  destruct C as [|F1 C].
  { (* z is the root *)
    rep_facts HR. reads s.
    exists (T RED l z k v r). split_and!; [done| |done].
    exists (S bh). simpl. tauto. }
  destruct (fc F1) eqn:EF1; cycle 1.
  { (* the parent is black *)
    assert ((∃ m, rb m (plug (F1 :: C) (T RED l z k v r))) ∧
            tcolor (plug (F1 :: C) (T RED l z k v r)) = BLACK) as [[m Hm] Hcol].
    { destruct (rb_plug (F1 :: C) (T RED l z k v r) bh) as [? Hc]; try done.
      - simpl. by rewrite EF1.
      - split; [done|]. by apply Hc. }
    destruct F1 as [c pa pk pv pr|c pl pa pk pv]; simpl in EF1; subst c.
    all: simpl in HR; rep_facts HR; reads s.
    all: eexists; split_and!; [exact HR| |exact HE].
    all: rewrite blacken_black by done; eauto. }
  (* the parent is red: there is a black grandparent *)
  simpl in HC. rewrite EF1 in HC. destruct HC as (Hsc & Hsrb & HC & Hg).
  destruct C as [|F2 C]; [done|]. simpl in HC. rewrite Hg in HC.
  destruct HC as (Hu & HC).
  destruct F1 as [c pa pk pv pr|c pl pa pk pv]; simpl in EF1; subst c;
  destruct F2 as [c ga gk gv u|c u ga gk gv]; simpl in Hg; subst c;
  simpl in Hsc, Hsrb, Hu, HR, HE, Hn.
  all: destruct u as [|[] ul ua uk uv ur]; rep_nd HR; hrun HR s.
  all: lazymatch goal with
       | HRk : Rep _ _ ?sk (plug ?C (T RED _ _ _ _ _)) |- _ =>
         (* red uncle: continue from the grandparent *)
         exists (length C); split; [simpl in *; lia|];
         eexists C, _, _, _, _, (S bh); split_and!; [exact HRk|..]
       | HRk : Rep _ _ ?sk (plug ?C (T BLACK (T RED _ ?a _ _ _) _ _ _ (T RED _ _ _ _ _)))
         |- context [(?sk, ?a)] =>
         exists (S (length C)); split; [simpl in *; lia|];
         eexists (FL BLACK _ _ _ _ :: C), _, _, _, _, bh; split_and!; [exact HRk|..]
       | HRk : Rep _ _ ?sk (plug ?C (T BLACK (T RED _ _ _ _ _) _ _ _ (T RED _ ?a _ _ _))) |- context [(?sk, ?a)]   =>
         exists (S (length C)); split; [simpl in *; lia|];
         eexists (FR BLACK _ _ _ _ :: C), _, _, _, _, bh; split_and!; [exact HRk|..]
       end.
  all: first [ reflexivity | elems_solve | rb_solve ].
Qed.

Lemma insert_fixup_spec nil np (E : list (K * V)) n s z fuel :
  IF_inv nil np E n (s, z) → n < fuel →
  ∃ s' t', insert_fixup fuel s z = Some s' ∧ Rep nil np s' t' ∧
           tcolor t' = BLACK ∧ (∃ m, rb m t') ∧ elems t' = E.
Proof.
  intros HI Hn.
  destruct (loop_inv _ _ _ (insert_fixup_body_spec nil np E) fuel n (s, z) HI Hn)
    as (s1 & Hloop & t1 & HR1 & Hrb & HE).
  unfold insert_fixup. rewrite Hloop. simpl.
  eexists _, (blacken t1). split_and!; [done| | |done|].
  - by apply set_root_black_Rep.
  - apply tcolor_blacken.
  - by rewrite elems_blacken.
Qed.
End InsertFixup.

(** ** Lock traces *)

Lemma loop_partial {St R : Type} (body : St → St + R) (I : St → Prop) (Q : R → Prop) :
  (∀ x, I x → match body x with inl x' => I x' | inr r => Q r end) →
  ∀ fuel x r, I x → loop fuel body x = Some r → Q r.
Proof.
  intros Hstep. induction fuel as [|fuel IH]; intros x r HI; [done|]. simpl.
  specialize (Hstep x HI). destruct (body x) as [x'|r'].
  - by apply IH.
  - by intros [= <-].
Qed.

Lemma peak_app h tr1 tr2 :
  peak h (tr1 ++ tr2) = peak h tr1 `max` peak (foldl held_step h tr1) tr2.
Proof.
  revert h; induction tr1 as [|e tr1 IH]; intros h; simpl.
  - destruct tr2; simpl; lia.
  - rewrite IH. lia.
Qed.

Lemma peak_prefix h p tr : p `prefix_of` tr → length (foldl held_step h p) ≤ peak h tr.
Proof.
  intros [q ->]. rewrite peak_app. revert h; induction p as [|e p IH]; intros h; simpl.
  - destruct q; simpl; lia.
  - specialize (IH (held_step h e)). lia.
Qed.

Lemma coupled_snoc r path c tail :
  coupled r (path ++ [c]) tail =
  coupled r path (λ m, LockShared c :: UnlockShared m :: tail c).
Proof. revert r; induction path as [|d path IH]; intros r; simpl; [done|]. by rewrite IH. Qed.

Lemma coupled_so_far_start r : coupled_so_far r r [LockShared r].
Proof. by exists []. Qed.

Lemma coupled_so_far_step r n c tr :
  coupled_so_far r n tr → coupled_so_far r c (tr ++ [LockShared c; UnlockShared n]).
Proof.
  intros [path Hp]. exists (path ++ [c]). intros tail. rewrite <- (assoc_L (++)). simpl.
  rewrite (Hp (λ m, LockShared c :: UnlockShared m :: tail c)). by rewrite coupled_snoc.
Qed.

Lemma held_app tr1 tr2 : held (tr1 ++ tr2) = foldl held_step (held tr1) tr2.
Proof. unfold held. by rewrite foldl_app. Qed.

Section Traces.
Context {K V : Type} `{EqDecision K, Compare K, ValueInit K, ValueInit V}.
Implicit Types (s : RBTree K V) (k : K) (v : V).

(** One step of lock coupling from the node [n] to [child]. *)
Lemma couple_step tr n child :
  held tr = [n] → peak [] tr ≤ 2 →
  held (tr ++ [LockShared child; UnlockShared n]) = [child] ∧
  peak [] (tr ++ [LockShared child; UnlockShared n]) ≤ 2.
Proof.
  intros Hh Hp. rewrite held_app, peak_app. fold (held tr). rewrite Hh. simpl.
  destruct (decide (child = n)) as [->|]; simpl.
  - split; [done|lia].
  - rewrite decide_True by done. simpl. split; [done|lia].
Qed.

Lemma lookup_body_locks r s k st :
  lookup_locks r st →
  match lookup_body s k st with
  | inl st' => lookup_locks r st'
  | inr res => lookup_locks_post r res
  end.
Proof.
  destruct st as [[n lk] tr]. intros (Hlk & Hh & Hp & Hc). simpl in *. subst lk.
  unfold lookup_body.
  assert (lookup_locks_post r (@None V, tr ++ [UnlockShared n]) ∧
          ∀ o : V, lookup_locks_post r (Some o, tr ++ [UnlockShared n])) as [Hend Hend'].
  { unfold lookup_locks_post. simpl. rewrite held_app, peak_app. rewrite Hh.
    fold (held tr). rewrite Hh. simpl. rewrite decide_True by done. simpl.
    destruct Hc as [path Hpath]. specialize (Hpath lookup_tail).
    split; [|intros _]; (split_and!; [done|lia|by exists path]). }
  destruct (decide (n ≠ NIL s)); [|done].
  destruct (comp k (key s.[n])); [|destruct (comp (key s.[n]) k)]; simpl; try done.
  - split; [done|]. rewrite ?app_nil_r.
    destruct (couple_step tr n (left s.[n]) Hh Hp). split_and!; try done.
    by apply coupled_so_far_step.
  - split; [done|]. rewrite ?app_nil_r.
    destruct (couple_step tr n (right s.[n]) Hh Hp). split_and!; try done.
    by apply coupled_so_far_step.
Qed.

Lemma lookup_locks_spec fuel s k r tr :
  lookup fuel s k = Some (r, tr) →
  held tr = [] ∧ peak [] tr ≤ 2 ∧
  ∃ path, tr = LockShared (root s) :: coupled (root s) path lookup_tail.
Proof.
  unfold lookup. simpl. intros Hl.
  apply (loop_partial _ (lookup_locks (root s)) (lookup_locks_post (root s))
           (lookup_body_locks (root s) s k) _ _ _) in Hl; [done|].
  split_and!; simpl; [done|done|lia|apply coupled_so_far_start].
Qed.

Lemma insert_body_locks r s k st :
  insert_locks r st →
  match insert_body s k st with
  | inl st' => insert_locks r st'
  | inr d => descent_locks r s d
  end.
Proof.
  destruct st as [[[y x] lk] tr]. intros (Hlk & Hh & Hp & Hu & Hc). simpl in *. subst lk.
  unfold insert_body.
  destruct (decide (x ≠ NIL s)) as [Hx|Hx].
  2: { simpl. split; [done|]. by destruct (decide (x = NIL s)). }
  destruct (comp k (key s.[x])); [|destruct (comp (key s.[x]) k)]; simpl; try done.
  - split; [done|]. rewrite ?app_nil_r.
    destruct (couple_step tr x (left s.[x]) Hh Hp) as [? ?]. split_and!; try done.
    + apply Forall_app. split; [done|]. repeat constructor; by intros ?.
    + by apply coupled_so_far_step.
  - split; [done|]. rewrite ?app_nil_r.
    destruct (couple_step tr x (right s.[x]) Hh Hp) as [? ?]. split_and!; try done.
    + apply Forall_app. split; [done|]. repeat constructor; by intros ?.
    + by apply coupled_so_far_step.
Qed.

(** The events from [upgrade()] to the end of [insert], on the lock of
    [x]. *)
Lemma upgrade_release_locks r tr x :
  held tr = [x] → peak [] tr ≤ 2 → Forall (λ e, ¬ is_LockUnique e) tr →
  coupled_so_far r x tr →
  let lk := mkUpgradeLock (mk_shared_lock x true) (mk_unique_lock x false) in
  let tr' := tr ++ (upgrade lk).2 ++ UpgradeLock_release (upgrade lk).1 in
  held tr' = [] ∧ peak [] tr' ≤ 2 ∧ (∀ m, LockUnique m ∈ tr' ↔ m = x) ∧
  ∃ path, tr' = LockShared r :: coupled r path insert_tail.
Proof.
  intros Hh Hp Hu [path Hpath]. simpl. rewrite held_app, peak_app. fold (held tr).
  rewrite Hh. simpl.
  rewrite !decide_True by done. simpl. split_and!; [done|lia| |by exists path; apply (Hpath insert_tail)].
  intros m. rewrite elem_of_app. split.
  - intros [Hin|Hin].
    + rewrite Forall_forall in Hu. by destruct (Hu _ Hin).
    + apply elem_of_cons in Hin as [?|Hin]; [done|].
      apply elem_of_cons in Hin as [[= ->]|Hin]; [done|].
      apply elem_of_cons in Hin as [?|Hin]; [done|]. by apply elem_of_nil in Hin.
  - intros ->. right. right. left.
Qed.
End Traces.

Section Insert.
Context {K V : Type} `{EqDecision K, Compare K, ValueInit K, ValueInit V}.
Context `{!StrictTotalOrder K}.
Implicit Types (s : RBTree K V) (t : tree K V) (F : frame K V)
  (C : list (frame K V)) (h : gmap addr (Node K V)) (k : K) (v : V).

Lemma comp_asym (a b : K) : comp a b = true → comp b a = false.
Proof.
  intros Hab. destruct (comp b a) eqn:Hba; [|done].
  pose proof (comp_trans _ _ _ Hab Hba) as Haa. by rewrite comp_irrefl in Haa.
Qed.

Lemma comp_ne (a b : K) : comp a b = true → a ≠ b.
Proof. intros Hab ->. by rewrite comp_irrefl in Hab. Qed.

(** *** Sorted element lists *)
Lemma assoc_app k (E1 E2 : list (K * V)) :
  assoc k (E1 ++ E2) = match assoc k E1 with Some v => Some v | None => assoc k E2 end.
Proof.
  induction E1 as [|[k' v'] E1 IH]; simpl; [done|]. by destruct (decide (k = k')).
Qed.

Lemma assoc_None k (E : list (K * V)) : (∀ e, e ∈ E → e.1 ≠ k) → assoc k E = None.
Proof.
  induction E as [|[k' v'] E IH]; simpl; [done|]. intros HE.
  destruct (decide (k = k')) as [->|].
  - by destruct (HE (k', v')); [left|].
  - apply IH. intros e He. apply HE. by right.
Qed.

Lemma assoc_lt k (E : list (K * V)) : (∀ e, e ∈ E → comp e.1 k = true) → assoc k E = None.
Proof. intros HE. apply assoc_None. intros e He. by apply comp_ne, HE. Qed.

Lemma assoc_gt k (E : list (K * V)) : (∀ e, e ∈ E → comp k e.1 = true) → assoc k E = None.
Proof. intros HE. apply assoc_None. intros e He. by apply not_eq_sym, comp_ne, HE. Qed.

#[local] Instance klt_trans : Transitive (@klt K V _).
Proof. intros [] [] []; unfold klt; simpl. apply comp_trans. Qed.

Lemma sorted_app (E1 E2 : list (K * V)) :
  StronglySorted klt (E1 ++ E2) ↔
  StronglySorted klt E1 ∧ StronglySorted klt E2 ∧ (∀ e1 e2, e1 ∈ E1 → e2 ∈ E2 → klt e1 e2).
Proof.
  split.
  - intros HS. split_and!.
    + by eapply StronglySorted_app_1_l.
    + by eapply StronglySorted_app_1_r.
    + intros e1 e2 He1 He2. by eapply StronglySorted_app_1_elem_of.
  - intros (HS1 & HS2 & HS12). apply StronglySorted_app_2; done.
Qed.

Lemma sorted_cons (e : K * V) (E : list (K * V)) :
  StronglySorted klt (e :: E) ↔ StronglySorted klt E ∧ (∀ e', e' ∈ E → klt e e').
Proof.
  split.
  - intros HS. inversion HS as [|? ? HE Hall]; subst. split; [done|].
    intros e' He'. by eapply Forall_forall in Hall.
  - intros [HE Hall]. constructor; [done|]. by apply Forall_forall.
Qed.

(** Everything left of the hole of a search path for [k] is below [k],
    everything right of it is above. *)
Lemma spath_bounds k C t :
  sorted (plug C t) → spath k C →
  (∀ e, e ∈ lpart C → comp e.1 k = true) ∧ (∀ e, e ∈ rpart C → comp k e.1 = true).
Proof.
  unfold sorted. revert t; induction C as [|F C IH]; intros t HS HP; simpl.
  { split; intros e He; by apply elem_of_nil in He. }
  apply Forall_cons in HP as [HF HP]. simpl in HS.
  destruct (IH _ HS HP) as [IHl IHr].
  rewrite elems_plug in HS. apply sorted_app in HS as (_ & HS & _).
  apply sorted_app in HS as (HS & _ & _).
  destruct F as [c a k' v' r|c l a k' v']; simpl in *.
  - split; [done|]. intros e [->|He]%elem_of_cons; [done|].
    apply elem_of_app in He as [He|He]; [|by apply IHr].
    apply sorted_app in HS as (_ & HS & _). apply sorted_cons in HS as [_ HS].
    specialize (HS e He). unfold klt in HS. simpl in HS. by eapply comp_trans.
  - split; [|done]. intros e [He|He]%elem_of_app; [by apply IHl|].
    apply elem_of_app in He as [He|He].
    + apply sorted_app in HS as (_ & _ & HS).
      specialize (HS e (k', v') He). unfold klt in HS; simpl in HS.
      eapply comp_trans; [apply HS; left|done].
    + apply list_elem_of_singleton in He as ->. done.
Qed.

(** What a search for [k] finds. *)
Lemma assoc_found k C c l a v r :
  sorted (plug C (T c l a k v r)) → spath k C →
  assoc k (elems (plug C (T c l a k v r))) = Some v.
Proof.
  intros HS HP. destruct (spath_bounds _ _ _ HS HP) as [Hl Hr].
  unfold sorted in HS. rewrite elems_plug in *. simpl in *.
  rewrite assoc_app, (assoc_lt _ _ Hl), assoc_app, assoc_app.
  apply sorted_app in HS as (_ & HS & _). apply sorted_app in HS as (HS & _ & _).
  apply sorted_app in HS as (_ & _ & HS).
  rewrite (assoc_lt k (elems l)).
  - simpl. by case_decide.
  - intros e He. apply (HS e (k, v) He). left.
Qed.

Lemma assoc_leaf k C :
  sorted (plug C Leaf) → spath k C → assoc k (elems (plug C (@Leaf K V))) = None.
Proof.
  intros HS HP. destruct (spath_bounds _ _ _ HS HP) as [Hl Hr].
  rewrite elems_plug. simpl. by rewrite assoc_app, (assoc_lt _ _ Hl), (assoc_gt _ _ Hr).
Qed.

(** *** Nodes outside the tree *)
Lemma rep_allocated h nil p t a : rep h nil p t → a ∈ addrs t → is_Some (h !! a).
Proof.
  revert p; induction t as [|c l IHl b k v r IHr]; intros p; simpl.
  { intros _ Ha. by apply elem_of_nil in Ha. }
  intros (Hb & Hl & Hr) [->|Ha]%elem_of_cons; [by eexists|].
  apply elem_of_app in Ha as [Ha|Ha]; eauto.
Qed.

Lemma Rep_store_out nil np s t z f :
  z ∉ addrs t → z ≠ nil → Rep nil np s t → Rep nil np (store s z f) t.
Proof.
  intros Hz Hzn [HN Hsen Hroot Hrep Hnd Hnil]. split; try done.
  - by rewrite lookup_store_ne.
  - by apply rep_store.
Qed.

Lemma Rep_delete_out nil np s t z :
  z ∉ addrs t → z ≠ nil → Rep nil np s t → Rep nil np (delete_node s z) t.
Proof.
  intros Hz Hzn [HN Hsen Hroot Hrep Hnd Hnil]. split; try done.
  - simpl. by rewrite lookup_delete_ne.
  - simpl. eapply rep_frame; [|done]. intros a Ha. apply lookup_delete_ne. by intros ->.
Qed.

Lemma new_node_Rep nil np s t k v c :
  Rep nil np s t →
  Rep nil np (new_node s k v c).1 t ∧
  heap (new_node s k v c).1 !! (new_node s k v c).2 =
    Some (mkNode k v c nullptr nullptr nullptr) ∧
  ((new_node s k v c).2 ∉ addrs t) ∧ (new_node s k v c).2 ≠ nil.
Proof.
  intros [HN Hsen Hroot Hrep Hnd Hnil]. unfold new_node; simpl.
  set (z := fresh_addr (heap s)).
  assert (z ∉ dom (heap s)) as Hz.
  { pose proof (is_fresh ({[nullptr]} ∪ dom (heap s))) as Hf.
    fold (fresh_addr (heap s)) in Hf. fold z in Hf. set_solver. }
  assert (z ∉ addrs t) as Hzt.
  { intros Hin. apply Hz, elem_of_dom. by eapply rep_allocated. }
  assert (z ≠ nil) as Hzn.
  { intros ->. apply Hz, elem_of_dom. by eexists. }
  split_and!; try done.
  - split; try done; simpl.
    + by rewrite lookup_insert_ne.
    + eapply rep_frame; [|done]. intros a Ha. apply lookup_insert_ne. by intros ->.
  - by rewrite lookup_insert_eq.
Qed.

Lemma insert_body_spec nil np s t0 k n st :
  Rep nil np s t0 → descent_inv nil t0 k n st →
  match insert_body s k st with
  | inl st' => ∃ n', n' < n ∧ descent_inv nil t0 k n' st'
  | inr d => descent_post nil t0 k d
  end.
Proof.
  destruct st as [[[y x] lk] tr]. intros HR (C & t & -> & Hx & Hy & HP & Hn).
  simpl in Hx, Hy. subst x y. unfold insert_body.
  destruct t as [|c l a k' v' r]; simpl ptr.
  - rep_lookups HR. reads s. exists C. done.
  - rep_nd HR. rep_lookups HR. reads s.
    destruct (comp k k') eqn:Hlt; [|destruct (comp k' k) eqn:Hgt].
    + simpl. exists (height l). split; [simpl in Hn; lia|].
      exists (FL c a k' v' r :: C), l. split_and!; try done.
      by apply Forall_cons.
    + simpl. exists (height r). split; [simpl in Hn; lia|].
      exists (FR c l a k' v' :: C), r. split_and!; try done.
      by apply Forall_cons.
    + simpl. rewrite <- (comp_total _ _ Hlt Hgt). by exists C, c, l, v', r.
Qed.

Lemma insert_descent nil np s t0 k fuel lk tr :
  Rep nil np s t0 → height t0 < fuel →
  ∃ d, loop fuel (insert_body s k) (nil, root s, lk, tr) = Some d ∧
       descent_post nil t0 k d.
Proof.
  intros HR Hf.
  apply (loop_inv _ (descent_inv nil t0 k) _ (λ n st, insert_body_spec nil np s t0 k n st HR)
           fuel (height t0)); [|done].
  exists [], t0. split_and!; try done. by destruct HR. constructor.
Qed.

Lemma sorted_replace (E1 E2 : list (K * V)) k v0 v :
  StronglySorted klt (E1 ++ (k, v0) :: E2) → StronglySorted klt (E1 ++ (k, v) :: E2).
Proof.
  rewrite !sorted_app, !sorted_cons. intros (HS1 & (HS2 & Hk) & HS12).
  split_and!; try done.
  intros e1 e2 He1 [->|He2]%elem_of_cons.
  - apply (HS12 e1 (k, v0) He1). left.
  - apply (HS12 e1 e2 He1). by right.
Qed.

Lemma sorted_insert (E1 E2 : list (K * V)) k v :
  StronglySorted klt (E1 ++ E2) →
  (∀ e, e ∈ E1 → comp e.1 k = true) → (∀ e, e ∈ E2 → comp k e.1 = true) →
  StronglySorted klt (E1 ++ (k, v) :: E2).
Proof.
  rewrite !sorted_app, !sorted_cons. intros (HS1 & HS2 & HS12) Hl Hr.
  split_and!; try done.
  intros e1 e2 He1 [->|He2]%elem_of_cons; [by apply Hl|by apply HS12].
Qed.

Lemma sorted_delete (E1 E2 : list (K * V)) e :
  StronglySorted klt (E1 ++ e :: E2) → StronglySorted klt (E1 ++ E2).
Proof.
  rewrite !sorted_app, !sorted_cons. intros (HS1 & (HS2 & Hk) & HS12).
  split_and!; try done. intros e1 e2 He1 He2. apply HS12; [done|by right].
Qed.

Lemma assoc_insert (E1 E2 : list (K * V)) k v k' :
  (∀ e, e ∈ E1 → comp e.1 k = true) →
  assoc k' (E1 ++ (k, v) :: E2) =
  if decide (k' = k) then Some v else assoc k' (E1 ++ E2).
Proof.
  intros Hl. rewrite !assoc_app. simpl. destruct (decide (k' = k)) as [->|]; [|done].
  by rewrite (assoc_lt _ _ Hl).
Qed.

Lemma assoc_replace (E1 E2 : list (K * V)) k v0 v k' :
  (∀ e, e ∈ E1 → comp e.1 k = true) →
  assoc k' (E1 ++ (k, v) :: E2) =
  if decide (k' = k) then Some v else assoc k' (E1 ++ (k, v0) :: E2).
Proof.
  intros Hl. rewrite !assoc_app. simpl. destruct (decide (k' = k)) as [->|]; [|done].
  by rewrite (assoc_lt _ _ Hl).
Qed.

Lemma assoc_delete (E1 E2 : list (K * V)) k v k' :
  StronglySorted klt (E1 ++ (k, v) :: E2) →
  assoc k' (E1 ++ E2) =
  if decide (k' = k) then None else assoc k' (E1 ++ (k, v) :: E2).
Proof.
  rewrite !sorted_app, !sorted_cons. intros (HS1 & (HS2 & Hk) & HS12).
  rewrite !assoc_app. simpl. destruct (decide (k' = k)) as [->|]; [|done].
  rewrite assoc_lt, assoc_gt; [done|..].
  - intros e He. by apply Hk.
  - intros e He. apply (HS12 e (k, v) He). left.
Qed.

(** *** Linking the new node *)
Lemma attach_Rep nil np s C z k v :
  Rep nil np s (plug C Leaf) →
  heap s !! z = Some (mkNode k v RED nil nil nil) →
  z ∉ addrs (plug C (@Leaf K V)) → z ≠ nil → spath k C →
  let s1 := set_parent s z (cparent nil C) in
  let s2 :=
    if decide (cparent nil C = NIL s1) then set_root s1 z
    else if comp (key s1.[z]) (key s1.[cparent nil C]) then set_left s1 (cparent nil C) z
    else set_right s1 (cparent nil C) z in
  Rep nil np s2 (plug C (T RED Leaf z k v Leaf)).
Proof.
  intros HR Hz Hzt Hzn HP. rewrite addrs_plug in Hzt.
  destruct C as [|[cp pa pk pv pr|cp pl pa pk pv] C'];
    rep_facts HR; nd_hyp Hzt; destruct_and?.
  all: apply Forall_cons in HP as [HF HP] || clear HP.
  all: cbv zeta; simpl cparent; run s.
  all: try (simpl in HF; rewrite ?HF, ?(comp_asym _ _ HF);
            lazymatch goal with HN' : NIL ?s0 = _ |- _ => run s0 end).
  all: rep_close.
Qed.

Lemma size_elems t : size t = length (elems t).
Proof. induction t; simpl; [done|]. rewrite length_app. simpl. lia. Qed.

Lemma NIL_store s a f : NIL (store s a f) = NIL s.
Proof. done. Qed.

(** *** [insert] keeps the invariant and updates the binding of [k] *)
Lemma insert_spec nil np s t k v fuel :
  Inv nil np s t → height t < fuel →
  ∃ s' tr t',
    insert fuel s k v = Some (s', tr) ∧ Inv nil np s' t' ∧
    (∀ k', assoc k' (elems t') = if decide (k' = k) then Some v else assoc k' (elems t)) ∧
    size t' ≤ S (size t) ∧
    held tr = [] ∧ peak [] tr ≤ 2 ∧
    (assoc k (elems t) = None → ∀ m, LockUnique m ∈ tr ↔ m = nil) ∧
    (∃ path, tr = LockShared (root s) :: coupled (root s) path insert_tail).
Proof.
  intros [HR Hblack [m Hrb] Hsorted] Hfuel. unfold insert.
  destruct (new_node_Rep nil np s t k v RED HR) as (HR1 & Hz & Hzt & Hzn).
  destruct (new_node s k v RED) as [s1 z]. simpl in HR1, Hz, Hzt, Hzn.
  pose proof HR1 as [HN1 _ _ _ _ _].
  cbv beta iota zeta.
  repeat (change (NIL (set_parent ?a ?b ?c)) with (NIL a) ||
          change (NIL (set_right ?a ?b ?c)) with (NIL a) ||
          change (NIL (set_left ?a ?b ?c)) with (NIL a)).
  rewrite HN1.
  set (s4 := set_left (set_right (set_parent s1 z nil) z nil) z nil).
  assert (Rep nil np s4 t) as HR4 by (by do 3 (apply Rep_store_out; [done|done|])).
  assert (heap s4 !! z = Some (mkNode k v RED nil nil nil)) as Hz4.
  { unfold s4, set_left, set_right, set_parent.
    by rewrite (lookup_store_eq _ _ _ _ (lookup_store_eq _ _ _ _ (lookup_store_eq _ _ _ _ Hz))). }
  assert (NIL s4 = nil) as HN4 by done.
  clearbody s4. clear HR1 Hz HN1 s1.
  destruct (UpgradeLock_ctor (root s4)) as [lk e0] eqn:Hctor.
  destruct (insert_descent nil np s4 t k fuel lk e0 HR4 Hfuel) as (d & Hloop & Hd).
  rewrite Hloop. simpl.
  assert (root s4 = root s) as Hroot4.
  { destruct HR4 as [_ _ -> _ _ _]. by destruct HR as [_ _ -> _ _ _]. }
  assert (descent_locks (root s) s4 d) as Hlocks.
  { apply (loop_partial _ (insert_locks (root s)) (descent_locks (root s) s4)
             (insert_body_locks (root s) s4 k) _ _ _) in Hloop; [done|].
    injection Hctor as <- <-. rewrite Hroot4.
    split_and!; simpl; [done|done|lia| |apply coupled_so_far_start].
    repeat constructor. by intros ?. }
  destruct d as [x lk' tr|y x lk' tr]; simpl in Hd.
  - (* the key is there: overwrite *)
    destruct Hd as (C & c & l & v0 & r & -> & HP).
    destruct Hlocks as (Hlk & Hh & Hp & Hu & Hcp). simpl in Hlk, Hh, Hp, Hu, Hcp. subst lk'.
    destruct (upgrade_release_locks (root s) tr x Hh Hp Hu Hcp) as (Hh' & Hp' & Hu' & Hcp').
    eexists _, _, (plug C (T c l x k v r)).
    split; [done|]. split_and!; [| | |done|done| |done].
    4: { intros Hk. by rewrite assoc_found in Hk. }
    + split.
      * apply Rep_delete_out; [|done|by apply set_val_Rep with v0].
        rewrite addrs_plug in *. done.
      * destruct C as [|F C]; [done|].
        destruct (rb_unplug _ _ _ Hrb Hblack) as (bh & HCrb & Hbh & Hc).
        by apply (rb_plug (F :: C) (T c l x k v r) bh).
      * destruct (rb_unplug _ _ _ Hrb Hblack) as (bh & HCrb & Hbh & Hc).
        by apply (rb_plug C (T c l x k v r) bh).
      * unfold sorted in *. rewrite elems_plug in *. simpl in *.
        rewrite <- (assoc_L (++)) in *. simpl in *.
        rewrite (assoc_L (++)) in *. by eapply sorted_replace.
    + intros k'. destruct (spath_bounds _ _ _ Hsorted HP) as [Hl Hr].
      rewrite !elems_plug. simpl. rewrite <- !(assoc_L (++)). simpl.
      rewrite !(assoc_L (++) (lpart C)). apply assoc_replace.
      intros e [He|He]%elem_of_app; [by apply Hl|].
      unfold sorted in Hsorted. rewrite elems_plug in Hsorted. simpl in Hsorted.
      apply sorted_app in Hsorted as (_ & HS & _). apply sorted_app in HS as (HS & _ & _).
      apply sorted_app in HS as (_ & _ & HS). apply (HS e (k, v0) He). left.
    + rewrite !size_elems, !elems_plug. simpl. rewrite ?length_app. simpl.
      rewrite ?length_app. simpl. lia.
  - (* the key is new: link and rebalance *)
    destruct Hd as (C & -> & HP & -> & ->).
    destruct Hlocks as ((Hlk & Hh & Hp & Hu & Hcp) & _). simpl in Hlk, Hh, Hp, Hu, Hcp. subst lk'.
    destruct (upgrade_release_locks (root s) tr nil Hh Hp Hu Hcp) as (Hh' & Hp' & Hu' & Hcp').
    pose proof (attach_Rep nil np s4 C z k v HR4 Hz4 Hzt Hzn HP) as HR5.
    cbv zeta in HR5.
    change (NIL (set_parent s4 z (cparent nil C))) with (NIL s4) in HR5. rewrite HN4 in HR5.
    destruct (rb_unplug _ _ _ Hrb Hblack) as (bh & HCrb & Hbh & Hc).
    simpl in Hbh. subst bh.
    match type of HR5 with Rep _ _ ?s5 _ =>
      destruct (insert_fixup_spec nil np (elems (plug C (T RED Leaf z k v Leaf)))
                  (length C) s5 z fuel) as (s' & t' & Hfix & HR' & Hb' & Hrb' & HE')
    end.
    { exists C, Leaf, k, v, Leaf, 0. simpl. split_and!; done. }
    { pose proof (length_le_height_plug C (@Leaf K V)). lia. }
    rewrite Hfix. simpl. eexists _, _, t'. split; [done|].
    destruct (spath_bounds _ _ _ Hsorted HP) as [Hl Hr].
    split_and!; [| | |done|done|done|done].
    + split; [done|done|done|]. unfold sorted in *. rewrite HE'.
      rewrite elems_plug in *. simpl in *. by apply sorted_insert.
    + intros k'. rewrite HE', !elems_plug. simpl. by apply assoc_insert.
    + rewrite !size_elems, HE', !elems_plug. simpl. rewrite ?length_app. simpl. lia.
Qed.
End Insert.

(** ** The locks follow the search path *)
Section VisitsTraces.
Context {K V : Type} `{EqDecision K, Compare K, ValueInit K, ValueInit V}.
Implicit Types (s : RBTree K V) (k : K) (v : V).

Lemma visiting_start s k r : visiting s k r r [LockShared r].
Proof. exists []. done. Qed.

Lemma visiting_step s k r n c tr :
  visiting s k r n tr → search_child s k n c →
  visiting s k r c (tr ++ [LockShared c; UnlockShared n]).
Proof.
  intros (path & Hv & Hp) Hc. exists (path ++ [c]). split.
  - intros rest Hrest. rewrite <- (assoc_L (++)). apply Hv. by split.
  - intros tail. rewrite <- (assoc_L (++)). simpl.
    rewrite (Hp (λ m, LockShared c :: UnlockShared m :: tail c)). by rewrite coupled_snoc.
Qed.

Lemma visiting_end s k r n tr tail :
  visiting s k r n tr → search_ends s k n →
  ∃ path, visits s k r path ∧ tr ++ tail n = LockShared r :: coupled r path tail.
Proof.
  intros (path & Hv & Hp) He. exists path. split; [|done].
  specialize (Hv [] He). by rewrite app_nil_r in Hv.
Qed.

Lemma lookup_body_visits s k st :
  lookup_visiting s k st →
  match lookup_body s k st with
  | inl st' => lookup_visiting s k st'
  | inr res => visited s k lookup_tail res.2
  end.
Proof.
  destruct st as [[n lk] tr]. intros (Hlk & Hv). simpl in *. subst lk.
  unfold lookup_body.
  destruct (decide (n ≠ NIL s)) as [Hn|Hn].
  2: { simpl. apply (visiting_end s k _ n tr lookup_tail Hv). left.
       by destruct (decide (n = NIL s)). }
  destruct (comp k (key s.[n])) eqn:Hlt; [|destruct (comp (key s.[n]) k) eqn:Hgt]; simpl.
  - split; [done|]. simpl. rewrite ?app_nil_r. apply visiting_step; [done|].
    split; [done|]. by rewrite Hlt.
  - split; [done|]. simpl. rewrite ?app_nil_r. apply visiting_step; [done|].
    split; [done|]. by rewrite Hlt, Hgt.
  - apply (visiting_end s k _ n tr lookup_tail Hv). by right.
Qed.

Lemma lookup_visits fuel s k r tr :
  lookup fuel s k = Some (r, tr) → visited s k lookup_tail tr.
Proof.
  unfold lookup. simpl. intros Hl.
  apply (loop_partial _ (lookup_visiting s k) (λ res, visited s k lookup_tail res.2)
           (lookup_body_visits s k) _ _ _) in Hl; [done|].
  split; [done|]. apply visiting_start.
Qed.

Lemma insert_body_visits s k st :
  insert_visiting s k st →
  match insert_body s k st with
  | inl st' => insert_visiting s k st'
  | inr d => descent_visited s k d
  end.
Proof.
  destruct st as [[[y x] lk] tr]. intros (Hlk & Hv). simpl in *. subst lk.
  unfold insert_body.
  destruct (decide (x ≠ NIL s)) as [Hx|Hx].
  2: { simpl. split; [done|]. intros tail. apply (visiting_end s k _ x tr tail Hv). left.
       by destruct (decide (x = NIL s)). }
  destruct (comp k (key s.[x])) eqn:Hlt; [|destruct (comp (key s.[x]) k) eqn:Hgt]; simpl.
  - split; [done|]. simpl. rewrite ?app_nil_r. apply visiting_step; [done|].
    split; [done|]. by rewrite Hlt.
  - split; [done|]. simpl. rewrite ?app_nil_r. apply visiting_step; [done|].
    split; [done|]. by rewrite Hlt, Hgt.
  - split; [done|]. intros tail. apply (visiting_end s k _ x tr tail Hv). by right.
Qed.
End VisitsTraces.

Section VisitsInsert.
Context {K V : Type} `{EqDecision K, Compare K, ValueInit K, ValueInit V}.
Context `{!StrictTotalOrder K}.
Implicit Types (s : RBTree K V) (t : tree K V) (F : frame K V)
  (C : list (frame K V)) (k : K) (v : V).

(** Two stores that hold the same tree have the same search paths. *)
Lemma visits_Rep nil np np' s s' C t k path :
  Rep nil np s (plug C t) → Rep nil np' s' (plug C t) →
  visits s' k (ptr nil t) path → visits s k (ptr nil t) path.
Proof.
  revert C t. induction path as [|c path IH]; intros C t HR HR'; simpl.
  - unfold search_ends. destruct t as [|c l a k' v' r]; simpl ptr.
    + intros _. left. by destruct HR.
    + rep_nd HR. rep_lookups HR. rep_lookups HR'. reads s. reads s'.
      intros [?|?]; [done|by right].
  - unfold search_child. destruct t as [|c0 l a k' v' r]; simpl ptr.
    + intros [[Hn _] _]. destruct HR' as [HN' _ _ _ _ _]. by rewrite HN' in Hn.
    + rep_nd HR. rep_lookups HR. rep_lookups HR'. reads s. reads s'.
      destruct (comp k k') eqn:Hlt.
      * intros [[_ ->] Hrest]. split; [done|].
        apply (IH (FL c0 a k' v' r :: C) l); done.
      * intros [[_ [Hgt ->]] Hrest]. split; [done|].
        apply (IH (FR c0 l a k' v' :: C) r); done.
Qed.

Lemma visited_Rep nil np np' s s' t k tail tr :
  Rep nil np s t → Rep nil np' s' t → visited s' k tail tr → visited s k tail tr.
Proof.
  intros HR HR' (path & Hv & ->). exists path.
  pose proof HR as [_ _ Hroot _ _ _]. pose proof HR' as [_ _ Hroot' _ _ _].
  rewrite Hroot, Hroot' in *. split; [|done].
  by apply (visits_Rep nil np np' s s' [] t).
Qed.

(** The trace of [insert] is that of a descent along the search path of
    [k] in the store it was called on. *)
Lemma insert_visits nil np s t k v fuel s' tr :
  Rep nil np s t → insert fuel s k v = Some (s', tr) → visited s k insert_tail tr.
Proof.
  intros HR. unfold insert.
  destruct (new_node_Rep nil np s t k v RED HR) as (HR1 & Hz & Hzt & Hzn).
  destruct (new_node s k v RED) as [s1 z]. simpl in HR1, Hz, Hzt, Hzn.
  pose proof HR1 as [HN1 _ _ _ _ _].
  cbv beta iota zeta.
  repeat (change (NIL (set_parent ?a ?b ?c)) with (NIL a) ||
          change (NIL (set_right ?a ?b ?c)) with (NIL a) ||
          change (NIL (set_left ?a ?b ?c)) with (NIL a)).
  rewrite HN1.
  set (s4 := set_left (set_right (set_parent s1 z nil) z nil) z nil).
  assert (Rep nil np s4 t) as HR4 by (by do 3 (apply Rep_store_out; [done|done|])).
  clearbody s4. clear HR1 Hz HN1 s1.
  destruct (UpgradeLock_ctor (root s4)) as [lk e0] eqn:Hctor.
  destruct (loop fuel (insert_body s4 k) _) as [d|] eqn:Hloop; [|done]. simpl.
  apply (loop_partial _ (insert_visiting s4 k) (descent_visited s4 k)
           (insert_body_visits s4 k) _ _ _) in Hloop.
  2: { injection Hctor as <- <-. split; [done|]. apply visiting_start. }
  destruct d as [x lk' tr0|y x lk' tr0]; destruct Hloop as [-> Hvis];
    specialize (Hvis insert_tail); simpl.
  - intros [= <- <-]. by apply (visited_Rep nil np np s s4 t).
  - destruct (insert_fixup _ _ _); simpl; [|done].
    intros [= <- <-]. by apply (visited_Rep nil np np s s4 t).
Qed.
End VisitsInsert.

(** The shapes of the sibling's children that [delete_fixup] tests: with a
    red sibling the children of the nephew that becomes the new sibling,
    with a black sibling its own children. *)
Ltac df_split HR HC wl wr wa :=
  lazymatch type of HR with
  | Rep _ _ _ (plug _ (T _ _ _ _ _ (T RED _ wa _ _ _))) =>
    destruct wl as [|[] ? ? ? ? ?]; [by simpl in HC; destruct_and?..|];
    lazymatch type of HR with
    | Rep _ _ _ (plug _ (T _ _ _ _ _ (T RED (T BLACK ?a _ _ _ ?b) wa _ _ _))) =>
      destruct a as [|[] ? ? ? ? ?], b as [|[] ? ? ? ? ?]
    end
  | Rep _ _ _ (plug _ (T _ (T RED _ wa _ _ _) _ _ _ _)) =>
    destruct wr as [|[] ? ? ? ? ?]; [by simpl in HC; destruct_and?..|];
    lazymatch type of HR with
    | Rep _ _ _ (plug _ (T _ (T RED _ wa _ _ (T BLACK ?a _ _ _ ?b)) _ _ _ _)) =>
      destruct a as [|[] ? ? ? ? ?], b as [|[] ? ? ? ? ?]
    end
  | _ => destruct wl as [|[] ? ? ? ? ?], wr as [|[] ? ? ? ? ?]
  end.

Section DeleteFixup.
Context {K V : Type} `{EqDecision K, Compare K, ValueInit K, ValueInit V}.
Implicit Types (s : RBTree K V) (t : tree K V) (F : frame K V)
  (C : list (frame K V)) (h : gmap addr (Node K V)).

Lemma croot_in C a : C ≠ [] → croot C a ∈ addrsC C.
Proof.
  revert a; induction C as [|F C IH]; intros a HC; [done|]. simpl.
  destruct C as [|F' C]; [left|]. right. apply elem_of_app. right. by apply IH.
Qed.

Lemma valid_plug C t n :
  crb n C → rb n t → tcolor t = BLACK → valid (plug C t).
Proof.
  intros HC Ht Hc. destruct (rb_plug C t n HC Ht (λ _, Hc)) as [Hm Hcol].
  split; [|done]. destruct C; [done|]. by apply Hcol.
Qed.

Lemma valid_plug_red C t n :
  crb n C → rb n t → ccolor C = BLACK → C ≠ [] → valid (plug C t).
Proof.
  intros HC Ht Hc Hne. destruct (rb_plug C t n HC Ht) as [Hm Hcol].
  { rewrite Hc. done. }
  split; [|done]. by apply Hcol.
Qed.

Lemma delete_fixup_body_spec nil np (E : list (K * V)) n (st : RBTree K V * addr) :
  DF_inv nil np E n st →
  match delete_fixup_body st with
  | inl st' => ∃ n', n' < n ∧ DF_inv nil np E n' st'
  | inr st' => DF_post nil np E st'
  end.
Proof.
  destruct st as [s x].
  intros [(C & t & bh & HR & Hx & Hnp & Hdef & HC & HE & Hn) | (t & HR & Hx & Hv & HE & Hn)];
    simpl in HR, Hx; subst x.
  2: { (* repaired *)
    cbv beta iota delta [delete_fixup_body].
    rewrite decide_False by (by intros [? _]).
    exists t. split_and!; [|done|done]. simpl.
    destruct Hv as [Hb _]. rewrite <- (blacken_black t Hb). by apply set_root_black_Rep. }
  destruct t as [|[] tl x tk tv tr]; simpl in Hdef, Hn; simpl ptr.
  2: { (* x is red *)
    cbv beta iota delta [delete_fixup_body].
    rep_lookups HR. reads s.
    exists (plug C (T BLACK tl x tk tv tr)). split_and!.
    - simpl. by apply set_color_Rep with RED.
    - apply valid_plug with (S bh); try done.
    - rewrite <- HE, !elems_plug. done. }
  all: destruct C as [|F1 C].
  1: { (* the empty tree *)
    cbv beta iota delta [delete_fixup_body]. rep_lookups HR. reads s.
    exists Leaf. split_and!; [|by split; [|exists 0]|done].
    by apply set_color_nil_Rep. }
  2: { (* x is the root *)
    cbv beta iota delta [delete_fixup_body]. rep_lookups HR. reads s.
    exists (T BLACK tl x tk tv tr). split_and!; [|by split; [|exists bh]|done].
    by apply (set_color_Rep nil np s [] BLACK). }
  all: match goal with
       | |- context [delete_fixup_body (_, ?x)] =>
         assert (x ≠ croot C (fa F1)) as Hxr
       end.
  1, 3: destruct (Rep_nd _ _ _ _ _ HR) as [Hnd Hnil];
        apply NoDup_app in Hnd as (_ & Hnd & _);
        intros Heq; pose proof (croot_in (F1 :: C) nil ltac:(done)) as Hin;
        simpl croot in Hin; rewrite <- Heq in Hin.
  1: { apply Hnil, elem_of_app. by left. }
  1: { apply (Hnd _ Hin). left. }
  all: destruct F1 as [cp pa pk pv w|cp w pa pk pv]; simpl in HC, Hxr, HR, Hn, Hnp.
  all: try (specialize (Hnp eq_refl); subst np).
  all: destruct w as [|cw wl wa wk wv wr];
         [exfalso; destruct cp; simpl in HC; destruct_and?; done|].
  all: destruct cw.
  all: try (destruct cp; [simpl in HC; by destruct_and?|]).
  all: df_split HR HC wl wr wa.
  all: rep_nd HR.
  all: cbv beta iota delta [delete_fixup_body].
  all: hrun HR s.
  all: try (destruct cp).
  all: simpl in HC, HE; destruct_and?.
  all: clear_facts.
  all: lazymatch goal with
       | HRk : Rep _ _ ?sk ?T |- context [(?sk, croot _ _)] =>
         exists 0; split; [lia|]; right; exists T; split_and!;
           [exact HRk|by symmetry| |elems_solve|reflexivity]
       | HRk : Rep _ _ ?sk (plug ?C (T BLACK (T RED _ ?a _ _ _) _ _ _ _))
         |- context [(?sk, ?a)] =>
         exists 0; split; [lia|]; left;
         eexists (FL BLACK _ _ _ _ :: C), _, bh; split_and!;
           [exact HRk|reflexivity|discriminate| | |elems_solve|reflexivity]
       | HRk : Rep _ _ ?sk (plug ?C (T BLACK _ _ _ _ (T RED _ ?a _ _ _)))
         |- context [(?sk, ?a)] =>
         exists 0; split; [lia|]; left;
         eexists (FR BLACK _ _ _ _ :: C), _, bh; split_and!;
           [exact HRk|reflexivity|discriminate| | |elems_solve|reflexivity]
       | HRk : Rep _ _ ?sk (plug ?C (T RED _ ?a _ _ _)) |- context [(?sk, ?a)] =>
         exists 0; split; [lia|]; left;
         eexists C, _, bh; split_and!;
           [exact HRk|reflexivity|discriminate| | |elems_solve|reflexivity]
       | HRk : Rep _ _ ?sk (plug ?C (T BLACK _ ?a _ _ _)) |- context [(?sk, ?a)] =>
         exists (S (length C)); split; [lia|]; left;
         eexists C, _, (S bh); split_and!;
           [exact HRk|reflexivity|discriminate| | |elems_solve|reflexivity]
       end.
  all: try (simpl; lia).
  all: try (simpl in *; destruct_and?; subst; simpl in *; split_and?; done).
  all: try (by (apply valid_plug with (S (S bh));
                simpl in *; destruct_and?; subst; simpl in *; split_and?)).
  all: try (by (apply valid_plug with (S bh);
                simpl in *; destruct_and?; subst; simpl in *; split_and?)).
  all: destruct_and?;
       match goal with
       | Hc : match ?C with [] => False | _ => _ end |- _ => destruct C; [done|]
       end;
       eapply valid_plug_red; [eassumption| |done|done];
       simpl in *; destruct_and?; subst; simpl in *; by split_and?.
Qed.

Lemma delete_fixup_spec nil np (E : list (K * V)) n s x fuel :
  DF_inv nil np E n (s, x) → n < fuel →
  ∃ s' t, delete_fixup fuel s x = Some s' ∧ Rep nil np s' t ∧ valid t ∧ elems t = E.
Proof.
  intros HI Hn. unfold delete_fixup.
  destruct (loop_inv delete_fixup_body (DF_inv nil np E) (DF_post nil np E)
              (delete_fixup_body_spec nil np E) fuel n (s, x) HI Hn)
    as ([s' x'] & -> & t & HR & Hv & HE).
  simpl. eauto 10.
Qed.
End DeleteFixup.

Section Erase.
Context {K V : Type} `{EqDecision K, Compare K, ValueInit K, ValueInit V}.
Implicit Types (s : RBTree K V) (t : tree K V) (F : frame K V)
  (C : list (frame K V)) (h : gmap addr (Node K V)) (k : K) (v : V).

(** [transplant(z, z->right)] for a node without left child, and
    [transplant(z, z->left)] for one without right child. *)
Lemma transplant_right_Rep nil np s C c z k v r :
  Rep nil np s (plug C (T c Leaf z k v r)) →
  ∃ s', transplant s z (ptr nil r) = s' ∧
    Rep nil (np_after nil np C r) s' (plug C r) ∧
    heap s' !! z = Some (mkNode k v c (cparent nil C) nil (ptr nil r)).
Proof.
  intros HR.
  destruct C as [|[cp pa pk pv pr|cp pl pa pk pv] C'];
    destruct r as [|cr rl ra rk rv rr]; rep_facts HR.
  all: cbv beta iota delta [transplant]; run s.
  all: eexists; split; [reflexivity|]; split; [rep_close|assumption].
Qed.

Lemma transplant_left_Rep nil np s C c z k v l :
  Rep nil np s (plug C (T c l z k v Leaf)) →
  ∃ s', transplant s z (ptr nil l) = s' ∧
    Rep nil (np_after nil np C l) s' (plug C l) ∧
    heap s' !! z = Some (mkNode k v c (cparent nil C) (ptr nil l) nil).
Proof.
  intros HR.
  destruct C as [|[cp pa pk pv pr|cp pl pa pk pv] C'];
    destruct l as [|cl ll la lk lv lr]; rep_facts HR.
  all: cbv beta iota delta [transplant]; run s.
  all: eexists; split; [reflexivity|]; split; [rep_close|assumption].
Qed.

Lemma erase_parts fuel s k :
  erase fuel s k =
  z ← loop fuel (erase_body s k) (root s);
  if decide (z = NIL s) then Some (s, false)
  else
    '(s1, x, y_original) ← erase_unlink fuel s z;
    let s2 := delete_node s1 z in
    if decide (y_original = BLACK) then
      s3 ← delete_fixup fuel s2 x;
      Some (s3, true)
    else Some (s2, true).
Proof. reflexivity. Qed.

(** *** The search of [erase] *)
Lemma erase_body_spec nil np s t0 k n z :
  Rep nil np s t0 → search_inv nil t0 k n z →
  match erase_body s k z with
  | inl z' => ∃ n', n' < n ∧ search_inv nil t0 k n' z'
  | inr z' => search_post nil t0 k z'
  end.
Proof.
  intros HR (C & t & -> & -> & HP & Hn). unfold erase_body.
  destruct t as [|c l a k' v' r]; simpl ptr.
  - rep_lookups HR. reads s. exists C, Leaf. split_and!; auto.
  - rep_nd HR. rep_lookups HR. reads s.
    destruct (decide (k = k')) as [<-|Hne].
    + rewrite decide_False by (by intros [_ ?]).
      exists C, (T c l a k v' r). split_and!; eauto 10.
    + rewrite decide_True by done.
      destruct (comp k k') eqn:Hlt.
      * exists (height l). split; [simpl in Hn; lia|].
        exists (FL c a k' v' r :: C), l. split_and!; try done. by apply Forall_cons.
      * exists (height r). split; [simpl in Hn; lia|].
        exists (FR c l a k' v' :: C), r. split_and!; try done. by apply Forall_cons.
Qed.

Lemma erase_search nil np s t0 k fuel :
  Rep nil np s t0 → height t0 < fuel →
  ∃ z, loop fuel (erase_body s k) (root s) = Some z ∧ search_post nil t0 k z.
Proof.
  intros HR Hf.
  apply (loop_inv _ (search_inv nil t0 k) _ (λ n z, erase_body_spec nil np s t0 k n z HR)
           fuel (height t0)); [|done].
  exists [], t0. split_and!; try done. by destruct HR.
Qed.

(** *** [minimum] *)
Lemma minimum_body_spec nil np s C r n x :
  Rep nil np s (plug C r) → minimum_inv nil r n x →
  match minimum_body s x with
  | inl x' => ∃ n', n' < n ∧ minimum_inv nil r n' x'
  | inr y => minimum_post r y
  end.
Proof.
  intros HR (Cy & t & -> & Ht & -> & HF & Hn). unfold minimum_body.
  destruct t as [|c l a k' v' r']; [done|]. simpl ptr.
  rewrite <- plug_app in HR.
  destruct l as [|cl ll la lk lv lr]; rep_nd HR; rep_lookups HR; reads s.
  - exists Cy, c, k', v', r'. done.
  - exists (height (T cl ll la lk lv lr)). split; [simpl in *; lia|].
    exists (FL c a k' v' r' :: Cy), (T cl ll la lk lv lr). split_and!; try done.
    by apply Forall_cons.
Qed.

Lemma minimum_spec nil np s C r fuel :
  Rep nil np s (plug C r) → r ≠ Leaf → height r < fuel →
  ∃ y, minimum fuel s (ptr nil r) = Some y ∧ minimum_post r y.
Proof.
  intros HR Hr Hf.
  apply (loop_inv _ (minimum_inv nil r) _
           (λ n x, minimum_body_spec nil np s C r n x HR) fuel (height r)); [|done].
  exists [], r. split_and!; done.
Qed.

(** *** A node with two children: its successor takes its place *)
Lemma addrsC_app C1 C2 : addrsC (C1 ++ C2) = addrsC C1 ++ addrsC C2.
Proof. induction C1 as [|F C1 IH]; simpl; [done|]. by rewrite IH, <- !(assoc_L (++)). Qed.

Lemma plug_not_Leaf C t : C ≠ [] → plug C t ≠ Leaf.
Proof.
  revert t; induction C as [|F C IH]; intros t HC; [done|]. simpl.
  destruct C as [|F' C]; [by destruct F|]. by apply IH.
Qed.

Lemma erase_successor_child_Rep nil np s C c l z k v cy y ky vy ry :
  Rep nil np s (plug C (T c l z k v (T cy Leaf y ky vy ry))) → l ≠ Leaf →
  ∃ s', erase_two_children s z y = (s', ptr nil ry, cy) ∧
    Rep nil (np_after nil np (FR c l y ky vy :: C) ry) s' (plug (FR c l y ky vy :: C) ry) ∧
    (z ∉ addrs (plug (FR c l y ky vy :: C) ry)) ∧ z ≠ nil.
Proof.
  intros HR Hl. destruct l as [|cl ll la lk lv lr]; [done|].
  destruct C as [|[cp pa pk pv pr|cp pl pa pk pv] C'];
    destruct ry as [|cr rl ra rk rv rr]; rep_facts HR.
  all: cbv beta iota delta [erase_two_children transplant]; run s.
  all: eexists; split; [reflexivity|]; split_and!; [rep_close| |done].
  all: rewrite addrs_plug; nd_solve.
Qed.

Lemma erase_successor_deep_Rep nil np s C c l z k v F1 Cy cy y ky vy ry :
  Rep nil np s (plug C (T c l z k v (plug (F1 :: Cy) (T cy Leaf y ky vy ry)))) → l ≠ Leaf →
  ∃ s', erase_two_children s z y = (s', ptr nil ry, cy) ∧
    Rep nil (np_after nil np (F1 :: Cy ++ FR c l y ky vy :: C) ry) s'
      (plug (F1 :: Cy ++ FR c l y ky vy :: C) ry) ∧
    (z ∉ addrs (plug (F1 :: Cy ++ FR c l y ky vy :: C) ry)) ∧ z ≠ nil.
Proof.
  intros HR Hl. destruct l as [|cl ll la lk lv lr]; [done|].
  change (plug C (T c ?l z k v ?r)) with (plug (FR c l z k v :: C) r) in HR.
  rewrite <- plug_app in HR.
  pose proof (Rep_nd _ _ _ _ _ HR) as [Hnd Hnil].
  rewrite addrsC_app in Hnd, Hnil. nd_hyp Hnd. nd_hyp Hnil.
  pose proof (Rep_read _ _ _ _ _ _ _ _ _ _ HR) as Hy.
  pose proof HR as [HN _ _ _ _ _].
  destruct (transplant_right_Rep _ _ _ _ _ _ _ _ _ HR) as (s1 & Heq & HR1 & Hy1).
  cbv beta iota delta [erase_two_children].
  rewrite Hy. fields. simpl cparent.
  destruct (decide (fa F1 = z)) as [?|_]; [done|].
  rewrite Heq. clear Heq Hy HR HN s.
  assert ((y ∉ addrsC C ++ addrs (T cl ll la lk lv lr) ++ addrs (plug (F1 :: Cy) ry)) ∧
          y ≠ nil ∧ y ≠ z) as Hyz by (rewrite addrs_plug; nd_solve).
  clear_facts. destruct Hyz as (Hyt & Hyn & Hyz).
  change (F1 :: Cy ++ ?X) with ((F1 :: Cy) ++ X).
  rewrite plug_app in HR1. rewrite !plug_app.
  pose proof (plug_not_Leaf (F1 :: Cy) ry ltac:(done)) as Hr1.
  set (npy := np_after nil np ((F1 :: Cy) ++ FR c (T cl ll la lk lv lr) z k v :: C) ry) in *.
  change (np_after nil np ((F1 :: Cy) ++ FR c (T cl ll la lk lv lr) y ky vy :: C) ry) with npy.
  change (cparent _ ((F1 :: Cy) ++ _)) with (fa F1) in Hy1.
  clearbody npy.
  destruct (plug (F1 :: Cy) ry) as [|cr rl ra rk rv rr]; [done|].
  simpl plug in HR1. simpl plug.
  destruct C as [|[cp pa pk pv pr|cp pl pa pk pv] C']; rep_facts HR1; nd_hyp Hyt.
  all: cbv beta iota delta [transplant]; run s1.
  all: eexists; split; [reflexivity|]; split_and!; [rep_close| |done].
  all: rewrite addrs_plug; nd_solve.
Qed.

(** *** Step 3 as a whole *)
Lemma erase_unlink_Rep nil np s C c l z k v r fuel :
  Rep nil np s (plug C (T c l z k v r)) → height r < fuel →
  ∃ s1 C' c' t',
    erase_unlink fuel s z = Some (s1, ptr nil t', c') ∧
    Rep nil (np_after nil np C' t') s1 (plug C' t') ∧
    (z ∉ addrs (plug C' t')) ∧ z ≠ nil ∧
    unlink_shape C c l r C' c' t'.
Proof.
  intros HR Hf. cbv beta iota zeta delta [erase_unlink].
  rewrite (Rep_read _ _ _ _ _ _ _ _ _ _ HR). pose proof HR as [HN _ _ _ _ _].
  rewrite HN. fields.
  pose proof (Rep_nd _ _ _ _ _ HR) as [Hnd Hnil].
  destruct l as [|cl ll la lk lv lr]; simpl ptr.
  { destruct (decide (nil = nil)) as [_|]; [|done].
    destruct (transplant_right_Rep _ _ _ _ _ _ _ _ _ HR) as (s1 & Heq & HR1 & _).
    rewrite Heq. exists s1, C, c, r. split_and!; [done|done| | |by left].
    - nd_hyp Hnd. rewrite addrs_plug. nd_solve.
    - nd_hyp Hnil. done. }
  destruct (decide (la = nil)) as [->|_].
  { nd_hyp Hnil. done. }
  destruct r as [|cr rl ra rk rv rr]; simpl ptr.
  { destruct (decide (nil = nil)) as [_|]; [|done].
    destruct (transplant_left_Rep _ _ _ _ _ _ _ _ _ HR) as (s1 & Heq & HR1 & _).
    simpl ptr in Heq. rewrite Heq. exists s1, C, c, (T cl ll la lk lv lr).
    split_and!; [done|done| | |by right; left].
    - nd_hyp Hnd. rewrite addrs_plug. nd_solve.
    - nd_hyp Hnil. done. }
  destruct (decide (ra = nil)) as [->|_].
  { nd_hyp Hnil. done. }
  destruct (minimum_spec nil np s (FR c (T cl ll la lk lv lr) z k v :: C)
              (T cr rl ra rk rv rr) fuel HR ltac:(done) Hf)
    as (y & Hmin & Cy & cy & ky & vy & ry & Hr & HFL).
  simpl ptr in Hmin. rewrite Hmin. simpl. rewrite Hr in HR.
  destruct Cy as [|F1 Cy].
  - destruct (erase_successor_child_Rep _ _ _ _ _ _ _ _ _ _ _ _ _ _ HR ltac:(done))
      as (s1 & Heq & HR1 & Hz & Hzn).
    rewrite Heq. exists s1, (FR c (T cl ll la lk lv lr) y ky vy :: C), cy, ry.
    split_and!; try done. right; right. split; [done|]. by exists [], y, ky, vy.
  - destruct (erase_successor_deep_Rep _ _ _ _ _ _ _ _ _ _ _ _ _ _ _ _ HR ltac:(done))
      as (s1 & Heq & HR1 & Hz & Hzn).
    rewrite Heq. exists s1, (F1 :: Cy ++ FR c (T cl ll la lk lv lr) y ky vy :: C), cy, ry.
    split_and!; try done. right; right. split; [done|]. by exists (F1 :: Cy), y, ky, vy.
Qed.
End Erase.

Section EraseSpec.
Context {K V : Type} `{EqDecision K, Compare K, ValueInit K, ValueInit V}.
Implicit Types (s : RBTree K V) (t : tree K V) (F : frame K V)
  (C : list (frame K V)) (h : gmap addr (Node K V)) (k : K) (v : V).

Lemma lpart_FL C : Forall is_FL C → lpart C = [].
Proof.
  induction 1 as [|F C HF _ IH]; [done|]. destruct F; [|done]. done.
Qed.

Lemma unlink_elems C c l z k v r C' c' t' :
  unlink_shape C c l r C' c' t' →
  ∃ E1 E2, elems (plug C (T c l z k v r)) = E1 ++ (k, v) :: E2 ∧
           elems (plug C' t') = E1 ++ E2.
Proof.
  intros [(-> & -> & -> & ->)|[(Hl & -> & -> & -> & ->)|(Hl & Cy & y & ky & vy & -> & HF & ->)]].
  - exists (lpart C), (elems r ++ rpart C). by rewrite !elems_plug.
  - exists (lpart C ++ elems l), (rpart C). rewrite !elems_plug. simpl.
    by rewrite <- !(assoc_L (++)).
  - exists (lpart C ++ elems l), ((ky, vy) :: elems t' ++ rpart Cy ++ rpart C).
    rewrite plug_app. simpl. rewrite !elems_plug. simpl. rewrite !elems_plug.
    rewrite (lpart_FL _ HF). simpl. rewrite <- !(assoc_L (++)). simpl.
    by rewrite <- !(assoc_L (++)).
Qed.

Lemma unlink_length C c l z k v r C' c' t' :
  unlink_shape C c l r C' c' t' → S (length C') ≤ height (plug C (T c l z k v r)).
Proof.
  intros [(-> & -> & -> & ->)|[(Hl & -> & -> & -> & ->)|(Hl & Cy & y & ky & vy & -> & HF & ->)]].
  - pose proof (length_le_height_plug C (T c Leaf z k v r)). simpl in *. lia.
  - pose proof (length_le_height_plug C (T c l z k v Leaf)). simpl in *. lia.
  - change (plug C (T c l z k v ?r)) with (plug (FR c l z k v :: C) r).
    rewrite <- plug_app.
    pose proof (length_le_height_plug (Cy ++ FR c l z k v :: C) (T c' Leaf y ky vy t')) as Hh.
    rewrite length_app in *. simpl in *. lia.
Qed.

Lemma crb_reframe n Cy c l a k v a' k' v' C :
  crb n (Cy ++ FR c l a k v :: C) → crb n (Cy ++ FR c l a' k' v' :: C).
Proof.
  revert n; induction Cy as [|F Cy IH]; intros n; [done|]. simpl.
  destruct (fc F).
  - intros (? & ? & ? & Hm). split_and!; auto. by destruct Cy.
  - intros (? & ?). split; auto.
Qed.

Lemma rb_defic n t : rb n t → defic n t.
Proof. destruct t as [|[] ? ? ? ? ?]; simpl; [done| |done]. by intros (_ & _ & ? & ?). Qed.

Lemma unlink_rb C c l z k v r C' c' t' m :
  unlink_shape C c l r C' c' t' →
  tcolor (plug C (T c l z k v r)) = BLACK → rb m (plug C (T c l z k v r)) →
  match c' with
  | BLACK => ∃ bh, defic bh t' ∧ crb (S bh) C'
  | RED => valid (plug C' t')
  end.
Proof.
  intros [(-> & -> & -> & ->)|[(Hl & -> & -> & -> & ->)|(Hl & Cy & y & ky & vy & -> & HF & ->)]]
    Hb Hrb.
  - destruct (rb_unplug _ _ _ Hrb Hb) as (bh & HC & Ht & Hc). destruct c; simpl in Ht.
    + destruct Ht as (_ & ? & _ & ?). by apply valid_plug with bh.
    + destruct bh as [|bh]; [done|]. destruct Ht as [-> ?]. exists 0. split; [|done].
      by apply rb_defic.
  - destruct (rb_unplug _ _ _ Hrb Hb) as (bh & HC & Ht & Hc). destruct c; simpl in Ht.
    + destruct Ht as (? & _ & ? & _). by apply valid_plug with bh.
    + destruct bh as [|bh]; [done|]. destruct Ht as [? ->]. exists 0. split; [|done].
      by apply rb_defic.
  - change (plug C (T c l z k v ?r)) with (plug (FR c l z k v :: C) r) in Hb, Hrb.
    rewrite <- plug_app in Hb, Hrb.
    destruct (rb_unplug _ _ _ Hrb Hb) as (bh & HC & Ht & Hc).
    apply (crb_reframe _ _ _ _ _ _ _ y ky vy) in HC. destruct c'; simpl in Ht.
    + destruct Ht as (_ & ? & _ & ?). by apply valid_plug with bh.
    + destruct bh as [|bh]; [done|]. destruct Ht as [-> ?]. exists 0. split; [|done].
      by apply rb_defic.
Qed.

Context `{!StrictTotalOrder K}.

Lemma search_spath k C : Forall (search_step k) C → spath k C.
Proof.
  intros HP. eapply Forall_impl; [exact HP|].
  intros [c a k' v r|c l a k' v]; simpl; [by intros [? _]|].
  intros [Hlt Hne]. destruct (comp k' k) eqn:Hgt; [done|].
  destruct Hne. by apply comp_total.
Qed.

Lemma assoc_mid (E1 E2 : list (K * V)) k v :
  StronglySorted klt (E1 ++ (k, v) :: E2) → assoc k (E1 ++ (k, v) :: E2) = Some v.
Proof.
  rewrite sorted_app. intros (_ & _ & HS). rewrite assoc_app, assoc_lt.
  - simpl. by rewrite decide_True.
  - intros e He. apply (HS e (k, v) He). left.
Qed.

(** *** [erase] keeps the invariant and removes the binding of [k] *)
Lemma erase_spec nil np s t k fuel :
  Inv nil np s t → height t < fuel →
  ∃ s' b np' t',
    erase fuel s k = Some (s', b) ∧ Inv nil np' s' t' ∧
    (∀ k', assoc k' (elems t') = if decide (k' = k) then None else assoc k' (elems t)) ∧
    (b = true ↔ is_Some (assoc k (elems t))) ∧
    (b = false → s' = s) ∧
    size t' ≤ size t.
Proof.
  intros [HR Hblack [m Hrb] Hsorted] Hfuel. rewrite erase_parts.
  destruct (erase_search nil np s t k fuel HR Hfuel)
    as (z & Hloop & C & t1 & -> & Hz & HP%search_spath & Hpost).
  rewrite Hloop. simpl. pose proof HR as [HN _ _ _ _ _]. rewrite HN.
  destruct Hpost as [->|(c & l & v & r & ->)]; simpl in Hz; [subst z|clear Hz].
  { rewrite decide_True by done. exists s, false, np, (plug C Leaf).
    pose proof (assoc_leaf k C Hsorted HP) as Hk.
    split_and!; try done.
    - split; eauto.
    - intros k'. case_decide; [by subst|done].
    - rewrite Hk. split; [done|]. by intros [? ?]. }
  pose proof (Rep_nd _ _ _ _ _ HR) as [_ Hnil].
  nd_hyp Hnil. rewrite decide_False by nd_atom.
  destruct (erase_unlink_Rep nil np s C c l z k v r fuel HR)
    as (s1 & C' & c' & t' & Hun & HR1 & Hz & Hzn & Hshape).
  { pose proof (length_le_height_plug C (T c l z k v r)). simpl in *. lia. }
  rewrite Hun. simpl.
  apply (Rep_delete_out _ _ _ _ z Hz Hzn) in HR1.
  destruct (unlink_elems C c l z k v r C' c' t' Hshape) as (E1 & E2 & HE & HE').
  pose proof (unlink_length C c l z k v r C' c' t' Hshape) as Hlen.
  pose proof (unlink_rb C c l z k v r C' c' t' m Hshape Hblack Hrb) as Hrb'.
  unfold sorted in Hsorted. rewrite HE in Hsorted.
  assert (∀ t2, elems t2 = E1 ++ E2 →
    sorted t2 ∧
    (∀ k', assoc k' (elems t2) =
           if decide (k' = k) then None else assoc k' (elems (plug C (T c l z k v r)))) ∧
    (true = true ↔ is_Some (assoc k (elems (plug C (T c l z k v r))))) ∧
    (true = false → s1 = s) ∧
    size t2 ≤ size (plug C (T c l z k v r))) as Hfin.
  { intros t2 Ht2. split_and!; try done.
    - unfold sorted. rewrite Ht2. by eapply sorted_delete.
    - intros k'. rewrite Ht2, HE. by eapply assoc_delete.
    - rewrite HE, assoc_mid by done. split; [by eexists|done].
    - rewrite !size_elems, Ht2, HE, !length_app. simpl. lia. }
  destruct c'.
  - rewrite decide_False by done.
    eexists _, true, _, (plug C' t'). split; [done|].
    destruct (Hfin (plug C' t') HE') as (? & ? & ? & ? & ?).
    destruct Hrb' as [? ?]. split_and!; try done.
  - rewrite decide_True by done.
    destruct Hrb' as (bh & Hdef & HC').
    destruct (delete_fixup_spec nil (np_after nil np C' t') (E1 ++ E2)
                (match tcolor t' with RED => 0 | BLACK => S (length C') end)
                (delete_node s1 z) (ptr nil t') fuel) as (s3 & t3 & Hfix & HR3 & [? ?] & HE3).
    { left. exists C', t', bh. split_and!; try done. by intros ->. }
    { destruct (tcolor t'); lia. }
    rewrite Hfix. simpl. eexists _, true, _, t3. split; [done|].
    destruct (Hfin t3 HE3) as (? & ? & ? & ? & ?). split_and!; try done.
Qed.

(** A key that is in no node is not found, whatever the shape of the tree. *)
Lemma erase_absent nil np s t k fuel :
  Rep nil np s t → height t < fuel → (∀ e, e ∈ elems t → e.1 ≠ k) →
  erase fuel s k = Some (s, false).
Proof.
  intros HR Hfuel Hk. rewrite erase_parts.
  destruct (erase_search nil np s t k fuel HR Hfuel)
    as (z & Hloop & C & t1 & -> & Hz & HP & Hpost).
  rewrite Hloop. simpl. pose proof HR as [HN _ _ _ _ _]. rewrite HN.
  destruct Hpost as [->|(c & l & v & r & ->)]; simpl in Hz; [subst z|clear Hz].
  - by rewrite decide_True.
  - destruct (Hk (k, v)); [|done]. rewrite elems_plug. simpl.
    apply elem_of_app. right. apply elem_of_app. left. apply elem_of_app. right. left.
Qed.
End EraseSpec.

Section Lookup.
Context {K V : Type} `{EqDecision K, Compare K, ValueInit K, ValueInit V}.
Context `{!StrictTotalOrder K}.
Implicit Types (s : RBTree K V) (t : tree K V) (F : frame K V)
  (C : list (frame K V)) (h : gmap addr (Node K V)) (k : K) (v : V).

Lemma lookup_body_spec nil np s t0 k n st :
  Rep nil np s t0 → sorted t0 → lookup_inv nil t0 k n st →
  match lookup_body s k st with
  | inl st' => ∃ n', n' < n ∧ lookup_inv nil t0 k n' st'
  | inr r => lookup_post t0 k r
  end.
Proof.
  destruct st as [[x lk] tr]. intros HR HS (C & t & -> & Hx & HP & Hn).
  simpl in Hx. subst x. unfold lookup_body.
  destruct t as [|c l a k' v' r]; simpl ptr.
  - rep_lookups HR. reads s. unfold lookup_post. simpl. by rewrite assoc_leaf.
  - rep_nd HR. rep_lookups HR. reads s.
    destruct (comp k k') eqn:Hlt; [|destruct (comp k' k) eqn:Hgt].
    + simpl. exists (height l). split; [simpl in Hn; lia|].
      exists (FL c a k' v' r :: C), l. split_and!; try done. by apply Forall_cons.
    + simpl. exists (height r). split; [simpl in Hn; lia|].
      exists (FR c l a k' v' :: C), r. split_and!; try done. by apply Forall_cons.
    + unfold lookup_post. simpl. rewrite <- (comp_total _ _ Hlt Hgt) in *.
      by rewrite assoc_found.
Qed.

(** [lookup] returns the binding of [k]. *)
Lemma lookup_spec nil np s t k fuel :
  Inv nil np s t → height t < fuel →
  ∃ tr, lookup fuel s k = Some (assoc k (elems t), tr).
Proof.
  intros [HR _ _ HS] Hf. unfold lookup.
  destruct (shared_lock_ctor (root s)) as [lk e].
  destruct (loop_inv _ (lookup_inv nil t k) _
              (λ n st, lookup_body_spec nil np s t k n st HR HS)
              fuel (height t) (root s, lk, e)) as ([r tr] & Hloop & Hr); [|done|].
  - exists [], t. split_and!; try done. by destruct HR. constructor.
  - unfold lookup_post in Hr. simpl in Hr. subst r. by exists tr.
Qed.
End Lookup.

Section Validate.
Context {K V : Type} `{EqDecision K, Compare K, ValueInit K, ValueInit V}.
Implicit Types (s : RBTree K V) (t : tree K V) (F : frame K V)
  (C : list (frame K V)) (h : gmap addr (Node K V)) (k : K) (v : V).

Lemma Rep_read_ptr nil np s C t :
  Rep nil np s (plug C t) →
  color s.[ptr nil t] = tcolor t ∧ key s.[ptr nil t] = tkey t ∧
  bool_decide (ptr nil t ≠ nil) = is_node t.
Proof.
  intros HR. destruct t as [|c l a k v r]; simpl.
  - rewrite (Rep_read_nil _ _ _ _ HR). by rewrite bool_decide_eq_false_2 by (by intros ?).
  - rewrite (Rep_read _ _ _ _ _ _ _ _ _ _ HR). split_and!; [done|done|].
    apply bool_decide_eq_true_2. destruct (Rep_nd _ _ _ _ _ HR) as [_ Hnil].
    nd_hyp Hnil. nd_atom.
Qed.

Lemma validate_rec_check nil np s C t fuel blacks target :
  Rep nil np s (plug C t) → height t < fuel →
  validate_rec fuel s (ptr nil t) blacks target = Some (check t blacks target).
Proof.
  revert C t blacks target.
  induction fuel as [|fuel IH]; intros C t blacks target HR Hf; [lia|].
  cbn [validate_rec]. pose proof HR as [HN _ _ _ _ _]. rewrite HN.
  destruct t as [|c l a k v r]; simpl ptr.
  { by rewrite decide_True. }
  destruct (Rep_nd _ _ _ _ _ HR) as [_ Hnil].
  rewrite decide_False by (nd_hyp Hnil; nd_atom).
  rewrite (Rep_read _ _ _ _ _ _ _ _ _ _ HR). fields.
  destruct (Rep_read_ptr nil np s (FL c a k v r :: C) l HR) as (-> & -> & ->).
  destruct (Rep_read_ptr nil np s (FR c l a k v :: C) r HR) as (-> & -> & ->).
  simpl in Hf. cbn [check].
  rewrite (IH (FL c a k v r :: C) l) by (done || lia).
  destruct (decide (c = RED ∧ (tcolor l = RED ∨ tcolor r = RED))); [done|].
  destruct (is_node l && comp k (tkey l)); [done|].
  destruct (is_node r && comp (tkey r) k); [done|].
  destruct (check l _ target) as [[] tg]; [|done].
  rewrite (IH (FR c l a k v :: C) r) by (done || lia). done.
Qed.

Lemma rb_unique t n m : rb n t → rb m t → n = m.
Proof.
  revert n m; induction t as [|c l IHl a k v r IHr]; intros n m; simpl.
  - by intros -> ->.
  - destruct c.
    + intros (_ & _ & Hn & _) (_ & _ & Hm & _). by apply IHl.
    + destruct n, m; try done. intros [Hn _] [Hm _]. f_equal. by apply IHl.
Qed.

Lemma check_spec t (b tg tg' : Z) :
  (0 ≤ b)%Z → (tg = -1 ∨ 0 ≤ tg)%Z →
  check t b tg = (true, tg') ↔
  local_order t ∧ ∃ n : nat, rb n t ∧ (tg = -1 ∨ tg = b + Z.of_nat n)%Z ∧ tg' = (b + Z.of_nat n)%Z.
Proof.
  revert b tg tg'; induction t as [|c l IHl a k v r IHr]; intros b tg tg' Hb Htg.
  { simpl. split.
    - intros [= Hbd <-]. apply bool_decide_eq_true in Hbd. split; [done|].
      exists 0. split; [done|]. case_decide; lia.
    - intros (_ & n & -> & Ht & ->). change (Z.of_nat 0) with 0%Z in *.
      rewrite Z.add_0_r in *.
      case_decide; [by rewrite bool_decide_eq_true_2|].
      destruct Ht as [?| ->]; [done|]. by rewrite bool_decide_eq_true_2. }
  cbn [check local_order].
  set (b' := if decide (c = BLACK) then (b + 1)%Z else b).
  assert (0 ≤ b')%Z as Hb' by (unfold b'; case_decide; lia).
  destruct (decide (c = RED ∧ (tcolor l = RED ∨ tcolor r = RED))) as [Hrr|Hrr].
  { split; [done|]. intros (_ & n & Hn & _). destruct Hrr as [-> Hrr]. simpl in Hn.
    destruct Hn as (Hl & Hr & _). rewrite Hl, Hr in Hrr. by destruct Hrr. }
  destruct (is_node l && comp k (tkey l)) eqn:Hol.
  { split; [done|]. by intros ((? & _) & _). }
  destruct (is_node r && comp (tkey r) k) eqn:Hor.
  { split; [done|]. by intros ((_ & ? & _) & _). }
  assert (∀ n, rb n (T c l a k v r) →
            ∃ m, rb m l ∧ rb m r ∧ (b + Z.of_nat n = b' + Z.of_nat m)%Z) as Hsplit.
  { intros n Hn. unfold b'. destruct c; simpl in Hn.
    - exists n. rewrite decide_False by done. by destruct Hn as (_ & _ & ? & ?).
    - destruct n as [|n]; [done|]. exists n. rewrite decide_True by done.
      split_and!; [apply Hn|apply Hn|lia]. }
  assert (∀ m, rb m l → rb m r →
            ∃ n, rb n (T c l a k v r) ∧ (b + Z.of_nat n = b' + Z.of_nat m)%Z) as Hjoin.
  { intros m Hl Hr. unfold b'. destruct c.
    - exists m. rewrite decide_False by done. split; [|done]. simpl. split_and!; try done.
      + destruct (tcolor l); [|done]. destruct Hrr. auto.
      + destruct (tcolor r); [|done]. destruct Hrr. auto.
    - exists (S m). rewrite decide_True by done. split; [done|lia]. }
  destruct (check l b' tg) as [[] tg1] eqn:Hcl.
  - apply IHl in Hcl as (Hlo & n1 & Hn1 & Ht1 & ->); [|done|done].
    rewrite IHr by (done || lia). split.
    + intros (Hro & n2 & Hn2 & Ht2 & ->). split; [by split_and!|].
      assert (n2 = n1) as -> by lia.
      destruct (Hjoin n1 Hn1 Hn2) as (n & Hn & Hbn). exists n. split; [done|]. lia.
    + intros ((_ & _ & _ & Hro) & n & Hn & Ht & ->). split; [done|].
      destruct (Hsplit n Hn) as (m & Hl & Hr & Hbn).
      pose proof (rb_unique _ _ _ Hl Hn1) as ->.
      exists n1. split; [done|]. lia.
  - split; [done|]. intros ((_ & _ & Hlo & Hro) & n & Hn & Ht & ->).
    destruct (Hsplit n Hn) as (m & Hl & Hr & Hbn).
    assert (check l b' tg = (true, (b' + Z.of_nat m)%Z)) as Hcl'; [|congruence].
    apply IHl; [done|done|]. split; [done|]. exists m. split; [done|]. lia.
Qed.

(** What [validate] computes, on every store that holds a tree. *)
Lemma validate_spec nil np s t fuel :
  Rep nil np s t → height t < fuel →
  ∃ b, validate fuel s = Some b ∧ (b = true ↔ local_order t ∧ ∃ n, rb n t).
Proof.
  intros HR Hf. unfold validate. pose proof HR as [_ _ Hroot _ _ _]. rewrite Hroot.
  rewrite (validate_rec_check nil np s [] t fuel) by done. simpl.
  exists (check t 0 (-1)).1. split; [done|].
  destruct (check t 0 (-1)) as [b tg'] eqn:Hc. simpl. split.
  - intros ->. apply check_spec in Hc as (? & n & ? & _); [|done|by left]. eauto.
  - intros (Hlo & n & Hn). destruct b; [done|].
    assert (check t 0 (-1) = (true, (0 + Z.of_nat n)%Z)) as Hc'; [|congruence].
    apply check_spec; [done|by left|]. split; [done|]. exists n. auto.
Qed.
End Validate.

Section ValidateSorted.
Context {K V : Type} `{EqDecision K, Compare K, ValueInit K, ValueInit V}.
Context `{!StrictTotalOrder K}.

Lemma tkey_elems (t : tree K V) : is_node t = true → ∃ v, (tkey t, v) ∈ elems t.
Proof.
  destruct t as [|c l a k v r]; [done|]. intros _. exists v. simpl.
  apply elem_of_app. right. left.
Qed.

Lemma sorted_local_order (t : tree K V) : sorted t → local_order t.
Proof.
  unfold sorted. induction t as [|c l IHl a k v r IHr]; [done|]. simpl.
  intros HS. apply sorted_app in HS as (HSl & HSr & Hlr).
  apply sorted_cons in HSr as [HSr Hkr]. split_and!; auto.
  - destruct (is_node l) eqn:Hl; [|done]. simpl.
    destruct (tkey_elems l Hl) as [vl Hin].
    apply comp_asym. apply (Hlr (tkey l, vl) (k, v) Hin). left.
  - destruct (is_node r) eqn:Hr; [|done]. simpl.
    destruct (tkey_elems r Hr) as [vr Hin].
    apply comp_asym. apply (Hkr (tkey r, vr) Hin).
Qed.

Lemma validate_Inv nil np (s : RBTree K V) t fuel :
  Inv nil np s t → height t < fuel → validate fuel s = Some true.
Proof.
  intros [HR _ Hrb HS] Hf.
  destruct (validate_spec nil np s t fuel HR Hf) as (b & -> & Hb).
  f_equal. apply Hb. split; [|done]. by apply sorted_local_order.
Qed.
End ValidateSorted.

(** ** The three files hold the same algorithm *)

Lemma loop_sim {St1 St2 R1 R2 : Type} (body1 : St1 → St1 + R1) (body2 : St2 → St2 + R2)
    (RS : St1 → St2 → Prop) (RR : R1 → R2 → Prop) :
  (∀ x1 x2, RS x1 x2 →
     match body1 x1, body2 x2 with
     | inl a, inl b => RS a b
     | inr a, inr b => RR a b
     | _, _ => False
     end) →
  ∀ fuel x1 x2, RS x1 x2 →
    match loop fuel body1 x1, loop fuel body2 x2 with
    | Some a, Some b => RR a b
    | None, None => True
    | _, _ => False
    end.
Proof.
  intros Hstep. induction fuel as [|fuel IH]; intros x1 x2 HS; simpl; [done|].
  specialize (Hstep x1 x2 HS). destruct (body1 x1), (body2 x2); try done. by apply IH.
Qed.

Section Same.
Context {K V : Type} `{EqDecision K, Compare K, ValueInit K, ValueInit V}.
Implicit Types (s : RBTree K V) (k : K) (v : V).

Lemma lookup_body_same s k (st : addr * shared_lock * list LockEvent) (n : addr) :
  st.1.1 = n →
  match LockCoupled.lookup_body s k st, RaceFree.lookup_body s k n with
  | inl st', inl n' => st'.1.1 = n'
  | inr r, inr o => r.1 = o
  | _, _ => False
  end.
Proof.
  destruct st as [[n0 lk] tr]. simpl. intros ->.
  unfold LockCoupled.lookup_body, RaceFree.lookup_body.
  destruct (decide (n ≠ NIL s)); [|done].
  destruct (comp k (key s.[n])); [done|]. by destruct (comp (key s.[n]) k).
Qed.

Lemma RaceFree_lookup fuel s k :
  RaceFree.lookup fuel s k = fst <$> LockCoupled.lookup fuel s k.
Proof.
  unfold RaceFree.lookup, LockCoupled.lookup. simpl.
  pose proof (loop_sim _ _ (λ st n, st.1.1 = n) (λ r o, r.1 = o)
                (lookup_body_same s k) fuel
                (root s, mk_shared_lock (root s) true, [LockShared (root s)])
                (root s) eq_refl) as Hsim.
  destruct (loop fuel (RaceFree.lookup_body s k) (root s)),
    (loop fuel (LockCoupled.lookup_body s k) _); simpl in *; by subst.
Qed.

Lemma insert_body_same s k (st : addr * addr * LockCoupled.UpgradeLock * list LockEvent)
    (st' : addr * addr) :
  st.1.1 = st' →
  match LockCoupled.insert_body s k st, RaceFree.insert_body s k st' with
  | inl a, inl b => a.1.1 = b
  | inr d, inr d' => same_descent d d'
  | _, _ => False
  end.
Proof.
  destruct st as [[[y x] lk] tr]. simpl. intros <-.
  unfold LockCoupled.insert_body, RaceFree.insert_body.
  destruct (decide (x ≠ NIL s)); [|done].
  destruct (comp k (key s.[x])); [done|]. by destruct (comp (key s.[x]) k).
Qed.

Lemma RaceFree_insert fuel s k v :
  RaceFree.insert fuel s k v = fst <$> LockCoupled.insert fuel s k v.
Proof.
  unfold RaceFree.insert, LockCoupled.insert.
  destruct (new_node s k v RED) as [s1 z]. cbv zeta.
  destruct (LockCoupled.UpgradeLock_ctor _) as [lk e].
  set (s4 := set_left _ z _).
  pose proof (loop_sim _ _ (λ st st', st.1.1 = st') same_descent
                (insert_body_same s4 k) fuel
                (NIL s4, root s4, lk, e) (NIL s4, root s4) eq_refl) as Hsim.
  destruct (loop fuel (RaceFree.insert_body s4 k) _) as [[x'|y' x']|],
    (loop fuel (LockCoupled.insert_body s4 k) _) as [[x lk' tr|y x lk' tr]|];
    simpl in *; try done.
  - subst x'. by destruct (LockCoupled.upgrade lk').
  - destruct Hsim as [-> ->]. destruct (LockCoupled.upgrade lk').
    match goal with |- ?a = _ <$> (?b ≫= _) => change a with b; by destruct b end.
Qed.

Lemma RaceFree_erase fuel s k : RaceFree.erase fuel s k = LockCoupled.erase fuel s k.
Proof. reflexivity. Qed.

Lemma RaceFree_validate fuel s : RaceFree.validate fuel s = LockCoupled.validate fuel s.
Proof. reflexivity. Qed.

Lemma EpochBased_lookup fuel s k :
  EpochBased.lookup fuel s k = fst <$> LockCoupled.lookup fuel s k.
Proof. rewrite <- RaceFree_lookup. reflexivity. Qed.

Lemma insert_body_same_coarse s k (st : addr * addr) :
  match RaceFree.insert_body s k st, EpochBased.insert_body s k st with
  | inl a, inl b => a = b
  | inr d, inr d' => same_descent_coarse d d'
  | _, _ => False
  end.
Proof.
  destruct st as [y x]. unfold RaceFree.insert_body, EpochBased.insert_body.
  destruct (decide (x ≠ NIL s)); [|done].
  destruct (comp k (key s.[x])); [done|]. by destruct (comp (key s.[x]) k).
Qed.

Lemma EpochBased_insert fuel s k v :
  EpochBased.insert fuel s k v = fst <$> LockCoupled.insert fuel s k v.
Proof.
  rewrite <- RaceFree_insert.
  unfold RaceFree.insert, EpochBased.insert.
  destruct (new_node s k v RED) as [s1 z]. cbv zeta.
  set (s4 := set_left _ z _).
  pose proof (loop_sim _ _ eq same_descent_coarse
                (λ st st' (Heq : st = st'),
                   eq_ind st (λ st', match RaceFree.insert_body s4 k st,
                                           EpochBased.insert_body s4 k st' with
                                     | inl a, inl b => a = b
                                     | inr d, inr d' => same_descent_coarse d d'
                                     | _, _ => False
                                     end) (insert_body_same_coarse s4 k st) st' Heq)
                fuel (NIL s4, root s4) (NIL s4, root s4) eq_refl) as Hsim.
  destruct (loop fuel (RaceFree.insert_body s4 k) _) as [[x'|y' x']|],
    (loop fuel (EpochBased.insert_body s4 k) _) as [[x|y x]|];
    simpl in *; try done.
  - by subst.
  - by destruct Hsim as [-> ->].
Qed.

Lemma EpochBased_erase fuel s k : EpochBased.erase fuel s k = LockCoupled.erase fuel s k.
Proof. reflexivity. Qed.
End Same.

#[local] Instance lock_id_le_trans : Transitive OrderedLocking.lock_id_le.
Proof. intros a b c. unfold OrderedLocking.lock_id_le. lia. Qed.
#[local] Instance lock_id_le_total : Total OrderedLocking.lock_id_le.
Proof. intros a b. unfold OrderedLocking.lock_id_le. lia. Qed.

Lemma std_unique_elem_of l a : a ∈ OrderedLocking.std_unique l ↔ a ∈ l.
Proof.
  induction l as [|b l IH]; [done|]. simpl. destruct l as [|c l].
  - done.
  - destruct (decide (b = c)) as [->|Hne].
    + rewrite IH. rewrite !elem_of_cons. tauto.
    + rewrite elem_of_cons, IH. by rewrite (elem_of_cons (c :: l)).
Qed.

Lemma std_unique_sorted l :
  StronglySorted OrderedLocking.lock_id_le l →
  StronglySorted OrderedLocking.lock_id_lt (OrderedLocking.std_unique l).
Proof.
  induction l as [|b l IH]; [constructor|]. intros HS.
  apply StronglySorted_inv in HS as [HS Hall]. specialize (IH HS).
  simpl. destruct l as [|c l]; [repeat constructor|].
  destruct (decide (b = c)) as [->|Hne]; [done|].
  constructor; [done|]. apply Forall_forall. intros x Hx.
  apply (proj1 (std_unique_elem_of _ _)) in Hx.
  rewrite Forall_forall in Hall. pose proof (Hall x Hx) as Hbx.
  unfold OrderedLocking.lock_id_lt, OrderedLocking.lock_id_le, OrderedLocking.lock_id in *.
  apply elem_of_cons in Hx as [->|Hx]; [lia|].
  apply StronglySorted_inv in HS as [_ Hc]. rewrite Forall_forall in Hc.
  specialize (Hc x Hx). pose proof (Hall c ltac:(left)).
  unfold OrderedLocking.lock_id_le, OrderedLocking.lock_id in *. lia.
Qed.

Lemma OrderedLockGuard_ctor_spec nodes :
  ∃ l, (OrderedLocking.OrderedLockGuard_ctor nodes).2 = map LockShared l ∧
       StronglySorted OrderedLocking.lock_id_lt l ∧ (∀ a, a ∈ l ↔ a ∈ nodes).
Proof.
  exists (OrderedLocking.std_unique (OrderedLocking.std_sort nodes)). split_and!.
  - unfold OrderedLocking.OrderedLockGuard_ctor. simpl.
    induction (OrderedLocking.std_unique _); simpl; congruence.
  - apply std_unique_sorted. unfold OrderedLocking.std_sort.
    apply StronglySorted_merge_sort; apply _.
  - intros a. rewrite std_unique_elem_of. unfold OrderedLocking.std_sort.
    by rewrite merge_sort_Permutation.
Qed.

#[global] Instance Z_strict_total_order : StrictTotalOrder Z.
Proof.
  split; unfold comp, Z_compare.
  - apply Z.ltb_irrefl.
  - intros a b c ?%Z.ltb_lt ?%Z.ltb_lt. apply Z.ltb_lt. lia.
  - intros a b ?%Z.ltb_ge ?%Z.ltb_ge. lia.
Qed.

Section RunSpec.
Context {K V : Type} `{EqDecision K, Compare K, ValueInit K, ValueInit V}.
Context `{!StrictTotalOrder K}.
Implicit Types (s : RBTree K V) (t : tree K V) (k : K) (v : V) (ops : list (Op K V)).

Lemma RBTree_new_Inv : Inv (fresh_addr (∅ : gmap addr (Node K V))) nullptr (@RBTree_new K V _ _) Leaf.
Proof.
  split; [split|done|by exists 0|constructor]; try done.
  - constructor.
  - apply not_elem_of_nil.
Qed.

Lemma run_spec ops : ∀ fuel nil np s t (m : K → option V),
  Inv nil np s t → (∀ k, assoc k (elems t) = m k) → size t + length ops < fuel →
  ∃ s' np' t',
    run_lock_coupled fuel ops s = Some (s', expected m ops) ∧
    Inv nil np' s' t' ∧ (∀ k, assoc k (elems t') = foldl apply_op m ops k) ∧
    size t' ≤ size t + length ops.
Proof.
  induction ops as [|op ops IH]; intros fuel nil np s t m HI Hm Hf.
  { exists s, np, t. split_and!; try done. lia. }
  pose proof (height_le_size t) as Hh. simpl in Hf.
  assert (∃ s1 np1 t1 r,
    step_with (λ fuel s k v, fst <$> LockCoupled.insert fuel s k v) LockCoupled.erase
      (λ fuel s k, fst <$> LockCoupled.lookup fuel s k) fuel s op = Some (s1, r) ∧
    r :: expected (apply_op m op) ops = expected m (op :: ops) ∧
    Inv nil np1 s1 t1 ∧ (∀ k, assoc k (elems t1) = apply_op m op k) ∧
    size t1 ≤ S (size t)) as (s1 & np1 & t1 & r & Hstep & Hr & HI1 & Hm1 & Hs1).
  { destruct op as [k v|k|k]; simpl.
    - destruct (insert_spec nil np s t k v fuel HI ltac:(lia))
        as (s1 & tr & t1 & -> & HI1 & Hm1 & Hs1 & _).
      exists s1, np, t1, RInsert. split_and!; try done.
      intros k'. rewrite Hm1. by rewrite Hm.
    - destruct (erase_spec nil np s t k fuel HI ltac:(lia))
        as (s1 & b & np1 & t1 & -> & HI1 & Hm1 & Hb & _ & Hs1).
      exists s1, np1, t1, (RErase b). split_and!; try done.
      + do 2 f_equal. rewrite <- Hm. destruct b.
        * symmetry. apply bool_decide_eq_true_2. by apply Hb.
        * symmetry. apply bool_decide_eq_false_2. intros Hs%Hb. done.
      + intros k'. rewrite Hm1. by rewrite Hm.
      + lia.
    - destruct (lookup_spec nil np s t k fuel HI ltac:(lia)) as (tr & ->).
      exists s, np, t, (RLookup (assoc k (elems t))). split_and!; try done.
      + by rewrite Hm.
      + lia. }
  destruct (IH fuel nil np1 s1 t1 (apply_op m op) HI1 Hm1 ltac:(lia))
    as (s' & np' & t' & Hrun & HI' & Hm' & Hs').
  exists s', np', t'. split_and!; try done; [|simpl; lia].
  unfold run_lock_coupled in *. cbn [run_with]. rewrite Hstep. simpl.
  rewrite Hrun. simpl. by rewrite Hr.
Qed.

Lemma run_new ops fuel :
  length ops < fuel →
  ∃ s' nil np' t',
    run_lock_coupled fuel ops (@RBTree_new K V _ _) = Some (s', expected (λ _, None) ops) ∧
    Inv nil np' s' t' ∧ (∀ k, assoc k (elems t') = bindings ops k) ∧
    height t' < fuel ∧ nil = NIL (@RBTree_new K V _ _).
Proof.
  intros Hf.
  destruct (run_spec ops fuel _ _ _ _ (λ _, None) RBTree_new_Inv ltac:(done) ltac:(simpl; lia))
    as (s' & np' & t' & Hrun & HI & Hm & Hs).
  exists s', (fresh_addr (∅ : gmap addr (Node K V))), np', t'. split_and!; try done.
  pose proof (height_le_size t'). simpl in Hs. lia.
Qed.

Lemma run_prefix fuel (p ops : list (Op K V)) s s' rs :
  p `prefix_of` ops → run_lock_coupled fuel ops s = Some (s', rs) →
  ∃ s1 rs1, run_lock_coupled fuel p s = Some (s1, rs1).
Proof.
  intros [q ->]. revert s s' rs. unfold run_lock_coupled.
  induction p as [|op p IH]; intros s s' rs; [by eauto|].
  cbn [app run_with].
  destruct (step_with _ _ _ fuel s op) as [[s1 r]|]; [|done]. simpl.
  destruct (run_with _ _ _ fuel (p ++ q) s1) as [[s2 rs2]|] eqn:Hrun; [|done].
  destruct (IH _ _ _ Hrun) as (s3 & rs3 & ->). simpl. eauto.
Qed.

(** *** The map of a sequence of operations *)
Lemma foldl_apply_op_other (m : K → option V) ops k :
  (∀ v, OpInsert k v ∉ ops) → OpErase k ∉ ops → foldl apply_op m ops k = m k.
Proof.
  revert m; induction ops as [|op ops IH]; intros m Hi He; [done|]. simpl.
  rewrite IH.
  - destruct op as [k' v'|k'|k']; simpl; try done.
    + rewrite decide_False; [done|]. intros ->. apply (Hi v'). left.
    + rewrite decide_False; [done|]. intros ->. apply He. left.
  - intros v Hin. apply (Hi v). by right.
  - intros Hin. apply He. by right.
Qed.

Lemma foldl_apply_op_None (m : K → option V) ops k :
  (∀ v, OpInsert k v ∉ ops) → m k = None → foldl apply_op m ops k = None.
Proof.
  revert m; induction ops as [|op ops IH]; intros m Hi Hm; [done|]. simpl.
  apply IH.
  - intros v Hin. apply (Hi v). by right.
  - destruct op as [k' v'|k'|k']; simpl; try done.
    + rewrite decide_False; [done|]. intros ->. apply (Hi v'). left.
    + by case_decide.
Qed.

Lemma bindings_last_insert ops1 k v ops2 :
  (∀ v', OpInsert k v' ∉ ops2) → OpErase k ∉ ops2 →
  bindings (ops1 ++ OpInsert k v :: ops2) k = Some v.
Proof.
  intros Hi He. unfold bindings. rewrite foldl_app. simpl.
  rewrite foldl_apply_op_other by done. by rewrite decide_True.
Qed.

Lemma bindings_never_inserted ops k :
  (∀ v, OpInsert k v ∉ ops) → bindings ops k = None.
Proof. intros Hi. by apply foldl_apply_op_None. Qed.

Lemma assoc_Some_elem_of k v (E : list (K * V)) : assoc k E = Some v → (k, v) ∈ E.
Proof.
  induction E as [|[k' v'] E IH]; [done|]. simpl. case_decide.
  - intros [= ->]. subst. left.
  - intros ?. right. auto.
Qed.

Lemma elem_of_assoc_is_Some k v (E : list (K * V)) : (k, v) ∈ E → is_Some (assoc k E).
Proof.
  induction E as [|[k' v'] E IH]; [by intros ?%elem_of_nil|]. simpl.
  intros [[= -> ->]|Hin]%elem_of_cons.
  - rewrite decide_True by done. by eexists.
  - case_decide; [by eexists|auto].
Qed.
End RunSpec.

(** A store given in full holds the tree written next to it. *)
Ltac rep_compute :=
  split;
    [ reflexivity | vm_compute; reflexivity | reflexivity
    | simpl; repeat split; vm_compute; reflexivity
    | simpl; compute_done
    | simpl; compute_done ].

Lemma black_root_Rep : Rep 1 0 black_root (ztree BLACK Leaf 2 5 50 Leaf).
Proof. rep_compute. Qed.

Lemma black_root_Inv : Inv 1 0 black_root (ztree BLACK Leaf 2 5 50 Leaf).
Proof.
  split; [exact black_root_Rep|reflexivity|exists 1; simpl; done|repeat constructor].
Qed.

Lemma red_root_Rep : Rep 1 0 red_root (ztree RED Leaf 2 5 50 Leaf).
Proof. rep_compute. Qed.

Lemma unordered_Rep : Rep 1 0 unordered unordered_tree.
Proof. rep_compute. Qed.

Lemma reversed_Rep : Rep 1 0 reversed reversed_tree.
Proof. rep_compute. Qed.

Lemma reversed_Inv : Inv 1 0 reversed reversed_tree.
Proof.
  split; [exact reversed_Rep|reflexivity|exists 1; simpl; done|].
  unfold sorted. simpl. repeat constructor.
Qed.

Lemma run_with_ext {K V : Type} (i1 i2 : nat → RBTree K V → K → V → option (RBTree K V))
    (e1 e2 : nat → RBTree K V → K → option (RBTree K V * bool))
    (l1 l2 : nat → RBTree K V → K → option (option V)) :
  (∀ fuel s k v, i1 fuel s k v = i2 fuel s k v) →
  (∀ fuel s k, e1 fuel s k = e2 fuel s k) →
  (∀ fuel s k, l1 fuel s k = l2 fuel s k) →
  ∀ fuel ops s, run_with i1 e1 l1 fuel ops s = run_with i2 e2 l2 fuel ops s.
Proof.
  intros Hi He Hl fuel ops. induction ops as [|op ops IH]; intros s; [done|].
  cbn [run_with]. destruct op as [k v|k|k]; simpl; rewrite ?Hi, ?He, ?Hl.
  - destruct (i2 fuel s k v); simpl; [|done]. by rewrite IH.
  - destruct (e2 fuel s k) as [[]|]; simpl; [|done]. by rewrite IH.
  - destruct (l2 fuel s k); simpl; [|done]. by rewrite IH.
Qed.

Section Claims.
Context {K V : Type} `{EqDecision K, Compare K, ValueInit K, ValueInit V}.
Context `{!StrictTotalOrder K}.
Implicit Types (s : RBTree K V) (t : tree K V) (k : K) (v : V) (ops : list (Op K V)).

(** C1.  From a newly constructed tree, after every operation of every
  sequence of operations run by one thread, [validate()] returns [true],
  and the tree is a red-black search tree: the root and the sentinel are
  black, no red node has a red child, every path from the root to the
  sentinel has the same number of black nodes, and the keys are in
  increasing order. *)
Theorem validate_after_every_operation ops (fuel : nat) :
length ops < fuel →
∀ p, p `prefix_of` ops →
  ∃ s rs, run_lock_coupled fuel p (@RBTree_new K V _ _) = Some (s, rs) ∧
          LockCoupled.validate fuel s = Some true ∧
          ∃ nil np t, Inv nil np s t.
Proof.
intros Hf p Hp. apply prefix_length in Hp.
destruct (run_new p fuel ltac:(lia)) as (s & nil & np & t & Hrun & HI & _ & Hh & _).
eexists s, _. split; [done|]. split; [by eapply validate_Inv|eauto].
Qed.

(** C2.  After every sequence of operations, [lookup(k)] returns the value
  of the last [insert(k, v)] if no [erase(k)] came after it, and nothing
  if [k] was never inserted; the results of the operations of the
  sequence are those of a map. *)
Theorem lookup_returns_latest_binding ops (fuel : nat) k :
length ops < fuel →
∃ s rs,
  run_lock_coupled fuel ops (@RBTree_new K V _ _) = Some (s, rs) ∧
  rs = expected (λ _, None) ops ∧
  (∀ ops1 v ops2,
     ops = ops1 ++ OpInsert k v :: ops2 →
     (∀ v', OpInsert k v' ∉ ops2) → OpErase k ∉ ops2 →
     ∃ tr, LockCoupled.lookup fuel s k = Some (Some v, tr)) ∧
  ((∀ v, OpInsert k v ∉ ops) →
     ∃ tr, LockCoupled.lookup fuel s k = Some (None, tr)).
Proof.
intros Hf.
destruct (run_new ops fuel Hf) as (s & nil & np & t & Hrun & HI & Hm & Hh & _).
eexists s, _. split; [done|]. split; [done|].
destruct (lookup_spec nil np s t k fuel HI Hh) as (tr & Hl). rewrite Hm in Hl.
split.
- intros ops1 v ops2 -> Hi He. exists tr. by rewrite bindings_last_insert in Hl.
- intros Hi. exists tr. by rewrite bindings_never_inserted in Hl.
Qed.

(** C4.  When [insert] finds no node with the key, the only exclusive lock
  it takes is on the mutex of the sentinel: the lock object that
  [upgrade()] is called on was moved from the lock of the last node of
  the descent, which is the sentinel. *)
Theorem insert_upgrades_sentinel_lock nil np s t k v (fuel : nat) :
Inv nil np s t → height t < fuel → assoc k (elems t) = None →
∃ s' tr, LockCoupled.insert fuel s k v = Some (s', tr) ∧
         ∀ m, LockUnique m ∈ tr ↔ m = NIL s.
Proof.
intros HI Hf Hk.
destruct (insert_spec nil np s t k v fuel HI Hf)
  as (s' & tr & t' & Hins & _ & _ & _ & _ & _ & Hu & _).
exists s', tr. split; [done|]. destruct HI as [[-> _ _ _ _ _] _ _ _]. by apply Hu.
Qed.

(** C5.  On every store that holds a tree, [validate()] returns [true]
  exactly when no red node has a red child, every path from the root to
  the sentinel has the same number of black nodes, and no node has a key
  before that of its left child or after that of its right child.  It
  returns a boolean and nothing else: the store is not changed. *)
Theorem validate_characterisation nil np s t (fuel : nat) :
Rep nil np s t → height t < fuel →
∃ b, LockCoupled.validate fuel s = Some b ∧
     (b = true ↔ (∃ n, rb n t) ∧ local_order t).
Proof.
intros HR Hf. destruct (validate_spec nil np s t fuel HR Hf) as (b & Hv & Hb).
exists b. split; [done|]. rewrite Hb. tauto.
Qed.

(** C6.  [erase(k)] of a key that no node holds returns [false] and leaves
  the store as it was, on every store that holds a tree; on a red-black
  search tree it returns [true] exactly when a node holds [k], and the
  tree it leaves holds the other bindings and none for [k]. *)
Theorem erase_absent_key nil np s t k (fuel : nat) :
Rep nil np s t → height t < fuel →
((∀ e, e ∈ elems t → e.1 ≠ k) → LockCoupled.erase fuel s k = Some (s, false)) ∧
(tcolor t = BLACK → (∃ n, rb n t) → sorted t →
 ∃ s' b np' t',
   LockCoupled.erase fuel s k = Some (s', b) ∧
   (b = true ↔ ∃ v, (k, v) ∈ elems t) ∧
   (b = false → s' = s) ∧
   Inv nil np' s' t' ∧
   (∀ k', assoc k' (elems t') = if decide (k' = k) then None else assoc k' (elems t))).
Proof.
intros HR Hf. split; [intros Hk; by apply (erase_absent nil np s t)|].
intros Hb Hrb HS.
destruct (erase_spec nil np s t k fuel ltac:(by split) Hf)
  as (s' & b & np' & t' & He & HI & Hm & Hbt & Hbf & _).
exists s', b, np', t'. split_and!; try done. rewrite Hbt. split.
- intros [v Hv]. exists v. by apply assoc_Some_elem_of.
- intros [v Hv]. by eapply elem_of_assoc_is_Some.
Qed.

(** C7.  A [lookup], and an [insert], is a descent by lock coupling along
  the nodes that the search for the key visits: the lock of the child that
  the search moves to is taken before the lock of the current node is
  released, which is the next thing done; at every instant the thread
  holds at most two node locks. *)
Theorem at_most_two_locks_held nil np s t k v (fuel : nat) :
Inv nil np s t → height t < fuel →
(∃ r tr path,
   LockCoupled.lookup fuel s k = Some (r, tr) ∧
   visits s k (root s) path ∧
   tr = LockShared (root s) :: coupled (root s) path lookup_tail ∧
   ∀ p, p `prefix_of` tr → length (held p) ≤ 2) ∧
(∃ s' tr path,
   LockCoupled.insert fuel s k v = Some (s', tr) ∧
   visits s k (root s) path ∧
   tr = LockShared (root s) :: coupled (root s) path insert_tail ∧
   ∀ p, p `prefix_of` tr → length (held p) ≤ 2).
Proof.
intros HI Hf. split.
- destruct (lookup_spec nil np s t k fuel HI Hf) as (tr & Hl).
  destruct (lookup_locks_spec _ _ _ _ _ Hl) as (_ & Hpk & _).
  destruct (lookup_visits _ _ _ _ _ Hl) as (path & Hv & Hpath).
  eexists _, tr, path. split_and!; [done|done|done|]. intros p Hp.
  pose proof (peak_prefix [] p tr Hp). unfold held. lia.
- destruct (insert_spec nil np s t k v fuel HI Hf)
    as (s' & tr & t' & Hins & _ & _ & _ & _ & Hpk & _).
  destruct (insert_visits nil np s t k v fuel s' tr ltac:(by destruct HI) Hins)
    as (path & Hv & Hpath).
  exists s', tr, path. split_and!; [done|done|done|]. intros p Hp.
  pose proof (peak_prefix [] p tr Hp). unfold held. lia.
Qed.

(** C9.  The three classes return the same results and leave the same store
  after every sequence of operations, and with enough fuel they return. *)
Theorem three_variants_agree ops (fuel : nat) :
(∀ s, run_race_free fuel ops s = run_lock_coupled fuel ops s ∧
      run_epoch_based fuel ops s = run_lock_coupled fuel ops s) ∧
(length ops < fuel →
 ∃ s rs, run_lock_coupled fuel ops (@RBTree_new K V _ _) = Some (s, rs)).
Proof.
split.
- intros s. split.
  + apply run_with_ext; intros.
    * apply RaceFree_insert.
    * apply RaceFree_erase.
    * apply RaceFree_lookup.
  + apply run_with_ext; intros.
    * apply EpochBased_insert.
    * apply EpochBased_erase.
    * apply EpochBased_lookup.
- intros Hf. destruct (run_new ops fuel Hf) as (s & nil & np & t & Hrun & _). eauto.
Qed.

(** The sentinel after a sequence of operations. *)
Lemma sentinel_after ops (fuel : nat) :
length ops < fuel →
∃ s rs,
  run_lock_coupled fuel ops (@RBTree_new K V _ _) = Some (s, rs) ∧
  NIL s = NIL (@RBTree_new K V _ _) ∧
  key s.[NIL s] = value_init ∧ val s.[NIL s] = value_init ∧
  color s.[NIL s] = BLACK ∧ left s.[NIL s] = nullptr ∧ right s.[NIL s] = nullptr.
Proof.
intros Hf.
destruct (run_new ops fuel Hf) as (s & nil & np & t & Hrun & HI & _ & _ & Hnil).
eexists s, _. split; [done|]. destruct HI as [HR _ _ _].
pose proof HR as [HN _ _ _ _ _]. rewrite HN, (Rep_read_nil _ _ _ _ HR). by subst.
Qed.
End Claims.

(** C3.  [upgrade()] releases the shared lock and then takes the exclusive
    lock: between the two the thread holds no lock on the mutex. *)
Theorem upgrade_leaves_unlocked_window (mtx : addr) :
  held (LockCoupled.UpgradeLock_ctor mtx).2 = [mtx] ∧
  (LockCoupled.upgrade (LockCoupled.UpgradeLock_ctor mtx).1).2 =
    [UnlockShared mtx; LockUnique mtx] ∧
  held ((LockCoupled.UpgradeLock_ctor mtx).2 ++ [UnlockShared mtx]) = [] ∧
  held ((LockCoupled.UpgradeLock_ctor mtx).2 ++
        (LockCoupled.upgrade (LockCoupled.UpgradeLock_ctor mtx).1).2) = [mtx].
Proof.
  unfold held. simpl. rewrite !decide_True by done. done.
Qed.

(** C10.  After every sequence of operations the key, the value, the
    colour and the two child links of the sentinel are those the
    constructor gave it; its parent link is not: after [insert(1, 10)] and
    [erase(1)] it is the sentinel itself. *)
Theorem sentinel_fields_preserved :
  (∀ (K V : Type) `{EqDecision K, Compare K, ValueInit K, ValueInit V}
     `{!StrictTotalOrder K} (ops : list (Op K V)) (fuel : nat),
     length ops < fuel →
     ∃ s rs,
       run_lock_coupled fuel ops (@RBTree_new K V _ _) = Some (s, rs) ∧
       NIL s = NIL (@RBTree_new K V _ _) ∧
       key s.[NIL s] = value_init ∧ val s.[NIL s] = value_init ∧
       color s.[NIL s] = BLACK ∧ left s.[NIL s] = nullptr ∧ right s.[NIL s] = nullptr) ∧
  (∃ s rs,
     run_lock_coupled 3 [OpInsert 1%Z 10%Z; OpErase 1%Z] (@RBTree_new Z Z _ _) = Some (s, rs) ∧
     parent (@RBTree_new Z Z _ _).[NIL (@RBTree_new Z Z _ _)] = nullptr ∧
     parent s.[NIL s] = NIL s ∧ NIL s ≠ nullptr).
Proof.
  split.
  - intros. by apply sentinel_after.
  - vm_compute. eexists _, _. split; [reflexivity|]. vm_compute. done.
Qed.

(** ** The theorems at integer keys *)

Lemma validate_after_every_operation_witness :
  length example_ops < 7 ∧ example_ops `prefix_of` example_ops ∧
  ∃ s rs, run_lock_coupled 7 example_ops (@RBTree_new Z Z _ _) = Some (s, rs) ∧
          LockCoupled.validate 7 s = Some true ∧
          ∃ nil np t, Inv nil np s t.
Proof.
  split; [vm_compute; lia|]. split; [reflexivity|].
  apply (validate_after_every_operation example_ops 7); [vm_compute; lia|reflexivity].
Defined.

Lemma lookup_returns_latest_binding_witness :
  length example_ops < 7 ∧
  ∃ s rs,
    run_lock_coupled 7 example_ops (@RBTree_new Z Z _ _) = Some (s, rs) ∧
    rs = expected (λ _, None) example_ops ∧
    (∀ ops1 v ops2,
       example_ops = ops1 ++ OpInsert 2%Z v :: ops2 →
       (∀ v', OpInsert 2%Z v' ∉ ops2) → OpErase 2%Z ∉ ops2 →
       ∃ tr, LockCoupled.lookup 7 s 2%Z = Some (Some v, tr)) ∧
    ((∀ v, OpInsert 2%Z v ∉ example_ops) →
       ∃ tr, LockCoupled.lookup 7 s 2%Z = Some (None, tr)).
Proof.
  split; [vm_compute; lia|].
  apply (lookup_returns_latest_binding example_ops 7 2%Z). vm_compute; lia.
Defined.

Lemma insert_upgrades_sentinel_lock_witness :
  Inv 1 0 black_root (ztree BLACK Leaf 2 5 50 Leaf) ∧
  height (ztree BLACK Leaf 2 5 50 Leaf) < 2 ∧
  assoc 1%Z (elems (ztree BLACK Leaf 2 5 50 Leaf)) = None ∧
  ∃ s' tr, LockCoupled.insert 2 black_root 1%Z 10%Z = Some (s', tr) ∧
           ∀ m, LockUnique m ∈ tr ↔ m = NIL black_root.
Proof.
  split; [exact black_root_Inv|]. split; [vm_compute; lia|]. split; [reflexivity|].
  apply (insert_upgrades_sentinel_lock 1 0 black_root (ztree BLACK Leaf 2 5 50 Leaf) 1%Z 10%Z 2).
  - exact black_root_Inv.
  - vm_compute; lia.
  - reflexivity.
Defined.

(** The locks of [insert(1, 10)] into the tree that holds the key [5] at
    the node [2], the sentinel being the node [1]. *)
Lemma insert_trace_black_root :
  snd <$> LockCoupled.insert 2 black_root 1%Z 10%Z =
  Some [LockShared 2; LockShared 1; UnlockShared 2;
        UnlockShared 1; LockUnique 1; UnlockUnique 1].
Proof. vm_compute. reflexivity. Qed.

Lemma validate_characterisation_witness :
  Rep 1 0 red_root (ztree RED Leaf 2 5 50 Leaf) ∧
  height (ztree RED Leaf 2 5 50 Leaf) < 2 ∧
  ∃ b, LockCoupled.validate 2 red_root = Some b ∧
       (b = true ↔ (∃ n, rb n (ztree RED Leaf 2 5 50 Leaf)) ∧
                   local_order (ztree RED Leaf 2 5 50 Leaf)).
Proof.
  split; [exact red_root_Rep|]. split; [vm_compute; lia|].
  apply (validate_characterisation 1 0 red_root (ztree RED Leaf 2 5 50 Leaf) 2).
  - exact red_root_Rep.
  - vm_compute; lia.
Defined.

(** [validate()] returns [true] on a tree with a red root, and on a tree
    whose keys are not in order. *)
Lemma validate_accepts_red_root :
  (Rep 1 0 red_root (ztree RED Leaf 2 5 50 Leaf) ∧
   LockCoupled.validate 2 red_root = Some true ∧
   color red_root.[root red_root] = RED) ∧
  (Rep 1 0 unordered unordered_tree ∧
   LockCoupled.validate 4 unordered = Some true ∧
   ¬ sorted unordered_tree).
Proof.
  split; (split; [rep_compute|]); (split; [vm_compute; reflexivity|]).
  - vm_compute. reflexivity.
  - intros HS. unfold sorted in HS. simpl in HS.
    apply StronglySorted_inv in HS as [HS _]. apply StronglySorted_inv in HS as [_ Hall].
    apply Forall_cons in Hall as [Hlt _]. vm_compute in Hlt. discriminate.
Qed.

Lemma erase_absent_key_witness :
  Rep 1 0 black_root (ztree BLACK Leaf 2 5 50 Leaf) ∧
  height (ztree BLACK Leaf 2 5 50 Leaf) < 2 ∧
  ((∀ e, e ∈ elems (ztree BLACK Leaf 2 5 50 Leaf) → e.1 ≠ 7%Z) →
   LockCoupled.erase 2 black_root 7%Z = Some (black_root, false)) ∧
  (tcolor (ztree BLACK Leaf 2 5 50 Leaf) = BLACK →
   (∃ n, rb n (ztree BLACK Leaf 2 5 50 Leaf)) → sorted (ztree BLACK Leaf 2 5 50 Leaf) →
   ∃ s' b np' t',
     LockCoupled.erase 2 black_root 7%Z = Some (s', b) ∧
     (b = true ↔ ∃ v, (7%Z, v) ∈ elems (ztree BLACK Leaf 2 5 50 Leaf)) ∧
     (b = false → s' = black_root) ∧
     Inv 1 np' s' t' ∧
     (∀ k', assoc k' (elems t') =
            if decide (k' = 7%Z) then None
            else assoc k' (elems (ztree BLACK Leaf 2 5 50 Leaf)))).
Proof.
  split; [exact black_root_Rep|]. split; [vm_compute; lia|].
  apply (erase_absent_key 1 0 black_root (ztree BLACK Leaf 2 5 50 Leaf) 7%Z 2).
  - exact black_root_Rep.
  - vm_compute; lia.
Defined.

Lemma at_most_two_locks_held_witness :
  Inv 1 0 reversed reversed_tree ∧
  height reversed_tree < 3 ∧
  (∃ r tr path,
     LockCoupled.lookup 3 reversed 3%Z = Some (r, tr) ∧
     visits reversed 3%Z (root reversed) path ∧
     tr = LockShared (root reversed) :: coupled (root reversed) path lookup_tail ∧
     ∀ p, p `prefix_of` tr → length (held p) ≤ 2) ∧
  (∃ s' tr path,
     LockCoupled.insert 3 reversed 3%Z 31%Z = Some (s', tr) ∧
     visits reversed 3%Z (root reversed) path ∧
     tr = LockShared (root reversed) :: coupled (root reversed) path insert_tail ∧
     ∀ p, p `prefix_of` tr → length (held p) ≤ 2).
Proof.
  split; [exact reversed_Inv|]. split; [vm_compute; lia|].
  apply (at_most_two_locks_held 1 0 reversed reversed_tree 3%Z 31%Z 3).
  - exact reversed_Inv.
  - vm_compute; lia.
Defined.

Lemma three_variants_agree_witness :
  (∀ s, run_race_free 7 example_ops s = run_lock_coupled 7 example_ops s ∧
        run_epoch_based 7 example_ops s = run_lock_coupled 7 example_ops s) ∧
  (length example_ops < 7 →
   ∃ s rs, run_lock_coupled 7 example_ops (@RBTree_new Z Z _ _) = Some (s, rs)).
Proof. exact (three_variants_agree example_ops 7). Defined.

Lemma sentinel_fields_preserved_witness :
  length example_ops < 7 ∧
  ∃ s rs,
    run_lock_coupled 7 example_ops (@RBTree_new Z Z _ _) = Some (s, rs) ∧
    NIL s = NIL (@RBTree_new Z Z _ _) ∧
    key s.[NIL s] = value_init ∧ val s.[NIL s] = value_init ∧
    color s.[NIL s] = BLACK ∧ left s.[NIL s] = nullptr ∧ right s.[NIL s] = nullptr.
Proof.
  split; [vm_compute; lia|].
  apply (proj1 sentinel_fields_preserved Z Z _ _ _ _ _ example_ops 7). vm_compute; lia.
Defined.

(** * Further properties of the code *)

(** ** Balance: the height of a red-black tree *)
Section Balance.
Context {K V : Type}.
Implicit Types (t : tree K V).

Lemma rb_height n t :
  rb n t → height t ≤ 2 * n + match tcolor t with RED => 1 | BLACK => 0 end.
Proof.
  revert n; induction t as [|c l IHl a k v r IHr]; intros n; simpl.
  { intros ->. lia. }
  destruct c.
  - intros (Hl & Hr & Hrl & Hrr). specialize (IHl _ Hrl). specialize (IHr _ Hrr).
    rewrite Hl in IHl. rewrite Hr in IHr. lia.
  - destruct n as [|m]; [done|]. intros [Hrl Hrr].
    specialize (IHl _ Hrl). specialize (IHr _ Hrr).
    destruct (tcolor l), (tcolor r); lia.
Qed.

Lemma rb_size n t : rb n t → 2 ^ n ≤ S (size t).
Proof.
  revert n; induction t as [|c l IHl a k v r IHr]; intros n; simpl.
  { intros ->. simpl. lia. }
  destruct c.
  - intros (_ & _ & Hrl & Hrr). specialize (IHl _ Hrl). lia.
  - destruct n as [|m]; [done|]. intros [Hrl Hrr].
    specialize (IHl _ Hrl). specialize (IHr _ Hrr).
    rewrite Nat.pow_succ_r'. lia.
Qed.

Lemma rb_height_log2 n t :
  rb n t → tcolor t = BLACK → height t ≤ 2 * Nat.log2 (S (size t)).
Proof.
  intros Hrb Hc. pose proof (rb_height n t Hrb) as Hh. rewrite Hc in Hh.
  pose proof (rb_size n t Hrb) as Hs.
  assert (n ≤ Nat.log2 (S (size t))); [|lia].
  rewrite <- (Nat.log2_pow2 n) by lia. by apply Nat.log2_le_mono.
Qed.
End Balance.

(** ** Allocation: which addresses hold a node *)
Section Footprint.
Context {K V : Type} `{EqDecision K, Compare K, ValueInit K, ValueInit V}.
Implicit Types (s : RBTree K V) (t : tree K V) (k : K) (v : V)
  (C : list (frame K V)).

Lemma dom_store s a f : dom (heap (store s a f)) = dom (heap s).
Proof. unfold store. simpl. apply dom_alter_L. Qed.

Lemma dom_set_root s r : dom (heap (set_root s r)) = dom (heap s).
Proof. done. Qed.

End Footprint.

Ltac dom_simpl :=
  repeat first
    [ done
    | rewrite dom_set_root
    | rewrite dom_store
    | progress unfold set_val, set_color, set_parent, set_left, set_right
    | case_decide
    | match goal with |- context [if comp ?a ?b then _ else _] => destruct (comp a b) end ].

Section Footprint.
Context {K V : Type} `{EqDecision K, Compare K, ValueInit K, ValueInit V}.
Implicit Types (s : RBTree K V) (t : tree K V) (k : K) (v : V)
  (C : list (frame K V)).

Lemma dom_left_rotate s x : dom (heap (left_rotate s x)) = dom (heap s).
Proof. unfold left_rotate. cbv zeta. dom_simpl. Qed.

Lemma dom_right_rotate s x : dom (heap (right_rotate s x)) = dom (heap s).
Proof. unfold right_rotate. cbv zeta. dom_simpl. Qed.

Lemma dom_transplant s (u w : addr) : dom (heap (transplant s u w)) = dom (heap s).
Proof. unfold transplant. cbv zeta. dom_simpl. Qed.

End Footprint.

Ltac dom_atom :=
  unfold set_val, set_color, set_parent, set_left, set_right;
  repeat first
    [ rewrite dom_store | rewrite dom_set_root | rewrite dom_left_rotate
    | rewrite dom_right_rotate | rewrite dom_transplant ];
  first [assumption | reflexivity].

(** One [let] at a time: a state that a [let] binds becomes a variable
    with the same domain. *)
Ltac dom_run D :=
  repeat first
    [ match goal with
      | |- context G [let x := ?e in @?b x] =>
        lazymatch type of e with
        | RBTree _ _ =>
          let Hd := fresh "Hd" in
          assert (dom (heap e) = D) as Hd by dom_atom;
          let s1 := fresh "s" in
          pose (s1 := e); change e with s1 in Hd;
          (let g := context G [b s1] in change g); cbv beta; clearbody s1
        | _ => (let g := context G [b e] in change g); cbv beta
        end
      end
    | case_decide
    | match goal with |- context [if comp ?a ?b then _ else _] => destruct (comp a b) end
    | progress cbn iota beta ].

Section Footprint.
Context {K V : Type} `{EqDecision K, Compare K, ValueInit K, ValueInit V}.
Implicit Types (s : RBTree K V) (t : tree K V) (k : K) (v : V)
  (C : list (frame K V)).

Lemma dom_insert_fixup_body (st : RBTree K V * addr) D :
  dom (heap st.1) = D →
  match insert_fixup_body st with
  | inl st' => dom (heap st'.1) = D
  | inr s' => dom (heap s') = D
  end.
Proof.
  destruct st as [s z]. intros HD. cbv beta iota delta [fst] in HD.
  cbv beta iota delta [insert_fixup_body].
  dom_run D. all: cbv beta iota delta [fst]; dom_atom.
Qed.

Lemma dom_insert_fixup fuel s (z : addr) s' :
  insert_fixup fuel s z = Some s' → dom (heap s') = dom (heap s).
Proof.
  unfold insert_fixup. destruct (loop fuel insert_fixup_body (s, z)) as [s1|] eqn:Hloop; [|done].
  simpl. intros [= <-].
  apply (loop_partial _ (λ st, dom (heap st.1) = dom (heap s))
           (λ s1, dom (heap s1) = dom (heap s))) in Hloop; [|..|done].
  - simpl in Hloop. dom_atom.
  - intros st Hst. pose proof (dom_insert_fixup_body st _ Hst) as Hb.
    by destruct (insert_fixup_body st).
Qed.

Lemma dom_delete_fixup_body (st : RBTree K V * addr) D :
  dom (heap st.1) = D →
  match delete_fixup_body st with
  | inl st' => dom (heap st'.1) = D
  | inr st' => dom (heap st'.1) = D
  end.
Proof.
  destruct st as [s z]. intros HD. cbv beta iota delta [fst] in HD.
  cbv beta iota delta [delete_fixup_body].
  dom_run D. all: cbv beta iota delta [fst]; dom_atom.
Qed.

Lemma dom_delete_fixup fuel s (x : addr) s' :
  delete_fixup fuel s x = Some s' → dom (heap s') = dom (heap s).
Proof.
  unfold delete_fixup.
  destruct (loop fuel delete_fixup_body (s, x)) as [[s1 x1]|] eqn:Hloop; [|done].
  simpl. intros [= <-].
  apply (loop_partial _ (λ st, dom (heap st.1) = dom (heap s))
           (λ st, dom (heap st.1) = dom (heap s))) in Hloop; [|..|done].
  - simpl in Hloop. dom_atom.
  - intros st Hst. pose proof (dom_delete_fixup_body st _ Hst) as Hb.
    by destruct (delete_fixup_body st).
Qed.

Lemma dom_erase_unlink fuel s (z : addr) s1 x c :
  erase_unlink fuel s z = Some (s1, x, c) → dom (heap s1) = dom (heap s).
Proof.
  assert (dom (heap s) = dom (heap s)) as HD by done. revert HD.
  generalize (dom (heap s)) at 2 3. intros D HD.
  cbv beta iota delta [erase_unlink].
  destruct (decide (left s.[z] = NIL s)); [|destruct (decide (right s.[z] = NIL s))].
  - dom_run D. intros [= <- _ _]. dom_atom.
  - dom_run D. intros [= <- _ _]. dom_atom.
  - dom_run D. destruct (minimum fuel s _) as [y|]; [|done].
    cbv beta iota delta [mbind option_bind erase_two_children].
    dom_run D. all: intros [= <- _ _]; dom_atom.
Qed.

(** *** Counting bindings by their keys *)
Lemma elem_of_keys_assoc k (E : list (K * V)) : k ∈ E.*1 ↔ is_Some (assoc k E).
Proof.
  induction E as [|[k' v'] E IH]; simpl.
  - split; [by intros ?%elem_of_nil|by intros [? ?]].
  - rewrite elem_of_cons, IH. case_decide.
    + split; [by eexists|by left].
    + split; [by intros [?|?]|by right].
Qed.

Lemma length_by_keys (E E' : list (K * V)) :
  NoDup E.*1 → NoDup E'.*1 → (∀ k, k ∈ E.*1 ↔ k ∈ E'.*1) → length E = length E'.
Proof.
  intros HE HE' Hk. rewrite <- (length_fmap fst E), <- (length_fmap fst E').
  apply Permutation_length. by apply NoDup_Permutation.
Qed.

Lemma length_addrs t : length (addrs t) = size t.
Proof. induction t; simpl; [done|]. rewrite length_app. lia. Qed.

Lemma Tight_count nil np s t :
  Rep nil np s t → Tight nil s t ↔ allocated_nodes s = S (size t).
Proof.
  intros [HN Hsen Hroot Hrep Hnd Hnil]. unfold Tight, allocated_nodes.
  assert (NoDup (nil :: addrs t)) as Hnd' by (by apply NoDup_cons).
  assert (base.size (list_to_set (nil :: addrs t) : gset addr) = S (size t)) as Hsz.
  { rewrite size_list_to_set by done. simpl. by rewrite length_addrs. }
  split; [by intros ->|]. intros Hs.
  symmetry. apply set_subseteq_size_eq.
  - intros a [->|Ha]%elem_of_list_to_set%elem_of_cons; apply elem_of_dom.
    + by eexists.
    + by eapply rep_allocated.
  - rewrite Hs, Hsz. done.
Qed.
End Footprint.

Section FootprintOps.
Context {K V : Type} `{EqDecision K, Compare K, ValueInit K, ValueInit V}.
Context `{!StrictTotalOrder K}.
Implicit Types (s : RBTree K V) (t : tree K V) (k : K) (v : V)
  (C : list (frame K V)).

Lemma sorted_keys_NoDup (E : list (K * V)) : StronglySorted klt E → NoDup E.*1.
Proof.
  induction 1 as [|e E HS IH Hall]; simpl; [constructor|].
  apply NoDup_cons. split; [|done].
  intros (e' & Heq & Hin)%list_elem_of_fmap_1. rewrite Forall_forall in Hall.
  specialize (Hall _ Hin). unfold klt in Hall. rewrite Heq, comp_irrefl in Hall. done.
Qed.

Lemma insert_length (E E' : list (K * V)) k v :
  StronglySorted klt E → StronglySorted klt E' →
  (∀ k', assoc k' E' = if decide (k' = k) then Some v else assoc k' E) →
  length E' = match assoc k E with Some _ => 0 | None => 1 end + length E.
Proof.
  intros HS HS' Hm. destruct (assoc k E) as [v0|] eqn:Hk; simpl.
  - apply length_by_keys; [by apply sorted_keys_NoDup..|].
    intros k'. rewrite !elem_of_keys_assoc, Hm. case_decide; [|done].
    subst. rewrite Hk. split; by eexists.
  - change (S (length E)) with (length ((k, v) :: E)).
    apply length_by_keys; [by apply sorted_keys_NoDup| |].
    + simpl. apply NoDup_cons. split; [|by apply sorted_keys_NoDup].
      rewrite elem_of_keys_assoc, Hk. by intros [? ?].
    + intros k'. simpl. rewrite elem_of_cons, !elem_of_keys_assoc, Hm.
      case_decide; [split; [by left|by eexists]|]. split; [by right|by intros [?|?]].
Qed.

Lemma erase_length (E E' : list (K * V)) k :
  StronglySorted klt E → StronglySorted klt E' →
  (∀ k', assoc k' E' = if decide (k' = k) then None else assoc k' E) →
  length E = match assoc k E with Some _ => 1 | None => 0 end + length E'.
Proof.
  intros HS HS' Hm. destruct (assoc k E) as [v0|] eqn:Hk; simpl.
  - change (S (length E')) with (length ((k, v0) :: E')).
    apply length_by_keys; [by apply sorted_keys_NoDup| |].
    + simpl. apply NoDup_cons. split; [|by apply sorted_keys_NoDup].
      rewrite elem_of_keys_assoc, Hm, decide_True by done. by intros [? ?].
    + intros k'. simpl. rewrite elem_of_cons, !elem_of_keys_assoc, Hm.
      case_decide; [subst; rewrite Hk; split; [by left|by eexists]|].
      split; [by right|by intros [?|?]].
  - apply length_by_keys; [by apply sorted_keys_NoDup..|].
    intros k'. rewrite !elem_of_keys_assoc, Hm. case_decide; [|done].
    subst. rewrite Hk. done.
Qed.

(** *** What [insert] and [erase] allocate and free *)
Lemma insert_footprint nil np s t k v fuel s' tr :
  Rep nil np s t → sorted t → height t < fuel →
  insert fuel s k v = Some (s', tr) →
  match assoc k (elems t) with
  | Some _ => dom (heap s') = dom (heap s)
  | None => dom (heap s') = {[fresh_addr (heap s)]} ∪ dom (heap s) ∧
            fresh_addr (heap s) ∉ dom (heap s)
  end.
Proof.
  intros HR Hsorted Hfuel. cbv beta iota delta [insert].
  destruct (new_node_Rep nil np s t k v RED HR) as (HR1 & Hz & Hzt & Hzn).
  assert (dom (heap (new_node s k v RED).1) = {[fresh_addr (heap s)]} ∪ dom (heap s)) as Hdom.
  { unfold new_node. simpl. by rewrite dom_insert_L. }
  assert ((new_node s k v RED).2 = fresh_addr (heap s)) as Hzeq by done.
  assert (fresh_addr (heap s) ∉ dom (heap s)) as Hfresh.
  { intros Hin. apply (is_fresh ({[nullptr]} ∪ dom (heap s))).
    apply elem_of_union. by right. }
  destruct (new_node s k v RED) as [s1 z]. simpl in HR1, Hz, Hzt, Hzn, Hdom, Hzeq. subst z.
  set (z := fresh_addr (heap s)) in *.
  pose proof HR1 as [HN1 _ _ _ _ _].
  cbv beta iota zeta.
  repeat (change (NIL (set_parent ?a ?b ?c)) with (NIL a) ||
          change (NIL (set_right ?a ?b ?c)) with (NIL a) ||
          change (NIL (set_left ?a ?b ?c)) with (NIL a)).
  rewrite HN1.
  set (s4 := set_left (set_right (set_parent s1 z nil) z nil) z nil).
  assert (Rep nil np s4 t) as HR4 by (by do 3 (apply Rep_store_out; [done|done|])).
  assert (dom (heap s4) = {[z]} ∪ dom (heap s)) as Hdom4.
  { unfold s4, set_left, set_right, set_parent. by rewrite !dom_store. }
  assert (NIL s4 = nil) as HN4 by done.
  clearbody s4. clear HR1 Hz HN1 Hdom s1.
  destruct (UpgradeLock_ctor (root s4)) as [lk e0] eqn:Hctor.
  destruct (insert_descent nil np s4 t k fuel lk e0 HR4 Hfuel) as (d & Hloop & Hd).
  rewrite Hloop. simpl.
  destruct d as [x lk' tr'|y x lk' tr']; simpl in Hd.
  - destruct Hd as (C & c & l & v0 & r & -> & HP).
    rewrite (assoc_found k C c l x v0 r Hsorted HP).
    destruct (upgrade lk') as [lk2 e2]. intros [= <- _]. simpl.
    rewrite dom_delete_L, dom_alter_L, Hdom4. apply set_eq. intros a.
    rewrite elem_of_difference, elem_of_union, !elem_of_singleton.
    split; [by intros [[->|?] ?]|]. intros Ha. split; [by right|by intros ->].
  - destruct Hd as (C & -> & HP & -> & ->).
    rewrite (assoc_leaf k C Hsorted HP).
    destruct (upgrade lk') as [lk2 e2].
    match goal with |- context [insert_fixup fuel ?s5 z] =>
      destruct (insert_fixup fuel s5 z) as [s6|] eqn:Hfix; [|done];
      apply dom_insert_fixup in Hfix
    end.
    simpl. intros [= <- _]. split; [|done]. rewrite Hfix.
    case_decide; [|destruct (comp _ _)]; by dom_atom.
Qed.

Lemma erase_footprint nil np s t k fuel s' b :
  Rep nil np s t → height t < fuel →
  erase fuel s k = Some (s', b) →
  if b then ∃ z, z ∈ dom (heap s) ∧ dom (heap s') = dom (heap s) ∖ {[z]}
  else s' = s.
Proof.
  intros HR Hfuel. rewrite erase_parts.
  destruct (erase_search nil np s t k fuel HR Hfuel)
    as (z & Hloop & C & t1 & -> & Hz & HP & Hpost).
  rewrite Hloop. simpl. pose proof HR as [HN _ _ _ _ _]. rewrite HN.
  destruct Hpost as [->|(c & l & v & r & ->)]; simpl in Hz; [subst z|clear Hz].
  { rewrite decide_True by done. by intros [= <- <-]. }
  pose proof (Rep_nd _ _ _ _ _ HR) as [_ Hnil].
  nd_hyp Hnil. rewrite decide_False by nd_atom.
  destruct (erase_unlink fuel s z) as [[[s1 x] c']|] eqn:Hun; [|done]. simpl.
  apply dom_erase_unlink in Hun.
  assert (z ∈ dom (heap s)) as Hzd.
  { apply elem_of_dom. rewrite (Rep_lookup _ _ _ _ _ _ _ _ _ _ HR). by eexists. }
  case_decide.
  - destruct (delete_fixup fuel (delete_node s1 z) x) as [s3|] eqn:Hfix; [|done].
    apply dom_delete_fixup in Hfix. simpl. intros [= <- <-].
    exists z. split; [done|]. rewrite Hfix. simpl. by rewrite dom_delete_L, Hun.
  - intros [= <- <-]. exists z. split; [done|]. simpl. by rewrite dom_delete_L, Hun.
Qed.

(** *** The operations keep the footprint exact *)
Lemma insert_Tight nil np s t k v fuel :
  Inv nil np s t → Tight nil s t → height t < fuel →
  ∃ s' tr t',
    insert fuel s k v = Some (s', tr) ∧ Inv nil np s' t' ∧ Tight nil s' t' ∧
    (∀ k', assoc k' (elems t') = if decide (k' = k) then Some v else assoc k' (elems t)) ∧
    size t' = match assoc k (elems t) with Some _ => 0 | None => 1 end + size t.
Proof.
  intros HI HT Hf.
  destruct (insert_spec nil np s t k v fuel HI Hf) as (s' & tr & t' & Hi & HI' & Hm & _).
  exists s', tr, t'. split; [done|]. split; [done|].
  pose proof HI as [HR _ _ HS]. pose proof HI' as [HR' _ _ HS'].
  pose proof (insert_length _ _ k v HS HS' Hm) as Hlen.
  rewrite <- !size_elems in Hlen.
  split_and!; [|done|done].
  apply (Tight_count nil np); [done|]. apply (Tight_count nil np) in HT; [|done].
  pose proof (insert_footprint nil np s t k v fuel s' tr HR HS Hf Hi) as Hd.
  unfold allocated_nodes in *. rewrite Hlen.
  destruct (assoc k (elems t)).
  - by rewrite Hd, HT.
  - destruct Hd as [-> Hfresh]. rewrite size_union by (by apply disjoint_singleton_l).
    rewrite size_singleton, HT. done.
Qed.

Lemma erase_Tight nil np s t k fuel :
  Inv nil np s t → Tight nil s t → height t < fuel →
  ∃ s' b np' t',
    erase fuel s k = Some (s', b) ∧ Inv nil np' s' t' ∧ Tight nil s' t' ∧
    (∀ k', assoc k' (elems t') = if decide (k' = k) then None else assoc k' (elems t)) ∧
    (b = true ↔ is_Some (assoc k (elems t))) ∧
    size t = match assoc k (elems t) with Some _ => 1 | None => 0 end + size t'.
Proof.
  intros HI HT Hf.
  destruct (erase_spec nil np s t k fuel HI Hf)
    as (s' & b & np' & t' & He & HI' & Hm & Hb & Hbf & _).
  exists s', b, np', t'. split; [done|]. split; [done|].
  pose proof HI as [HR _ _ HS]. pose proof HI' as [HR' _ _ HS'].
  pose proof (erase_length _ _ k HS HS' Hm) as Hlen.
  rewrite <- !size_elems in Hlen.
  split_and!; [|done|done|done].
  apply (Tight_count nil np'); [done|]. apply (Tight_count nil np) in HT; [|done].
  pose proof (erase_footprint nil np s t k fuel s' b HR Hf He) as Hd.
  unfold allocated_nodes in *.
  destruct b.
  - destruct Hd as (z & Hz & ->). destruct (proj1 Hb eq_refl) as [v0 Hv0].
    rewrite Hv0 in Hlen. rewrite size_difference by (by apply singleton_subseteq_l).
    rewrite size_singleton, HT. lia.
  - subst s'. destruct (assoc k (elems t)) as [v0|] eqn:Hk.
    + destruct Hb as [_ Hb]. by specialize (Hb ltac:(by eexists)).
    + rewrite HT. lia.
Qed.
End FootprintOps.

Section Teardown.
Context {K V : Type} `{EqDecision K, Compare K, ValueInit K, ValueInit V}.
Implicit Types (s : RBTree K V) (t : tree K V) (k : K) (v : V)
  (C : list (frame K V)).

(** [destroy_rec] frees the nodes of the subtree, each once, and nothing
    else. *)
Lemma destroy_rec_spec nil t : ∀ fuel s p,
  NIL s = nil → rep (heap s) nil p t → NoDup (addrs t) → nil ∉ addrs t →
  height t < fuel →
  ∃ s', destroy_rec fuel s (ptr nil t) = Some s' ∧
        root s' = root s ∧ NIL s' = nil ∧
        ∀ a, heap s' !! a = if decide (a ∈ addrs t) then None else heap s !! a.
Proof.
  induction t as [|c l IHl a k v r IHr]; intros fuel s p HN Hrep Hnd Hnil Hf.
  { destruct fuel as [|fuel]; [simpl in Hf; lia|]. simpl.
    rewrite HN, decide_True by done. exists s. split_and!; done. }
  destruct fuel as [|fuel]; [simpl in Hf; lia|].
  simpl in Hrep, Hnd, Hnil, Hf. destruct Hrep as (Ha & Hl & Hr).
  apply NoDup_cons in Hnd as [Hal Hnd]. apply NoDup_app in Hnd as (Hndl & Hlr & Hndr).
  apply not_elem_of_cons in Hnil as [Hna Hnil].
  apply not_elem_of_app in Hnil as [Hnl Hnr].
  apply not_elem_of_app in Hal as [Hal Har].
  simpl ptr. cbn [destroy_rec]. rewrite HN, decide_False by done.
  rewrite Ha. simpl.
  destruct (IHl fuel s a HN Hl Hndl Hnl ltac:(lia)) as (s1 & -> & Hroot1 & HN1 & Hh1).
  simpl. rewrite Hh1, decide_False, Ha by done. simpl.
  destruct (IHr fuel s1 a HN1) as (s2 & -> & Hroot2 & HN2 & Hh2); [|done|done|lia|].
  { eapply rep_frame; [|done]. intros b Hb. rewrite Hh1, decide_False; [done|].
    intros Hbl. by apply (Hlr b). }
  simpl. unfold checked_delete. rewrite Hh2, decide_False, Hh1, decide_False, Ha by done.
  eexists. split; [done|]. split_and!; simpl; [congruence|done|].
  intros b. destruct (decide (b = a)) as [->|Hba].
  { rewrite lookup_delete_eq, decide_True; [done|]. left. }
  rewrite lookup_delete_ne, Hh2, Hh1 by done.
  destruct (decide (b ∈ addrs r)) as [Hbr|Hbr].
  { rewrite decide_True; [done|]. right. apply elem_of_app. by right. }
  destruct (decide (b ∈ addrs l)) as [Hbl|Hbl].
  { rewrite decide_True; [done|]. right. apply elem_of_app. by left. }
  rewrite decide_False; [done|].
  intros [?|[?|?]%elem_of_app]%elem_of_cons; done.
Qed.

Lemma RBTree_dtor_spec nil np s t fuel :
  Rep nil np s t → Tight nil s t → height t < fuel →
  ∃ s', RBTree_dtor fuel s = Some s' ∧ heap s' = ∅.
Proof.
  intros [HN Hsen Hroot Hrep Hnd Hnil] HT Hf. unfold RBTree_dtor. rewrite Hroot.
  destruct (destroy_rec_spec nil t fuel s nil HN Hrep Hnd Hnil Hf)
    as (s1 & -> & Hroot1 & HN1 & Hh1).
  simpl. unfold checked_delete. rewrite HN1, Hh1, decide_False, Hsen by done.
  eexists. split; [done|]. simpl. apply map_empty. intros a.
  destruct (decide (a = nil)) as [->|Han]; [by rewrite lookup_delete_eq|].
  rewrite lookup_delete_ne, Hh1 by done. case_decide; [done|].
  apply not_elem_of_dom. rewrite HT. rewrite elem_of_list_to_set.
  by intros [?|?]%elem_of_cons.
Qed.

Lemma RBTree_new_Tight :
  Tight (fresh_addr (∅ : gmap addr (Node K V))) (@RBTree_new K V _ _) Leaf.
Proof.
  unfold Tight, RBTree_new. simpl. rewrite dom_singleton_L.
  by rewrite (right_id_L ∅ (∪)).
Qed.
End Teardown.

Section RunFootprint.
Context {K V : Type} `{EqDecision K, Compare K, ValueInit K, ValueInit V}.
Context `{!StrictTotalOrder K}.
Implicit Types (s : RBTree K V) (t : tree K V) (k : K) (v : V)
  (ops : list (Op K V)).

Lemma run_Tight ops : ∀ fuel nil np s t (m : K → option V),
  Inv nil np s t → Tight nil s t → (∀ k, assoc k (elems t) = m k) →
  size t + length ops < fuel →
  ∃ s' np' t',
    run_lock_coupled fuel ops s = Some (s', expected m ops) ∧
    Inv nil np' s' t' ∧ Tight nil s' t' ∧
    (∀ k, assoc k (elems t') = foldl apply_op m ops k) ∧
    size t' ≤ size t + length ops.
Proof.
  induction ops as [|op ops IH]; intros fuel nil np s t m HI HT Hm Hf.
  { exists s, np, t. split_and!; try done. lia. }
  pose proof (height_le_size t) as Hh. simpl in Hf.
  assert (∃ s1 np1 t1 r,
    step_with (λ fuel s k v, fst <$> LockCoupled.insert fuel s k v) LockCoupled.erase
      (λ fuel s k, fst <$> LockCoupled.lookup fuel s k) fuel s op = Some (s1, r) ∧
    r :: expected (apply_op m op) ops = expected m (op :: ops) ∧
    Inv nil np1 s1 t1 ∧ Tight nil s1 t1 ∧ (∀ k, assoc k (elems t1) = apply_op m op k) ∧
    size t1 ≤ S (size t)) as (s1 & np1 & t1 & r & Hstep & Hr & HI1 & HT1 & Hm1 & Hs1).
  { destruct op as [k v|k|k]; simpl.
    - destruct (insert_Tight nil np s t k v fuel HI HT ltac:(lia))
        as (s1 & tr & t1 & -> & HI1 & HT1 & Hm1 & Hs1).
      exists s1, np, t1, RInsert. split_and!; try done.
      + intros k'. rewrite Hm1. by rewrite Hm.
      + destruct (assoc k (elems t)); lia.
    - destruct (erase_Tight nil np s t k fuel HI HT ltac:(lia))
        as (s1 & b & np1 & t1 & -> & HI1 & HT1 & Hm1 & Hb & Hs1).
      exists s1, np1, t1, (RErase b). split_and!; try done.
      + do 2 f_equal. rewrite <- Hm. destruct b.
        * symmetry. apply bool_decide_eq_true_2. by apply Hb.
        * symmetry. apply bool_decide_eq_false_2. intros Hs%Hb. done.
      + intros k'. rewrite Hm1. by rewrite Hm.
      + lia.
    - destruct (lookup_spec nil np s t k fuel HI ltac:(lia)) as (tr & ->).
      exists s, np, t, (RLookup (assoc k (elems t))). split_and!; try done.
      + by rewrite Hm.
      + lia. }
  destruct (IH fuel nil np1 s1 t1 (apply_op m op) HI1 HT1 Hm1 ltac:(lia))
    as (s' & np' & t' & Hrun & HI' & HT' & Hm' & Hs').
  exists s', np', t'. split_and!; try done; [|simpl; lia].
  unfold run_lock_coupled in *. cbn [run_with]. rewrite Hstep. simpl.
  rewrite Hrun. simpl. by rewrite Hr.
Qed.

Lemma run_new_Tight ops fuel :
  length ops < fuel →
  ∃ s' nil np' t',
    run_lock_coupled fuel ops (@RBTree_new K V _ _) = Some (s', expected (λ _, None) ops) ∧
    Inv nil np' s' t' ∧ Tight nil s' t' ∧ (∀ k, assoc k (elems t') = bindings ops k) ∧
    height t' < fuel.
Proof.
  intros Hf.
  destruct (run_Tight ops fuel _ _ _ _ (λ _, None) RBTree_new_Inv RBTree_new_Tight
              ltac:(done) ltac:(simpl; lia))
    as (s' & np' & t' & Hrun & HI & HT & Hm & Hs).
  exists s', (fresh_addr (∅ : gmap addr (Node K V))), np', t'. split_and!; try done.
  pose proof (height_le_size t'). simpl in Hs. lia.
Qed.

(** Inserting a key that is there writes its value in place. *)
Lemma insert_duplicate nil np s t k v fuel :
  Rep nil np s t → sorted t → height t < fuel → is_Some (assoc k (elems t)) →
  ∃ a tr, a ∈ addrs t ∧ key s.[a] = k ∧
          insert fuel s k v = Some (set_val s a v, tr).
Proof.
  intros HR Hsorted Hfuel Hk. cbv beta iota delta [insert].
  destruct (new_node_Rep nil np s t k v RED HR) as (HR1 & Hz & Hzt & Hzn).
  assert (heap (new_node s k v RED).1 =
          <[(new_node s k v RED).2 := mkNode k v RED nullptr nullptr nullptr]> (heap s))
    as Hheap by done.
  assert (root (new_node s k v RED).1 = root s) as Hroot1 by done.
  assert (NIL (new_node s k v RED).1 = NIL s) as HNIL1 by done.
  assert (heap s !! (new_node s k v RED).2 = None) as Hfresh.
  { apply not_elem_of_dom. intros Hin. apply (is_fresh ({[nullptr]} ∪ dom (heap s))).
    apply elem_of_union. by right. }
  destruct (new_node s k v RED) as [s1 z].
  simpl in HR1, Hz, Hzt, Hzn, Hheap, Hroot1, HNIL1, Hfresh.
  pose proof HR1 as [HN1 _ _ _ _ _].
  cbv beta iota zeta.
  repeat (change (NIL (set_parent ?a ?b ?c)) with (NIL a) ||
          change (NIL (set_right ?a ?b ?c)) with (NIL a) ||
          change (NIL (set_left ?a ?b ?c)) with (NIL a)).
  rewrite HN1.
  set (s4 := set_left (set_right (set_parent s1 z nil) z nil) z nil).
  assert (Rep nil np s4 t) as HR4 by (by do 3 (apply Rep_store_out; [done|done|])).
  destruct (UpgradeLock_ctor (root s4)) as [lk e0] eqn:Hctor.
  destruct (insert_descent nil np s4 t k fuel lk e0 HR4 Hfuel) as (d & Hloop & Hd).
  rewrite Hloop. simpl.
  destruct d as [x lk' tr'|y x lk' tr']; simpl in Hd.
  2: { destruct Hd as (C & -> & HP & -> & ->).
       rewrite (assoc_leaf k C Hsorted HP) in Hk. by destruct Hk. }
  destruct Hd as (C & c & l & v0 & r & -> & HP).
  destruct (upgrade lk') as [lk2 e2].
  exists x. eexists. split_and!.
  - rewrite addrs_plug. apply elem_of_app. right. left.
  - by rewrite (Rep_read _ _ _ _ _ _ _ _ _ _ HR).
  - do 2 f_equal.
    assert (x ≠ z) as Hxz.
    { intros ->. apply Hzt. rewrite addrs_plug. apply elem_of_app. right. left. }
    unfold delete_node, set_val, store. simpl. rewrite Hroot1, HNIL1. f_equal.
    rewrite Hheap. apply map_eq. intros b.
    destruct (decide (b = z)) as [->|Hbz].
    { rewrite lookup_delete_eq, lookup_alter_ne, Hfresh by done. done. }
    rewrite lookup_delete_ne by done.
    destruct (decide (b = x)) as [->|Hbx].
    + rewrite !lookup_alter_eq, !lookup_alter_ne, lookup_insert_ne by done. done.
    + rewrite !lookup_alter_ne, lookup_insert_ne by done. done.
Qed.
End RunFootprint.

(** ** [lock_based_rb_tree.cpp] *)
Lemma sort_pair (a b : addr) :
  ¬ OrderedLocking.lock_id a < OrderedLocking.lock_id b →
  OrderedLocking.std_unique (OrderedLocking.std_sort [a; b]) =
  if decide (b = a) then [a] else [b; a].
Proof.
  intros Hge. unfold OrderedLocking.std_sort, merge_sort. simpl.
  destruct (decide (OrderedLocking.lock_id_le a b)) as [Hle|Hnle]; simpl.
  - assert (a = b) as ->.
    { unfold OrderedLocking.lock_id_le, OrderedLocking.lock_id in *. lia. }
    by rewrite !decide_True.
  - done.
Qed.

Section OrderedLookup.
Context {K V : Type} `{EqDecision K, Compare K, ValueInit K, ValueInit V}.
Implicit Types (s : RBTree K V) (t : tree K V) (k : K) (v : V)
  (C : list (frame K V)).

Lemma descend_locks (curr next : addr) (lk : shared_lock) tr :
  lk = mk_shared_lock curr true → held tr = [curr] → peak [] tr ≤ 3 →
  (OrderedLocking.descend curr next lk).1 = mk_shared_lock next true ∧
  held (tr ++ (OrderedLocking.descend curr next lk).2) = [next] ∧
  peak [] (tr ++ (OrderedLocking.descend curr next lk).2) ≤ 3.
Proof.
  intros -> Hh Hp. unfold OrderedLocking.descend.
  destruct (decide (OrderedLocking.lock_id curr < OrderedLocking.lock_id next)) as [Hlt|Hge].
  - simpl. split; [done|]. rewrite held_app, peak_app. fold (held tr). rewrite Hh. simpl.
    destruct (decide (next = curr)) as [->|]; simpl.
    + split; [done|lia].
    + rewrite decide_True by done. simpl. split; [done|lia].
  - unfold OrderedLocking.OrderedLockGuard_ctor, OrderedLocking.OrderedLockGuard_dtor.
    rewrite (sort_pair curr next Hge). simpl. split; [done|].
    rewrite held_app, peak_app. fold (held tr). rewrite Hh.
    destruct (decide (next = curr)) as [->|Hne]; simpl.
    + rewrite !decide_True by done. simpl. split; [done|lia].
    + rewrite ?decide_True, ?(decide_False (P := next = curr)) by done. simpl.
      rewrite ?decide_True, ?(decide_False (P := next = curr)),
        ?(decide_False (P := curr = next)) by done. simpl.
      rewrite ?decide_True, ?(decide_False (P := next = curr)),
        ?(decide_False (P := curr = next)) by done. simpl.
      split; [done|lia].
Qed.

Lemma ordered_lookup_body_locks s k st :
  ordered_lookup_locks st →
  match OrderedLocking.lookup_body s k st with
  | inl st' => ordered_lookup_locks st'
  | inr res => ordered_lookup_locks_post res
  end.
Proof.
  destruct st as [[n lk] tr]. intros (Hlk & Hh & Hp). simpl in *. subst lk.
  unfold OrderedLocking.lookup_body.
  assert (∀ o : option V, ordered_lookup_locks_post (o, tr ++ [UnlockShared n])) as Hend.
  { intros o. unfold ordered_lookup_locks_post. simpl. rewrite held_app, peak_app.
    fold (held tr). rewrite Hh. simpl. rewrite decide_True by done. simpl. split; [done|lia]. }
  assert (∀ next, ordered_lookup_locks
            (next, (OrderedLocking.descend n next (mk_shared_lock n true)).1,
             tr ++ (OrderedLocking.descend n next (mk_shared_lock n true)).2)) as Hstep.
  { intros next. by destruct (descend_locks n next _ tr eq_refl Hh Hp) as (? & ? & ?). }
  destruct (decide (n ≠ NIL s)); [|by apply Hend].
  destruct (comp k (key s.[n])); [|destruct (comp (key s.[n]) k)]; simpl.
  - case_decide; [by apply Hend|].
    specialize (Hstep (left s.[n])). by destruct (OrderedLocking.descend _ _ _).
  - case_decide; [by apply Hend|].
    specialize (Hstep (right s.[n])). by destruct (OrderedLocking.descend _ _ _).
  - by apply Hend.
Qed.

Lemma ordered_lookup_locks_spec fuel s k r tr :
  OrderedLocking.lookup fuel s k = Some (r, tr) →
  held tr = [] ∧ peak [] tr ≤ 3.
Proof.
  unfold OrderedLocking.lookup. case_decide.
  { intros [= <- <-]. simpl. split; [done|lia]. }
  simpl. intros Hl.
  apply (loop_partial _ ordered_lookup_locks ordered_lookup_locks_post
           (ordered_lookup_body_locks s k) _ _ _) in Hl; [done|].
  split_and!; simpl; [done|done|lia].
Qed.
End OrderedLookup.

Section OrderedLookupResult.
Context {K V : Type} `{EqDecision K, Compare K, ValueInit K, ValueInit V}.
Context `{!StrictTotalOrder K}.
Implicit Types (s : RBTree K V) (t : tree K V) (k : K) (v : V)
  (C : list (frame K V)).

Lemma ordered_lookup_body_spec nil np s t0 k n st :
  Rep nil np s t0 → sorted t0 → ordered_lookup_inv nil t0 k n st →
  match OrderedLocking.lookup_body s k st with
  | inl st' => ∃ n', n' < n ∧ ordered_lookup_inv nil t0 k n' st'
  | inr r => lookup_post t0 k r
  end.
Proof.
  destruct st as [[x lk] tr]. intros HR HS (C & t & -> & Ht & Hx & HP & Hn).
  simpl in Hx. subst x. unfold OrderedLocking.lookup_body.
  destruct t as [|c l a k' v' r]; [done|]. simpl ptr.
  destruct l as [|cl ll la lk' lv lr], r as [|cr rl ra rk rv rr];
    rep_nd HR; rep_lookups HR; reads s.
  all: destruct (comp k k') eqn:Hlt; [|destruct (comp k' k) eqn:Hgt].
  all: try (unfold lookup_post; simpl; rewrite <- (comp_total _ _ Hlt Hgt) in *;
            by rewrite assoc_found).
  all: try (unfold lookup_post; simpl;
            first
              [ change (plug C (T c Leaf a k' v' ?r)) with (plug (FL c a k' v' r :: C) Leaf);
                rewrite assoc_leaf; [done|done|]; by apply Forall_cons
              | change (plug C (T c ?l a k' v' Leaf)) with (plug (FR c l a k' v' :: C) Leaf);
                rewrite assoc_leaf; [done|done|]; by apply Forall_cons ]).
  all: destruct (OrderedLocking.descend _ _ _) as [lk2 e2].
  all: lazymatch goal with
       | |- ∃ n', _ ∧ ordered_lookup_inv _ (plug ?C0 (T ?c0 ?l ?a0 ?k0 ?v0 ?r)) _ _ _ =>
         first
           [ exists (height l); split; [simpl in *; lia|];
             exists (FL c0 a0 k0 v0 r :: C0), l; split_and!; try done; by apply Forall_cons
           | exists (height r); split; [simpl in *; lia|];
             exists (FR c0 l a0 k0 v0 :: C0), r; split_and!; try done; by apply Forall_cons ]
       end.
Qed.

Lemma ordered_lookup_spec nil np s t k fuel :
  Rep nil np s t → sorted t → height t < fuel →
  ∃ tr, OrderedLocking.lookup fuel s k = Some (assoc k (elems t), tr).
Proof.
  intros HR HS Hf. unfold OrderedLocking.lookup.
  pose proof HR as [HN _ Hroot _ _ Hnil]. rewrite HN, Hroot.
  destruct t as [|c l a k' v' r]; simpl ptr.
  { rewrite decide_True by done. by exists []. }
  rewrite decide_False by (simpl in Hnil; nd_hyp Hnil; nd_atom).
  destruct (shared_lock_ctor a) as [lk e].
  destruct (loop_inv _ (ordered_lookup_inv nil (T c l a k' v' r) k) _
              (λ n st, ordered_lookup_body_spec nil np s _ k n st HR HS)
              fuel (height (T c l a k' v' r)) (a, lk, e)) as ([o tr] & Hloop & Hr); [|done|].
  - exists [], (T c l a k' v' r). split_and!; try done. constructor.
  - unfold lookup_post in Hr. simpl in Hr. subst o. by exists tr.
Qed.

Lemma LockBased_lookup_simple fuel s k :
  LockBased.lookup_simple fuel s k = fst <$> LockCoupled.lookup fuel s k.
Proof. rewrite <- RaceFree_lookup. reflexivity. Qed.

Lemma LockBased_lookup_hybrid fuel s k :
  LockBased.lookup_hybrid fuel s k = fst <$> LockCoupled.lookup fuel s k.
Proof. rewrite <- RaceFree_lookup. reflexivity. Qed.
End OrderedLookupResult.

(** *** The trace of the ordered [lookup] *)
Lemma guard_events (nodes : list addr) :
  let l := OrderedLocking.std_unique (OrderedLocking.std_sort nodes) in
  (OrderedLocking.OrderedLockGuard_ctor nodes).2 = map LockShared l ∧
  OrderedLocking.OrderedLockGuard_dtor (OrderedLocking.OrderedLockGuard_ctor nodes).1 =
    map UnlockShared l.
Proof.
  unfold OrderedLocking.OrderedLockGuard_ctor, OrderedLocking.OrderedLockGuard_dtor. simpl.
  induction (OrderedLocking.std_unique _) as [|a l [IH1 IH2]]; simpl; [done|].
  by rewrite IH1, IH2.
Qed.

Lemma descend_move (n c : addr) :
  (OrderedLocking.descend n c (mk_shared_lock n true)).1 = mk_shared_lock c true ∧
  ordered_move n c (OrderedLocking.descend n c (mk_shared_lock n true)).2.
Proof.
  unfold OrderedLocking.descend, ordered_move.
  destruct (decide (OrderedLocking.lock_id n < OrderedLocking.lock_id c)) as [Hlt|Hge].
  - done.
  - destruct (guard_events [n; c]) as [He Hd].
    destruct (OrderedLocking.OrderedLockGuard_ctor [n; c]) as [g e1]. simpl in He, Hd.
    simpl. split; [done|]. rewrite He, Hd.
    exists (OrderedLocking.std_unique (OrderedLocking.std_sort [n; c])). split_and!.
    + done.
    + apply std_unique_sorted. unfold OrderedLocking.std_sort.
      apply StronglySorted_merge_sort; apply _.
    + intros a. rewrite std_unique_elem_of. unfold OrderedLocking.std_sort.
      rewrite merge_sort_Permutation, !elem_of_cons, elem_of_nil. tauto.
Qed.

Section OrderedTraces.
Context {K V : Type} `{EqDecision K, Compare K, ValueInit K, ValueInit V}.
Implicit Types (s : RBTree K V) (k : K) (v : V).

Lemma ordered_visiting_step s k n lk tr c :
  ordered_visiting s k (n, lk, tr) → search_child s k n c → c ≠ NIL s →
  ordered_visiting s k
    (c, (OrderedLocking.descend n c lk).1, tr ++ (OrderedLocking.descend n c lk).2).
Proof.
  intros (Hn & Hlk & path & tr' & Htr & Hv & Hc) Hstep Hne. simpl in *. subst lk tr.
  destruct (descend_move n c) as [Hlk He]. split_and!; [done|done|].
  exists (path ++ [c]), (tr' ++ (OrderedLocking.descend n c (mk_shared_lock n true)).2).
  simpl. split_and!; [done| |].
  - intros rest Hrest. rewrite <- (assoc_L (++)). apply Hv. by split.
  - intros rest tr'' Hrest. rewrite <- !(assoc_L (++)). apply Hc. simpl. eauto.
Qed.

Lemma ordered_visiting_end s k n lk tr (o : option V) :
  ordered_visiting s k (n, lk, tr) → ordered_ends s k n →
  ordered_visited s k (tr ++ shared_lock_release lk).
Proof.
  intros (Hn & Hlk & path & tr' & Htr & Hv & Hc) He. simpl in *. subst lk tr.
  exists path, (tr' ++ [UnlockShared n]). split_and!.
  - specialize (Hv [] He). by rewrite app_nil_r in Hv.
  - done.
  - specialize (Hc [] [UnlockShared n] eq_refl). by rewrite app_nil_r in Hc.
Qed.

Lemma ordered_lookup_body_visits s k st :
  ordered_visiting s k st →
  match OrderedLocking.lookup_body s k st with
  | inl st' => ordered_visiting s k st'
  | inr res => ordered_visited s k res.2
  end.
Proof.
  destruct st as [[n lk] tr]. intros Hv. pose proof Hv as (Hn & _). simpl in Hn.
  unfold OrderedLocking.lookup_body.
  rewrite decide_True by done.
  destruct (comp k (key s.[n])) eqn:Hlt; [|destruct (comp (key s.[n]) k) eqn:Hgt].
  - case_decide as Hc.
    + apply (ordered_visiting_end s k n lk tr None Hv). split; [done|]. by rewrite Hlt.
    + pose proof (ordered_visiting_step s k n lk tr (left s.[n]) Hv) as Hs.
      destruct (OrderedLocking.descend _ _ _). apply Hs; [|done].
      split; [done|]. by rewrite Hlt.
  - case_decide as Hc.
    + apply (ordered_visiting_end s k n lk tr None Hv). split; [done|]. by rewrite Hlt, Hgt.
    + pose proof (ordered_visiting_step s k n lk tr (right s.[n]) Hv) as Hs.
      destruct (OrderedLocking.descend _ _ _). apply Hs; [|done].
      split; [done|]. by rewrite Hlt, Hgt.
  - apply (ordered_visiting_end s k n lk tr None Hv). split; [done|]. by rewrite Hlt, Hgt.
Qed.

Lemma ordered_lookup_visits fuel s k r tr :
  OrderedLocking.lookup fuel s k = Some (r, tr) →
  if decide (root s = NIL s) then tr = [] else ordered_visited s k tr.
Proof.
  unfold OrderedLocking.lookup. case_decide as Hroot.
  { by intros [= <- <-]. }
  simpl. intros Hl.
  apply (loop_partial _ (ordered_visiting s k) (λ res, ordered_visited s k res.2)
           (ordered_lookup_body_visits s k) _ _ _) in Hl; [done|].
  split_and!; [done|done|]. exists [], []. done.
Qed.
End OrderedTraces.

(** C8.  The ordered [lookup] locks the root and then goes down the nodes
    that the search for the key visits.  To move from a node to its child
    it locks the child and then releases the node when the identifier of
    the node is the smaller one; otherwise the locks of the guard come
    first, on the two nodes in increasing order of identifier, each once,
    then the lock of the node is released, the child locked, and the guard
    releases its locks.  On every list of nodes the guard locks each node
    of the list once, in strictly increasing order of identifier. *)
Theorem ordered_lock_acquisition {K V : Type} `{EqDecision K, Compare K, ValueInit K, ValueInit V}
    `{!StrictTotalOrder K} nil np (s : RBTree K V) (t : tree K V) (k : K) (fuel : nat)
    (nodes : list addr) :
  Rep nil np s t → sorted t → height t < fuel →
  (∃ tr, OrderedLocking.lookup fuel s k = Some (assoc k (elems t), tr) ∧
     if decide (root s = NIL s) then tr = []
     else ∃ path tr',
       ordered_visits s k (root s) path ∧
       tr = LockShared (root s) :: tr' ∧ ordered_coupled (root s) path tr') ∧
  (∃ l, (OrderedLocking.OrderedLockGuard_ctor nodes).2 = map LockShared l ∧
        StronglySorted OrderedLocking.lock_id_lt l ∧ (∀ a, a ∈ l ↔ a ∈ nodes)).
Proof.
  intros HR HS Hf. split.
  - destruct (ordered_lookup_spec nil np s t k fuel HR HS Hf) as (tr & Hl).
    exists tr. split; [done|]. apply (ordered_lookup_visits fuel s k _ tr Hl).
  - apply OrderedLockGuard_ctor_spec.
Qed.

Lemma ordered_lock_acquisition_witness :
  Rep 1 0 reversed reversed_tree ∧ sorted reversed_tree ∧ height reversed_tree < 3 ∧
  (∃ tr, OrderedLocking.lookup 3 reversed 3%Z = Some (assoc 3%Z (elems reversed_tree), tr) ∧
     if decide (root reversed = NIL reversed) then tr = []
     else ∃ path tr',
       ordered_visits reversed 3%Z (root reversed) path ∧
       tr = LockShared (root reversed) :: tr' ∧ ordered_coupled (root reversed) path tr') ∧
  (∃ l, (OrderedLocking.OrderedLockGuard_ctor [3; 2; 3]).2 = map LockShared l ∧
        StronglySorted OrderedLocking.lock_id_lt l ∧ (∀ a, a ∈ l ↔ a ∈ [3; 2; 3])).
Proof.
  split; [exact reversed_Rep|]. split; [unfold sorted; simpl; repeat constructor|].
  split; [vm_compute; lia|].
  apply (ordered_lock_acquisition 1 0 reversed reversed_tree 3%Z 3 [3; 2; 3]).
  - exact reversed_Rep.
  - unfold sorted; simpl; repeat constructor.
  - vm_compute; lia.
Defined.

Section CppInsert.
Context {K V : Type} `{EqDecision K, Compare K, ValueInit K, ValueInit V}.
Context `{!StrictTotalOrder K}.
Implicit Types (s : RBTree K V) (t : tree K V) (k : K) (v : V)
  (C : list (frame K V)).

Lemma insert_body_same_cpp s k (st : addr * addr * LockCoupled.UpgradeLock * list LockEvent)
    (st' : addr * addr) :
  st.1.1 = st' →
  match LockCoupled.insert_body s k st, LockBased.insert_body s k st' with
  | inl a, inl b => a.1.1 = b
  | inr d, inr d' => same_descent_cpp d d'
  | _, _ => False
  end.
Proof.
  destruct st as [[[y x] lk] tr]. simpl. intros <-.
  unfold LockCoupled.insert_body, LockBased.insert_body.
  destruct (decide (x ≠ NIL s)); [|done].
  destruct (comp k (key s.[x])); [done|]. by destruct (comp (key s.[x]) k).
Qed.

(** With a black parent [insert_fixup] only blackens the root. *)
Lemma insert_fixup_black_parent fuel s (z : addr) :
  color s.[parent s.[z]] = BLACK →
  LockCoupled.insert_fixup (S fuel) s z = Some (set_color s (root s) BLACK).
Proof.
  intros Hc. unfold LockCoupled.insert_fixup. simpl.
  rewrite Hc. by rewrite decide_False.
Qed.

Lemma LockBased_insert nil np s t k v fuel :
  Rep nil np s t → height t < fuel →
  LockBased.insert fuel s k v = fst <$> LockCoupled.insert fuel s k v.
Proof.
  intros HR Hfuel.
  cbv beta iota delta [LockBased.insert LockCoupled.insert].
  destruct (new_node_Rep nil np s t k v RED HR) as (HR1 & Hz & Hzt & Hzn).
  destruct (new_node s k v RED) as [s1 z]. simpl in HR1, Hz, Hzt, Hzn.
  pose proof HR1 as [HN1 _ _ _ _ _].
  cbv beta iota zeta.
  repeat (change (NIL (set_parent ?a ?b ?c)) with (NIL a) ||
          change (NIL (set_right ?a ?b ?c)) with (NIL a) ||
          change (NIL (set_left ?a ?b ?c)) with (NIL a)).
  rewrite HN1.
  set (s4 := set_left (set_right (set_parent s1 z nil) z nil) z nil).
  assert (Rep nil np s4 t) as HR4 by (by do 3 (apply Rep_store_out; [done|done|])).
  assert (heap s4 !! z = Some (mkNode k v RED nil nil nil)) as Hz4.
  { unfold s4, set_left, set_right, set_parent.
    by rewrite (lookup_store_eq _ _ _ _ (lookup_store_eq _ _ _ _ (lookup_store_eq _ _ _ _ Hz))). }
  assert (NIL s4 = nil) as HN4 by done.
  clearbody s4. clear HR1 Hz HN1 s1.
  destruct (UpgradeLock_ctor (root s4)) as [lk e0] eqn:Hctor.
  destruct (insert_descent nil np s4 t k fuel lk e0 HR4 Hfuel) as (d & Hloop & Hd).
  pose proof (loop_sim _ _ (λ st st', st.1.1 = st') same_descent_cpp
                (insert_body_same_cpp s4 k) fuel
                (nil, root s4, lk, e0) (nil, root s4) eq_refl) as Hsim.
  rewrite Hloop in Hsim. rewrite Hloop. simpl.
  pose proof HR4 as [_ Hsen4 Hroot4 _ _ Hnil4].
  destruct t as [|c l a k' v' r].
  - (* the empty tree *)
    simpl in Hroot4. rewrite Hroot4, decide_True by done.
    destruct fuel as [|fuel]; [lia|]. simpl in Hloop. rewrite Hroot4 in Hloop.
    unfold LockCoupled.insert_body in Hloop. rewrite HN4, decide_False in Hloop by (by intros ?).
    injection Hloop as <-. destruct (upgrade lk) as [lk2 e2].
    rewrite (decide_True (P := nil = nil)) by done.
    assert (set_parent s4 z nil = s4) as ->.
    { destruct s4 as [h4 r4 n4]. unfold set_parent, store. simpl in *. f_equal.
      apply alter_id. intros n. rewrite Hz4. by intros [= <-]. }
    rewrite insert_fixup_black_parent; [done|].
    repeat change ((set_root s4 z).[?a]) with (s4.[a]).
    rewrite (node_lookup _ z _ Hz4). simpl. by rewrite (node_lookup _ nil _ Hsen4).
  - (* a tree with a root *)
    simpl in Hroot4. rewrite decide_False by (rewrite Hroot4; simpl in Hnil4; nd_hyp Hnil4; nd_atom).
    destruct (loop fuel (LockBased.insert_body s4 k) _) as [[x'|y' x']|]; [| |done].
    + destruct d as [x lk' tr'|y x lk' tr']; [|done]. simpl in Hsim. subst x'.
      simpl. by destruct (upgrade lk').
    + destruct d as [x lk' tr'|y x lk' tr']; [done|]. destruct Hsim as [<- <-].
      simpl. destruct (upgrade lk') as [lk2 e2].
      destruct Hd as (C & HC & HP & -> & ->).
      rewrite (decide_False (P := cparent nil C = nil)).
      * match goal with |- ?a = _ <$> (?b ≫= _) => change a with b; by destruct b end.
      * destruct C as [|F C]; [done|]. simpl. rewrite HC, addrs_plug in Hnil4.
        simpl in Hnil4. intros Heq. apply Hnil4. rewrite <- Heq. left.
Qed.

Lemma LockBased_insert_hybrid fuel s k v :
  LockBased.insert_hybrid fuel s k v = LockBased.insert fuel s k v.
Proof. reflexivity. Qed.

Lemma LockBased_erase fuel s k : LockBased.erase fuel s k = LockCoupled.erase fuel s k.
Proof. reflexivity. Qed.

Lemma LockBased_validate fuel s : LockBased.validate fuel s = LockCoupled.validate fuel s.
Proof. reflexivity. Qed.
End CppInsert.

(** ** The callers: [main] and the stress test *)
Lemma fold_insert_self (keys : list Z) (m : Z → option Z) (k : Z) :
  k ∈ keys ∨ m k = Some k →
  foldl (λ m k, apply_op m (OpInsert k k)) m keys k = Some k.
Proof.
  revert m; induction keys as [|k0 keys IH]; intros m Hk; simpl.
  { destruct Hk as [Hk|Hk]; [by apply elem_of_nil in Hk|done]. }
  apply IH. destruct Hk as [[->|Hk]%elem_of_cons|Hk]; [|by left|].
  - right. by rewrite decide_True.
  - right. case_decide; [by subst|done].
Qed.

Lemma insert_all_spec (keys : list Z) : ∀ fuel nil np s t (m : Z → option Z),
  Inv nil np s t → (∀ k, assoc k (elems t) = m k) → size t + length keys < fuel →
  ∃ s' t',
    insert_all fuel keys s = Some s' ∧ Inv nil np s' t' ∧
    (∀ k, assoc k (elems t') = foldl (λ m k, apply_op m (OpInsert k k)) m keys k) ∧
    size t' ≤ size t + length keys.
Proof.
  induction keys as [|k0 keys IH]; intros fuel nil np s t m HI Hm Hf.
  { exists s, t. split_and!; try done. lia. }
  pose proof (height_le_size t) as Hh. simpl in Hf. simpl.
  rewrite (LockBased_insert nil np s t); [|by destruct HI|lia].
  destruct (insert_spec nil np s t k0 k0 fuel HI ltac:(lia))
    as (s1 & tr & t1 & -> & HI1 & Hm1 & Hs1 & _).
  simpl.
  destruct (IH fuel nil np s1 t1 (apply_op m (OpInsert k0 k0)) HI1) as (s' & t' & -> & HI' & Hm' & Hs').
  - intros k. rewrite Hm1. simpl. by rewrite Hm.
  - lia.
  - exists s', t'. split_and!; try done. lia.
Qed.

Lemma verify_all_spec fuel (keys : list Z) (s : RBTree Z Z) :
  (∀ k, k ∈ keys → LockBased.lookup_simple fuel s k = Some (Some k)) →
  verify_all fuel keys s = Some true.
Proof.
  induction keys as [|k keys IH]; intros Hl; simpl; [done|].
  rewrite Hl by left. simpl. rewrite bool_decide_eq_true_2 by done.
  apply IH. intros k' Hk'. apply Hl. by right.
Qed.

Lemma initialize_tree_spec (draws : list (Z * Z)) :
  ∀ fuel nil np tree t (reference : gmap Z Z),
  Inv nil np tree t → (∀ k, assoc k (elems t) = reference !! k) →
  size t + length draws < fuel →
  ∃ tree' reference' t',
    initialize_tree fuel draws tree reference = Some (tree', reference') ∧
    Inv nil np tree' t' ∧ (∀ k, assoc k (elems t') = reference' !! k) ∧
    size t' ≤ size t + length draws.
Proof.
  induction draws as [|[k0 v0] draws IH]; intros fuel nil np s t m HI Hm Hf.
  { exists s, m, t. split_and!; try done. lia. }
  pose proof (height_le_size t) as Hh. simpl in Hf. simpl.
  destruct (insert_spec nil np s t k0 v0 fuel HI ltac:(lia))
    as (s1 & tr & t1 & -> & HI1 & Hm1 & Hs1 & _).
  simpl.
  destruct (IH fuel nil np s1 t1 (ReferenceMap.insert m k0 v0) HI1)
    as (s' & m' & t' & -> & HI' & Hm' & Hs').
  - intros k. rewrite Hm1. unfold ReferenceMap.insert. case_decide.
    + subst. by rewrite lookup_insert_eq.
    + by rewrite lookup_insert_ne, Hm.
  - lia.
  - exists s', m', t'. split_and!; try done. lia.
Qed.

Lemma compare_loop_spec fuel nil np (tree : RBTree Z Z) t (reference : gmap Z Z) entries :
  Inv nil np tree t → height t < fuel →
  (∀ k, assoc k (elems t) = reference !! k) →
  (∀ k v, (k, v) ∈ entries → reference !! k = Some v) →
  ReferenceMap.compare_loop fuel tree entries = Some true.
Proof.
  intros HI Hf Hm. induction entries as [|[k v] entries IH]; intros He; simpl; [done|].
  destruct (lookup_spec nil np tree t k fuel HI Hf) as (tr & ->). simpl.
  rewrite Hm, (He k v) by left. rewrite bool_decide_eq_false_2 by (by intros ?).
  apply IH. intros k' v' Hin. apply He. by right.
Qed.

(** ** Nodes keep their keys and values *)
Section Payload.
Context {K V : Type} `{EqDecision K, Compare K, ValueInit K, ValueInit V}.
Implicit Types (s : RBTree K V) (t : tree K V) (k : K) (v : V).

Lemma same_payload_refl s : same_payload s s.
Proof. intros a n Hn. by exists n. Qed.

Lemma same_payload_store s0 s a f :
  (∀ n, key (f n) = key n ∧ val (f n) = val n) →
  same_payload s0 s → same_payload s0 (store s a f).
Proof.
  intros Hf Hs b n'. unfold store. simpl.
  destruct (decide (b = a)) as [->|Hba].
  - rewrite lookup_alter_eq. destruct (heap s !! a) as [n1|] eqn:Hn1; [|done].
    simpl. intros [= <-]. destruct (Hs a n1 Hn1) as (n & Hn & Hk & Hv).
    exists n. destruct (Hf n1) as [-> ->]. done.
  - rewrite lookup_alter_ne by done. apply Hs.
Qed.

Lemma same_payload_set_color s0 s a c :
  same_payload s0 s → same_payload s0 (set_color s a c).
Proof. by apply same_payload_store. Qed.
Lemma same_payload_set_parent s0 s a p :
  same_payload s0 s → same_payload s0 (set_parent s a p).
Proof. by apply same_payload_store. Qed.
Lemma same_payload_set_left s0 s a p :
  same_payload s0 s → same_payload s0 (set_left s a p).
Proof. by apply same_payload_store. Qed.
Lemma same_payload_set_right s0 s a p :
  same_payload s0 s → same_payload s0 (set_right s a p).
Proof. by apply same_payload_store. Qed.
Lemma same_payload_set_root s0 s r :
  same_payload s0 s → same_payload s0 (set_root s r).
Proof. done. Qed.
Lemma same_payload_delete_node s0 s z :
  same_payload s0 s → same_payload s0 (delete_node s z).
Proof.
  intros Hs b n'. simpl. intros [_ Hn]%lookup_delete_Some. by apply Hs.
Qed.
End Payload.

Ltac pay_prim :=
  repeat lazymatch goal with
  | |- same_payload _ (set_color _ _ _) => apply same_payload_set_color
  | |- same_payload _ (set_parent _ _ _) => apply same_payload_set_parent
  | |- same_payload _ (set_left _ _ _) => apply same_payload_set_left
  | |- same_payload _ (set_right _ _ _) => apply same_payload_set_right
  | |- same_payload _ (set_root _ _) => apply same_payload_set_root
  | |- same_payload _ (delete_node _ _) => apply same_payload_delete_node
  | |- same_payload ?s ?s => apply same_payload_refl
  | |- same_payload _ _ => assumption
  end.

(** One [let] at a time, as for the domain. *)
Ltac pay_run_with s0 atom :=
  repeat first
    [ match goal with
      | |- context G [let x := ?e in @?b x] =>
        lazymatch type of e with
        | RBTree _ _ =>
          let Hd := fresh "Hd" in
          assert (same_payload s0 e) as Hd by atom;
          let s1 := fresh "s" in
          pose (s1 := e); change e with s1 in Hd;
          (let g := context G [b s1] in change g); cbv beta; clearbody s1
        | _ => (let g := context G [b e] in change g); cbv beta
        end
      end
    | case_decide
    | match goal with |- context [if comp ?a ?b then _ else _] => destruct (comp a b) end
    | progress cbn iota beta ].

Section PayloadOps.
Context {K V : Type} `{EqDecision K, Compare K, ValueInit K, ValueInit V}.
Implicit Types (s : RBTree K V) (t : tree K V) (k : K) (v : V).

Lemma same_payload_left_rotate s0 s x :
  same_payload s0 s → same_payload s0 (left_rotate s x).
Proof.
  intros Hs. cbv beta iota delta [left_rotate]. pay_run_with s0 pay_prim. all: pay_prim.
Qed.

Lemma same_payload_right_rotate s0 s x :
  same_payload s0 s → same_payload s0 (right_rotate s x).
Proof.
  intros Hs. cbv beta iota delta [right_rotate]. pay_run_with s0 pay_prim. all: pay_prim.
Qed.

Lemma same_payload_transplant s0 s (u w : addr) :
  same_payload s0 s → same_payload s0 (transplant s u w).
Proof.
  intros Hs. cbv beta iota delta [transplant]. pay_run_with s0 pay_prim. all: pay_prim.
Qed.
End PayloadOps.

Ltac pay_atom :=
  repeat lazymatch goal with
  | |- same_payload _ (set_color _ _ _) => apply same_payload_set_color
  | |- same_payload _ (set_parent _ _ _) => apply same_payload_set_parent
  | |- same_payload _ (set_left _ _ _) => apply same_payload_set_left
  | |- same_payload _ (set_right _ _ _) => apply same_payload_set_right
  | |- same_payload _ (set_root _ _) => apply same_payload_set_root
  | |- same_payload _ (delete_node _ _) => apply same_payload_delete_node
  | |- same_payload _ (left_rotate _ _) => apply same_payload_left_rotate
  | |- same_payload _ (right_rotate _ _) => apply same_payload_right_rotate
  | |- same_payload _ (transplant _ _ _) => apply same_payload_transplant
  | |- same_payload ?s ?s => apply same_payload_refl
  | |- same_payload _ _ => assumption
  end.

Section PayloadLoops.
Context {K V : Type} `{EqDecision K, Compare K, ValueInit K, ValueInit V}.
Implicit Types (s : RBTree K V) (t : tree K V) (k : K) (v : V).

Lemma same_payload_insert_fixup_body s0 (st : RBTree K V * addr) :
  same_payload s0 st.1 →
  match insert_fixup_body st with
  | inl st' => same_payload s0 st'.1
  | inr s' => same_payload s0 s'
  end.
Proof.
  destruct st as [s z]. intros HD. cbv beta iota delta [fst] in HD.
  cbv beta iota delta [insert_fixup_body].
  pay_run_with s0 pay_atom. all: cbv beta iota delta [fst]; pay_atom.
Qed.

Lemma same_payload_insert_fixup fuel s0 s (z : addr) s' :
  same_payload s0 s → insert_fixup fuel s z = Some s' → same_payload s0 s'.
Proof.
  intros Hs. unfold insert_fixup.
  destruct (loop fuel insert_fixup_body (s, z)) as [s1|] eqn:Hloop; [|done].
  simpl. intros [= <-].
  apply (loop_partial _ (λ st, same_payload s0 st.1) (λ s1, same_payload s0 s1)) in Hloop;
    [|..|done].
  - pay_atom.
  - intros st Hst. pose proof (same_payload_insert_fixup_body s0 st Hst) as Hb.
    by destruct (insert_fixup_body st).
Qed.

Lemma same_payload_delete_fixup_body s0 (st : RBTree K V * addr) :
  same_payload s0 st.1 →
  match delete_fixup_body st with
  | inl st' => same_payload s0 st'.1
  | inr st' => same_payload s0 st'.1
  end.
Proof.
  destruct st as [s z]. intros HD. cbv beta iota delta [fst] in HD.
  cbv beta iota delta [delete_fixup_body].
  pay_run_with s0 pay_atom. all: cbv beta iota delta [fst]; pay_atom.
Qed.

Lemma same_payload_delete_fixup fuel s0 s (x : addr) s' :
  same_payload s0 s → delete_fixup fuel s x = Some s' → same_payload s0 s'.
Proof.
  intros Hs. unfold delete_fixup.
  destruct (loop fuel delete_fixup_body (s, x)) as [[s1 x1]|] eqn:Hloop; [|done].
  simpl. intros [= <-].
  apply (loop_partial _ (λ st, same_payload s0 st.1) (λ st, same_payload s0 st.1)) in Hloop;
    [|..|done].
  - simpl in Hloop. pay_atom.
  - intros st Hst. pose proof (same_payload_delete_fixup_body s0 st Hst) as Hb.
    by destruct (delete_fixup_body st).
Qed.

Lemma same_payload_erase_unlink fuel s (z : addr) s1 x c :
  erase_unlink fuel s z = Some (s1, x, c) → same_payload s s1.
Proof.
  cbv beta iota delta [erase_unlink].
  destruct (decide (left s.[z] = NIL s)); [|destruct (decide (right s.[z] = NIL s))].
  - pay_run_with s pay_atom. intros [= <- _ _]. pay_atom.
  - pay_run_with s pay_atom. intros [= <- _ _]. pay_atom.
  - pay_run_with s pay_atom. destruct (minimum fuel s _) as [y|]; [|done].
    cbv beta iota delta [mbind option_bind erase_two_children].
    pay_run_with s pay_atom. all: intros [= <- _ _]; pay_atom.
Qed.

Lemma erase_same_payload fuel s k s' b :
  erase fuel s k = Some (s', b) → same_payload s s'.
Proof.
  rewrite erase_parts.
  destruct (loop fuel (erase_body s k) (root s)) as [z|]; [|done]. simpl.
  case_decide; [intros [= <- _]; apply same_payload_refl|].
  destruct (erase_unlink fuel s z) as [[[s1 x] c']|] eqn:Hun; [|done]. simpl.
  apply same_payload_erase_unlink in Hun.
  case_decide.
  - destruct (delete_fixup fuel (delete_node s1 z) x) as [s3|] eqn:Hfix; [|done].
    simpl. intros [= <- _]. eapply same_payload_delete_fixup; [|done]. pay_atom.
  - intros [= <- _]. pay_atom.
Qed.
End PayloadLoops.

Section PayloadInsert.
Context {K V : Type} `{EqDecision K, Compare K, ValueInit K, ValueInit V}.
Context `{!StrictTotalOrder K}.
Implicit Types (s : RBTree K V) (t : tree K V) (k : K) (v : V).

Lemma insert_payload nil np s t k v fuel s' tr :
  Rep nil np s t → sorted t → height t < fuel →
  insert fuel s k v = Some (s', tr) →
  ∀ a n', heap s' !! a = Some n' →
    (key n' = k ∧ val n' = v) ∨
    ∃ n, heap s !! a = Some n ∧ key n' = key n ∧ val n' = val n.
Proof.
  intros HR Hsorted Hfuel.
  destruct (assoc k (elems t)) as [v0|] eqn:Hk.
  { destruct (insert_duplicate nil np s t k v fuel HR Hsorted Hfuel ltac:(by eexists))
      as (a0 & tr0 & Ha0 & Hkey & ->).
    intros [= <- _] a n'. unfold set_val, store. simpl.
    destruct (decide (a = a0)) as [->|Hne].
    - rewrite lookup_alter_eq. destruct (heap s !! a0) as [n|] eqn:Hn; [|done].
      simpl. intros [= <-]. left. simpl. rewrite <- Hkey.
      by rewrite (node_lookup _ _ _ Hn).
    - rewrite lookup_alter_ne by done. intros Hn. right. by exists n'. }
  cbv beta iota delta [insert].
  destruct (new_node_Rep nil np s t k v RED HR) as (HR1 & Hz & Hzt & Hzn).
  assert (∀ a, a ≠ (new_node s k v RED).2 →
            heap (new_node s k v RED).1 !! a = heap s !! a) as Hold.
  { intros a Ha. unfold new_node. simpl. by rewrite lookup_insert_ne. }
  destruct (new_node s k v RED) as [s1 z]. simpl in HR1, Hz, Hzt, Hzn, Hold.
  pose proof HR1 as [HN1 _ _ _ _ _].
  cbv beta iota zeta.
  repeat (change (NIL (set_parent ?a ?b ?c)) with (NIL a) ||
          change (NIL (set_right ?a ?b ?c)) with (NIL a) ||
          change (NIL (set_left ?a ?b ?c)) with (NIL a)).
  rewrite HN1.
  set (s4 := set_left (set_right (set_parent s1 z nil) z nil) z nil).
  assert (Rep nil np s4 t) as HR4 by (by do 3 (apply Rep_store_out; [done|done|])).
  assert (same_payload s1 s4) as Hpay4 by (unfold s4; pay_atom).
  assert (NIL s4 = nil) as HN4 by done.
  clearbody s4.
  destruct (UpgradeLock_ctor (root s4)) as [lk e0] eqn:Hctor.
  destruct (insert_descent nil np s4 t k fuel lk e0 HR4 Hfuel) as (d & Hloop & Hd).
  rewrite Hloop. simpl.
  destruct d as [x lk' tr'|y x lk' tr']; simpl in Hd.
  { destruct Hd as (C & c & l & v0 & r & -> & HP).
    by rewrite (assoc_found k C c l x v0 r Hsorted HP) in Hk. }
  destruct Hd as (C & -> & HP & -> & ->).
  destruct (upgrade lk') as [lk2 e2].
  match goal with |- context [insert_fixup fuel ?s5 z] =>
    destruct (insert_fixup fuel s5 z) as [s6|] eqn:Hfix; [|done];
    apply (same_payload_insert_fixup fuel s1) in Hfix
  end.
  2: { case_decide; [|destruct (comp _ _)]; pay_atom. }
  simpl. intros [= <- _] a n' Hn'.
  destruct (Hfix a n' Hn') as (n1 & Hn1 & Hk1 & Hv1).
  destruct (decide (a = z)) as [->|Hne].
  - left. rewrite Hz in Hn1. injection Hn1 as <-. done.
  - right. exists n1. by rewrite <- Hold.
Qed.
End PayloadInsert.

(** * Further properties of the code *)

Lemma remove_one_snoc (a : addr) (l : list addr) :
  a ∉ l → remove_one a (l ++ [a]) = l.
Proof.
  induction l as [|b l IH]; simpl; intros Ha.
  - by rewrite decide_True.
  - apply not_elem_of_cons in Ha as [Hab Ha]. rewrite decide_False by done.
    by rewrite IH.
Qed.

Lemma held_lock_all (l h : list addr) :
  foldl held_step h (map LockShared l) = reverse l ++ h.
Proof.
  revert h; induction l as [|a l IH]; intros h; simpl; [done|].
  rewrite IH, reverse_cons. by rewrite <- (assoc_L (++)).
Qed.

Lemma held_unlock_all (l : list addr) :
  NoDup l → foldl held_step (reverse l) (map UnlockShared l) = [].
Proof.
  induction l as [|a l IH]; intros Hnd; simpl; [done|].
  apply NoDup_cons in Hnd as [Ha Hnd]. rewrite reverse_cons.
  rewrite remove_one_snoc; [by apply IH|]. by rewrite elem_of_reverse.
Qed.

Lemma lock_id_lt_NoDup (l : list addr) :
  StronglySorted OrderedLocking.lock_id_lt l → NoDup l.
Proof.
  induction 1 as [|a l HS IH Hall]; [constructor|].
  apply NoDup_cons. split; [|done]. intros Hin.
  rewrite Forall_forall in Hall. specialize (Hall a Hin).
  unfold OrderedLocking.lock_id_lt in Hall. lia.
Qed.

(** X14.  An [OrderedLockGuard] releases in its destructor every lock that
  its constructor took, whatever the nodes it is given: a thread that held
  no lock before the constructor holds none after the destructor. *)
Theorem ordered_guard_releases_all (nodes : list addr) :
held ((OrderedLocking.OrderedLockGuard_ctor nodes).2 ++
      OrderedLocking.OrderedLockGuard_dtor (OrderedLocking.OrderedLockGuard_ctor nodes).1) = [].
Proof.
assert (OrderedLocking.OrderedLockGuard_dtor (OrderedLocking.OrderedLockGuard_ctor nodes).1 =
        map UnlockShared (OrderedLocking.std_unique (OrderedLocking.std_sort nodes))) as ->.
{ unfold OrderedLocking.OrderedLockGuard_dtor, OrderedLocking.OrderedLockGuard_ctor. simpl.
  induction (OrderedLocking.std_unique _); simpl; congruence. }
assert ((OrderedLocking.OrderedLockGuard_ctor nodes).2 =
        map LockShared (OrderedLocking.std_unique (OrderedLocking.std_sort nodes))) as ->.
{ unfold OrderedLocking.OrderedLockGuard_ctor. simpl.
  induction (OrderedLocking.std_unique _); simpl; congruence. }
rewrite held_app. unfold held. rewrite held_lock_all, (right_id_L [] (++)).
apply held_unlock_all, lock_id_lt_NoDup, std_unique_sorted.
unfold OrderedLocking.std_sort. apply StronglySorted_merge_sort; apply _.
Qed.

(** ** Down the left links *)
Section LeftLinks.
Context {K V : Type} `{EqDecision K, Compare K, ValueInit K, ValueInit V}.
Implicit Types (s : RBTree K V) (t : tree K V) (C : list (frame K V)).

(** Down the left links of a context of left frames. *)
Lemma left_links nil np s C Cy t :
  Rep nil np s (plug C (plug Cy t)) → Forall is_FL Cy →
  Nat.iter (length Cy) (λ a, left s.[a]) (ptr nil (plug Cy t)) = ptr nil t.
Proof.
  revert t. induction Cy as [|F Cy IH]; intros t HR HF; [done|].
  apply Forall_cons in HF as [HF1 HF]. destruct F as [c a k v r|]; [|done].
  simpl in *. rewrite (IH _ HR HF). simpl.
  rewrite <- plug_app in HR. by rewrite (Rep_read _ _ _ _ _ _ _ _ _ _ HR).
Qed.

Lemma ptr_not_nil nil np s C c l a k v r :
  Rep nil np s (plug C (T c l a k v r)) → a ≠ nil.
Proof.
  intros [_ _ _ _ _ Hnil] ->. apply Hnil. rewrite addrs_plug.
  apply elem_of_app. right. left.
Qed.

(** Every node on the way is a node of the tree. *)
Lemma left_links_node nil np s C Cy t m :
  Rep nil np s (plug C (plug Cy t)) → t ≠ Leaf → Forall is_FL Cy → m ≤ length Cy →
  Nat.iter m (λ a, left s.[a]) (ptr nil (plug Cy t)) ≠ nil.
Proof.
  revert C m. induction Cy as [|F Cy IH] using rev_ind; intros C m HR Ht HF Hm.
  - simpl in Hm. replace m with 0 by lia. simpl in *.
    destruct t as [|c l a k v r]; [done|]. by apply (ptr_not_nil nil np s C c l a k v r).
  - apply Forall_app in HF as [HF HF1]. apply Forall_cons in HF1 as [HF1 _].
    destruct F as [c a k v r|]; [|done].
    rewrite plug_app in *. simpl in *.
    destruct m as [|m].
    + simpl. by apply (ptr_not_nil nil np s C c (plug Cy t) a k v r).
    + rewrite Nat.iter_succ_r, (Rep_read _ _ _ _ _ _ _ _ _ _ HR). simpl.
      apply (IH (FL c a k v r :: C)); [done|done|done|].
      rewrite length_app in Hm. simpl in Hm. lia.
Qed.
End LeftLinks.

Section Extras.
Context {K V : Type} `{EqDecision K, Compare K, ValueInit K, ValueInit V}.
Context `{!StrictTotalOrder K}.
Implicit Types (s : RBTree K V) (t : tree K V) (k : K) (v : V)
  (C : list (frame K V)).

(** X1.  The loops of [lookup], [insert] and [erase] are logarithmic: in a
  red-black search tree with [n] keys no node is deeper than
  [2 * log2 (n + 1)], and each of the three operations returns when every
  loop is given one iteration more than that. *)
Theorem logarithmic_descent nil np s t k v (fuel : nat) :
Inv nil np s t → 2 * Nat.log2 (S (length (elems t))) < fuel →
height t ≤ 2 * Nat.log2 (S (length (elems t))) ∧
(∃ tr, LockCoupled.lookup fuel s k = Some (assoc k (elems t), tr)) ∧
(∃ s' tr, LockCoupled.insert fuel s k v = Some (s', tr)) ∧
(∃ s' b, LockCoupled.erase fuel s k = Some (s', b)).
Proof.
intros HI Hf. pose proof HI as [_ Hb [n Hrb] _].
pose proof (rb_height_log2 n t Hrb Hb) as Hh. rewrite size_elems in Hh.
split; [done|]. split_and!.
- apply (lookup_spec nil np); [done|lia].
- destruct (insert_spec nil np s t k v fuel HI ltac:(lia)) as (s' & tr & t' & Hi & _).
  eauto.
- destruct (erase_spec nil np s t k fuel HI ltac:(lia)) as (s' & b & np' & t' & He & _).
  eauto.
Qed.

(** X2.  [erase] is idempotent: a second [erase(k)] returns [false] and
  leaves the store exactly as the first one left it. *)
Theorem erase_is_idempotent nil np s t k (fuel : nat) :
Inv nil np s t → size t < fuel →
∃ s' b, LockCoupled.erase fuel s k = Some (s', b) ∧
        LockCoupled.erase fuel s' k = Some (s', false).
Proof.
intros HI Hf. pose proof (height_le_size t) as Hh.
destruct (erase_spec nil np s t k fuel HI ltac:(lia))
  as (s' & b & np' & t' & He & HI' & Hm & _ & _ & Hs).
exists s', b. split; [done|].
pose proof (height_le_size t') as Hh'.
apply (erase_absent nil np' s' t'); [by destruct HI'|lia|].
intros [k' v'] Hin <-. simpl in *.
apply (elem_of_assoc_is_Some k' v') in Hin. rewrite Hm in Hin.
rewrite decide_True in Hin by done. by destruct Hin.
Qed.

(** X3.  [lookup] and [insert] hold no node lock when they return: every
  lock that their traces take is released in them. *)
Theorem node_locks_released_on_return nil np s t k v (fuel : nat) :
Inv nil np s t → height t < fuel →
(∃ r tr, LockCoupled.lookup fuel s k = Some (r, tr) ∧ held tr = []) ∧
(∃ s' tr, LockCoupled.insert fuel s k v = Some (s', tr) ∧ held tr = []).
Proof.
intros HI Hf. split.
- destruct (lookup_spec nil np s t k fuel HI Hf) as (tr & Hl).
  exists (assoc k (elems t)), tr. split; [done|].
  by destruct (lookup_locks_spec fuel s k _ tr Hl) as (? & _).
- destruct (insert_spec nil np s t k v fuel HI Hf) as (s' & tr & t' & Hi & _ & _ & _ & Hh & _).
  by exists s', tr.
Qed.

(** X4.  [minimum(x)] returns the leftmost node of the subtree of [x]: the
  node that the left links lead to from [x], the first one with no left
  child.  In a search tree its key is the least of the subtree. *)
Theorem minimum_returns_least_key nil np s C (r : tree K V) (fuel : nat) :
Rep nil np s (plug C r) → r ≠ Leaf → height r < fuel →
∃ y n, LockCoupled.minimum fuel s (ptr nil r) = Some y ∧
       y = Nat.iter n (λ a, left s.[a]) (ptr nil r) ∧
       (∀ m, m < n → left s.[Nat.iter m (λ a, left s.[a]) (ptr nil r)] ≠ NIL s) ∧
       left s.[y] = NIL s ∧
       y ∈ addrs r ∧
       (sorted r → ∀ e, e ∈ elems r → e.1 = key s.[y] ∨ comp (key s.[y]) e.1 = true).
Proof.
intros HR Hr Hf.
destruct (minimum_spec nil np s C r fuel HR Hr Hf)
  as (y & Hmin & Cy & cy & ky & vy & ry & -> & HFL).
exists y, (length Cy). split; [done|].
pose proof HR as [HN _ _ _ _ _]. rewrite HN.
split_and!.
- by rewrite (left_links nil np s C Cy _ HR HFL).
- intros m Hm.
  change (left s.[Nat.iter m (λ a, left s.[a]) ?x]) with (Nat.iter (S m) (λ a, left s.[a]) x).
  by apply (left_links_node nil np s C Cy).
- rewrite <- plug_app in HR. rewrite (Rep_read _ _ _ _ _ _ _ _ _ _ HR). done.
- rewrite addrs_plug. apply elem_of_app. right. left.
- intros HS. rewrite <- plug_app in HR. rewrite (Rep_read _ _ _ _ _ _ _ _ _ _ HR). simpl.
  unfold sorted in HS. rewrite elems_plug in *. rewrite (lpart_FL _ HFL) in *.
  simpl in *. apply StronglySorted_inv in HS as [_ Hall].
  intros e [->|He]%elem_of_cons; [by left|right].
  rewrite Forall_forall in Hall. by apply Hall.
Qed.

(** X5.  A rotation keeps the keys in their order, and the two rotations
  are inverse to each other: [right_rotate(y)] after [left_rotate(x)],
  [y] being the right child of [x], gives back the tree, every field of
  every node as it was. *)
Theorem rotations_are_inverse nil np s C cx α x kx vx cy β y ky vy γ :
Rep nil np s (plug C (T cx α x kx vx (T cy β y ky vy γ))) →
Rep nil np (LockCoupled.left_rotate s x) (plug C (T cy (T cx α x kx vx β) y ky vy γ)) ∧
elems (plug C (T cy (T cx α x kx vx β) y ky vy γ)) =
  elems (plug C (T cx α x kx vx (T cy β y ky vy γ))) ∧
Rep nil np (LockCoupled.right_rotate (LockCoupled.left_rotate s x) y)
  (plug C (T cx α x kx vx (T cy β y ky vy γ))).
Proof.
intros HR. pose proof (left_rotate_Rep _ _ _ _ _ _ _ _ _ _ _ _ _ _ _ HR) as HR'.
split_and!; [done| |by apply right_rotate_Rep].
rewrite !elems_plug. simpl. do 2 f_equal. by rewrite <- (assoc_L (++)).
Qed.

(** [lookup] on a search tree, red-black or not. *)
Lemma lookup_search_tree nil np s t k fuel :
  Rep nil np s t → sorted t → height t < fuel →
  ∃ tr, lookup fuel s k = Some (assoc k (elems t), tr).
Proof.
  intros HR HS Hf. unfold lookup.
  destruct (shared_lock_ctor (root s)) as [lk e].
  destruct (loop_inv _ (lookup_inv nil t k) _
              (λ n st, lookup_body_spec nil np s t k n st HR HS)
              fuel (height t) (root s, lk, e)) as ([r tr] & Hloop & Hr); [|done|].
  - exists [], t. split_and!; try done. by destruct HR. constructor.
  - unfold lookup_post in Hr. simpl in Hr. subst r. by exists tr.
Qed.

(** X6.  No node is leaked: after every sequence of operations on a newly
  constructed tree the store holds the sentinel and one node for each key
  that is bound, and nothing else. *)
Theorem no_node_is_leaked ops (fuel : nat) :
length ops < fuel →
∃ s rs (E : list (K * V)),
  run_lock_coupled fuel ops (@RBTree_new K V _ _) = Some (s, rs) ∧
  StronglySorted klt E ∧ (∀ k, assoc k E = bindings ops k) ∧
  allocated_nodes s = S (length E).
Proof.
intros Hf.
destruct (run_new_Tight ops fuel Hf) as (s & nil & np & t & Hrun & HI & HT & Hm & Hh).
exists s, (expected (λ _, None) ops), (elems t). split_and!; try done.
- by destruct HI.
- rewrite <- size_elems. apply (Tight_count nil np); [by destruct HI|done].
Qed.

(** X7.  The destructor frees every node: run after any sequence of
  operations on a newly constructed tree, [~RBTree()] deletes each node
  and the sentinel once, touches no freed node, and leaves nothing
  allocated. *)
Theorem destructor_frees_every_node ops (fuel : nat) :
length ops < fuel →
∃ s rs s',
  run_lock_coupled fuel ops (@RBTree_new K V _ _) = Some (s, rs) ∧
  RBTree_dtor fuel s = Some s' ∧ heap s' = ∅.
Proof.
intros Hf.
destruct (run_new_Tight ops fuel Hf) as (s & nil & np & t & Hrun & HI & HT & Hm & Hh).
destruct (RBTree_dtor_spec nil np s t fuel) as (s' & Hd & Hempty); [by destruct HI|done|done|].
by exists s, (expected (λ _, None) ops), s'.
Qed.

(** X8.  [insert(k, v)] of a key that is not there followed by [erase(k)]
  gives back the map: [erase] returns [true], every [lookup] returns what
  it returned before the two, and as many nodes are allocated as before. *)
Theorem insert_then_erase_restores nil np s t k v (fuel : nat) :
Inv nil np s t → S (size t) < fuel → assoc k (elems t) = None →
∃ s1 tr s2,
  LockCoupled.insert fuel s k v = Some (s1, tr) ∧
  LockCoupled.erase fuel s1 k = Some (s2, true) ∧
  (∀ k', fst <$> LockCoupled.lookup fuel s2 k' = fst <$> LockCoupled.lookup fuel s k') ∧
  allocated_nodes s2 = allocated_nodes s.
Proof.
intros HI Hf Hk. pose proof (height_le_size t) as Hh.
destruct (insert_spec nil np s t k v fuel HI ltac:(lia))
  as (s1 & tr & t1 & Hi & HI1 & Hm1 & Hs1 & _).
pose proof (height_le_size t1) as Hh1.
destruct (erase_spec nil np s1 t1 k fuel HI1 ltac:(lia))
  as (s2 & b & np2 & t2 & He & HI2 & Hm2 & Hb & _ & Hs2).
assert (b = true) as ->.
{ apply Hb. rewrite Hm1, decide_True by done. by eexists. }
exists s1, tr, s2. split_and!; try done.
- intros k'. pose proof (height_le_size t2) as Hh2.
  destruct (lookup_spec nil np2 s2 t2 k' fuel HI2 ltac:(lia)) as (tr2 & ->).
  destruct (lookup_spec nil np s t k' fuel HI ltac:(lia)) as (tr0 & ->).
  simpl. f_equal. rewrite Hm2, Hm1. case_decide; [by subst|done].
- pose proof HI as [HR _ _ HS]. pose proof HI1 as [HR1 _ _ _].
  pose proof (insert_footprint nil np s t k v fuel s1 tr HR HS ltac:(lia) Hi) as Hd1.
  rewrite Hk in Hd1. destruct Hd1 as [Hd1 Hfresh].
  destruct (erase_footprint nil np s1 t1 k fuel s2 true HR1 ltac:(lia) He) as (z & Hz & Hd2).
  unfold allocated_nodes. rewrite Hd2, size_difference by (by apply singleton_subseteq_l).
  rewrite Hd1, size_union by (by apply disjoint_singleton_l).
  rewrite !size_singleton. lia.
Qed.

(** X9.  [insert(k, v)] of a key that is there writes [v] into the node of
  the key and changes nothing else: the node that [new] gave is deleted,
  no node moves, and no colour or link changes. *)
Theorem insert_of_present_key_writes_in_place nil np s t k v (fuel : nat) :
Rep nil np s t → sorted t → height t < fuel → is_Some (assoc k (elems t)) →
∃ a tr, a ≠ NIL s ∧ key s.[a] = k ∧
        LockCoupled.insert fuel s k v = Some (set_val s a v, tr).
Proof.
intros HR HS Hf Hk.
destruct (insert_duplicate nil np s t k v fuel HR HS Hf Hk) as (a & tr & Ha & Hkey & Hi).
exists a, tr. split_and!; try done.
destruct HR as [-> _ _ _ _ Hnil]. by intros ->.
Qed.

(** X10.  The three lookups of [lock_based_rb_tree.cpp] return the same:
  on a search tree [lookup_simple], [lookup_hybrid] and the ordered
  [lookup] all return the value bound to [k], or nothing if there is none;
  the ordered [lookup] holds at most three node locks at a time and none
  when it returns. *)
Theorem lookup_strategies_agree nil np s t k (fuel : nat) :
Rep nil np s t → sorted t → height t < fuel →
LockBased.lookup_simple fuel s k = Some (assoc k (elems t)) ∧
LockBased.lookup_hybrid fuel s k = Some (assoc k (elems t)) ∧
∃ tr, OrderedLocking.lookup fuel s k = Some (assoc k (elems t), tr) ∧
      held tr = [] ∧ peak [] tr ≤ 3.
Proof.
intros HR HS Hf.
destruct (lookup_search_tree nil np s t k fuel HR HS Hf) as (tr & Hl).
split_and!.
- by rewrite LockBased_lookup_simple, Hl.
- by rewrite LockBased_lookup_hybrid, Hl.
- destruct (ordered_lookup_spec nil np s t k fuel HR HS Hf) as (tr' & Ho).
  exists tr'. split; [done|]. by apply (ordered_lookup_locks_spec fuel s k _ _ Ho).
Qed.

(** X11.  [insert] and [insert_hybrid] of [lock_based_rb_tree.cpp], which
  make the first node black at once and do not test for an absent
  parent, leave the store that [insert] of the header leaves, on every
  store that holds a tree; [erase] and [validate] are those of the
  header. *)
Theorem cpp_insert_agrees nil np s t k v (fuel : nat) :
Rep nil np s t → height t < fuel →
LockBased.insert fuel s k v = fst <$> LockCoupled.insert fuel s k v ∧
LockBased.insert_hybrid fuel s k v = fst <$> LockCoupled.insert fuel s k v ∧
LockBased.erase fuel s k = LockCoupled.erase fuel s k ∧
LockBased.validate fuel s = LockCoupled.validate fuel s.
Proof.
intros HR Hf. split_and!.
- by apply (LockBased_insert nil np s t).
- rewrite LockBased_insert_hybrid. by apply (LockBased_insert nil np s t).
- apply LockBased_erase.
- apply LockBased_validate.
Qed.

(** X15.  No node changes its key, and [erase] changes no value: after
  [erase] every node that is left is a node that was there, at the same
  address and with the same key and value; after [insert(k, v)] every
  node either is such a node or holds [k] with [v]. *)
Theorem nodes_keep_their_bindings nil np s t k v (fuel : nat) :
Inv nil np s t → height t < fuel →
(∃ s' b, LockCoupled.erase fuel s k = Some (s', b) ∧ same_payload s s') ∧
(∃ s' tr, LockCoupled.insert fuel s k v = Some (s', tr) ∧
   ∀ a n', heap s' !! a = Some n' →
     (key n' = k ∧ val n' = v) ∨
     ∃ n, heap s !! a = Some n ∧ key n' = key n ∧ val n' = val n).
Proof.
intros HI Hf. split.
- destruct (erase_spec nil np s t k fuel HI Hf) as (s' & b & np' & t' & He & _).
  exists s', b. split; [done|]. by apply (erase_same_payload fuel s k s' b).
- destruct (insert_spec nil np s t k v fuel HI Hf) as (s' & tr & t' & Hi & _).
  exists s', tr. split; [done|]. destruct HI as [HR _ _ HS].
  by apply (insert_payload nil np s t k v fuel s' tr).
Qed.
End Extras.

(** X12.  Phase 1 of [main] in [lock_based_rb_tree.cpp] passes: whatever
  the order of the keys, after they are inserted every [lookup_simple]
  finds its key with the key as value, and [validate()] returns [true]. *)
Theorem main_phase1_asserts_hold (keys : list Z) (fuel : nat) :
length keys < fuel → main_phase1 fuel keys = Some true.
Proof.
intros Hf. unfold main_phase1.
destruct (insert_all_spec keys fuel _ _ _ _ (λ _, None) RBTree_new_Inv ltac:(done)
            ltac:(simpl; lia)) as (s & t & -> & HI & Hm & Hs).
simpl in Hs. pose proof (height_le_size t) as Hh. simpl.
rewrite (verify_all_spec fuel keys s).
- simpl. rewrite LockBased_validate. apply (validate_Inv _ _ _ _ _ HI). lia.
- intros k Hk. rewrite LockBased_lookup_simple.
  destruct (lookup_spec _ _ s t k fuel HI ltac:(lia)) as (tr & ->). simpl.
  rewrite Hm, fold_insert_self; [done|by left].
Qed.

(** X13.  The reference map of the stress test agrees with the tree after
  the set-up: whatever pairs are drawn, after [initialize_tree] every
  [lookup] returns the same in both, [compare_with_tree] returns [true]
  in whatever order the map is traversed, and an [erase] from both returns
  the same and leaves them in agreement. *)
Theorem reference_map_agrees (draws : list (Z * Z)) (fuel : nat) :
length draws < fuel →
∃ tree reference,
  initialize_tree fuel draws (@RBTree_new Z Z _ _) ∅ = Some (tree, reference) ∧
  (∀ k, fst <$> LockCoupled.lookup fuel tree k = Some (ReferenceMap.lookup reference k)) ∧
  ReferenceMap.compare_with_tree fuel reference tree = Some true ∧
  (∀ entries, entries ≡ₚ map_to_list reference →
     ReferenceMap.compare_loop fuel tree entries = Some true) ∧
  (∀ k, ∃ tree',
     LockCoupled.erase fuel tree k = Some (tree', (ReferenceMap.erase reference k).2) ∧
     ∀ k', fst <$> LockCoupled.lookup fuel tree' k' =
           Some (ReferenceMap.lookup (ReferenceMap.erase reference k).1 k')).
Proof.
intros Hf.
destruct (initialize_tree_spec draws fuel _ _ _ _ ∅ RBTree_new_Inv ltac:(done)
            ltac:(simpl; lia)) as (s & m & t & Hinit & HI & Hm & Hs).
simpl in Hs. pose proof (height_le_size t) as Hh.
exists s, m. split; [done|].
assert (∀ entries, entries ≡ₚ map_to_list m →
          ReferenceMap.compare_loop fuel s entries = Some true) as Hall.
{ intros entries Hp. eapply (compare_loop_spec fuel _ _ s t m); [done|lia|done|].
  intros k v Hin. rewrite Hp in Hin. by apply elem_of_map_to_list in Hin. }
split_and!; [|by apply Hall|done|].
- intros k. destruct (lookup_spec _ _ s t k fuel HI ltac:(lia)) as (tr & ->).
  simpl. by rewrite Hm.
- intros k.
  destruct (erase_spec _ _ s t k fuel HI ltac:(lia))
    as (s' & b & np' & t' & He & HI' & Hm' & Hb & _ & Hs').
  exists s'. split.
  + rewrite He. do 2 f_equal. unfold ReferenceMap.erase. simpl. rewrite <- Hm.
    destruct b.
    * symmetry. apply bool_decide_eq_true_2. by apply Hb.
    * symmetry. apply bool_decide_eq_false_2. intros Hsome%Hb. done.
  + intros k'. pose proof (height_le_size t') as Hh'.
    destruct (lookup_spec _ _ s' t' k' fuel HI' ltac:(lia)) as (tr & ->).
    simpl. f_equal. rewrite Hm'. unfold ReferenceMap.erase, ReferenceMap.lookup. simpl.
    case_decide.
    * subst. by rewrite lookup_delete_eq.
    * by rewrite lookup_delete_ne, Hm.
Qed.

(** ** The further properties at integer keys *)

Lemma logarithmic_descent_witness :
  Inv 1 0 black_root (ztree BLACK Leaf 2 5 50 Leaf) ∧
  2 * Nat.log2 (S (length (elems (ztree BLACK Leaf 2 5 50 Leaf)))) < 3 ∧
  height (ztree BLACK Leaf 2 5 50 Leaf) ≤
    2 * Nat.log2 (S (length (elems (ztree BLACK Leaf 2 5 50 Leaf)))) ∧
  (∃ tr, LockCoupled.lookup 3 black_root 7%Z =
         Some (assoc 7%Z (elems (ztree BLACK Leaf 2 5 50 Leaf)), tr)) ∧
  (∃ s' tr, LockCoupled.insert 3 black_root 7%Z 70%Z = Some (s', tr)) ∧
  (∃ s' b, LockCoupled.erase 3 black_root 7%Z = Some (s', b)).
Proof.
  split; [exact black_root_Inv|]. split; [vm_compute; lia|].
  apply (logarithmic_descent 1 0 black_root (ztree BLACK Leaf 2 5 50 Leaf) 7%Z 70%Z 3).
  - exact black_root_Inv.
  - vm_compute; lia.
Defined.

Lemma erase_is_idempotent_witness :
  Inv 1 0 black_root (ztree BLACK Leaf 2 5 50 Leaf) ∧
  size (ztree BLACK Leaf 2 5 50 Leaf) < 2 ∧
  ∃ s' b, LockCoupled.erase 2 black_root 5%Z = Some (s', b) ∧
          LockCoupled.erase 2 s' 5%Z = Some (s', false).
Proof.
  split; [exact black_root_Inv|]. split; [vm_compute; lia|].
  apply (erase_is_idempotent 1 0 black_root (ztree BLACK Leaf 2 5 50 Leaf) 5%Z 2).
  - exact black_root_Inv.
  - vm_compute; lia.
Defined.

Lemma node_locks_released_on_return_witness :
  Inv 1 0 black_root (ztree BLACK Leaf 2 5 50 Leaf) ∧
  height (ztree BLACK Leaf 2 5 50 Leaf) < 2 ∧
  (∃ r tr, LockCoupled.lookup 2 black_root 7%Z = Some (r, tr) ∧ held tr = []) ∧
  (∃ s' tr, LockCoupled.insert 2 black_root 7%Z 70%Z = Some (s', tr) ∧ held tr = []).
Proof.
  split; [exact black_root_Inv|]. split; [vm_compute; lia|].
  apply (node_locks_released_on_return 1 0 black_root (ztree BLACK Leaf 2 5 50 Leaf) 7%Z 70%Z 2).
  - exact black_root_Inv.
  - vm_compute; lia.
Defined.

Lemma minimum_returns_least_key_witness :
  Rep 1 0 reversed (plug [] reversed_tree) ∧ reversed_tree ≠ Leaf ∧
  height reversed_tree < 3 ∧
  ∃ y n, LockCoupled.minimum 3 reversed (ptr 1 reversed_tree) = Some y ∧
         y = Nat.iter n (λ a, left reversed.[a]) (ptr 1 reversed_tree) ∧
         (∀ m, m < n →
            left reversed.[Nat.iter m (λ a, left reversed.[a]) (ptr 1 reversed_tree)] ≠
              NIL reversed) ∧
         left reversed.[y] = NIL reversed ∧
         y ∈ addrs reversed_tree ∧
         (sorted reversed_tree →
          ∀ e, e ∈ elems reversed_tree →
               e.1 = key reversed.[y] ∨ comp (key reversed.[y]) e.1 = true).
Proof.
  split; [exact reversed_Rep|]. split; [discriminate|]. split; [vm_compute; lia|].
  apply (minimum_returns_least_key 1 0 reversed [] reversed_tree 3).
  - exact reversed_Rep.
  - discriminate.
  - vm_compute; lia.
Defined.

Lemma rotations_are_inverse_witness :
  Rep 1 0 unordered
    (plug [FL BLACK 2 5%Z 50%Z (ztree BLACK Leaf 5 8 80 Leaf)]
       (T BLACK Leaf 3 3%Z 30%Z (T RED Leaf 4 7%Z 70%Z Leaf))) ∧
  Rep 1 0 (LockCoupled.left_rotate unordered 3)
    (plug [FL BLACK 2 5%Z 50%Z (ztree BLACK Leaf 5 8 80 Leaf)]
       (T RED (T BLACK Leaf 3 3%Z 30%Z Leaf) 4 7%Z 70%Z Leaf)) ∧
  elems (plug [FL BLACK 2 5%Z 50%Z (ztree BLACK Leaf 5 8 80 Leaf)]
           (T RED (T BLACK Leaf 3 3%Z 30%Z Leaf) 4 7%Z 70%Z Leaf)) =
    elems (plug [FL BLACK 2 5%Z 50%Z (ztree BLACK Leaf 5 8 80 Leaf)]
             (T BLACK Leaf 3 3%Z 30%Z (T RED Leaf 4 7%Z 70%Z Leaf))) ∧
  Rep 1 0 (LockCoupled.right_rotate (LockCoupled.left_rotate unordered 3) 4)
    (plug [FL BLACK 2 5%Z 50%Z (ztree BLACK Leaf 5 8 80 Leaf)]
       (T BLACK Leaf 3 3%Z 30%Z (T RED Leaf 4 7%Z 70%Z Leaf))).
Proof.
  split; [exact unordered_Rep|].
  apply (rotations_are_inverse 1 0 unordered
           [FL BLACK 2 5%Z 50%Z (ztree BLACK Leaf 5 8 80 Leaf)]
           BLACK Leaf 3 3%Z 30%Z RED Leaf 4 7%Z 70%Z Leaf).
  exact unordered_Rep.
Defined.

Lemma no_node_is_leaked_witness :
  length example_ops < 7 ∧
  ∃ s rs (E : list (Z * Z)),
    run_lock_coupled 7 example_ops (@RBTree_new Z Z _ _) = Some (s, rs) ∧
    StronglySorted klt E ∧ (∀ k, assoc k E = bindings example_ops k) ∧
    allocated_nodes s = S (length E).
Proof.
  split; [vm_compute; lia|].
  apply (no_node_is_leaked example_ops 7). vm_compute; lia.
Defined.

Lemma destructor_frees_every_node_witness :
  length example_ops < 7 ∧
  ∃ s rs s',
    run_lock_coupled 7 example_ops (@RBTree_new Z Z _ _) = Some (s, rs) ∧
    RBTree_dtor 7 s = Some s' ∧ heap s' = ∅.
Proof.
  split; [vm_compute; lia|].
  apply (destructor_frees_every_node example_ops 7). vm_compute; lia.
Defined.

Lemma insert_then_erase_restores_witness :
  Inv 1 0 black_root (ztree BLACK Leaf 2 5 50 Leaf) ∧
  S (size (ztree BLACK Leaf 2 5 50 Leaf)) < 3 ∧
  assoc 7%Z (elems (ztree BLACK Leaf 2 5 50 Leaf)) = None ∧
  ∃ s1 tr s2,
    LockCoupled.insert 3 black_root 7%Z 70%Z = Some (s1, tr) ∧
    LockCoupled.erase 3 s1 7%Z = Some (s2, true) ∧
    (∀ k', fst <$> LockCoupled.lookup 3 s2 k' = fst <$> LockCoupled.lookup 3 black_root k') ∧
    allocated_nodes s2 = allocated_nodes black_root.
Proof.
  split; [exact black_root_Inv|]. split; [vm_compute; lia|]. split; [reflexivity|].
  apply (insert_then_erase_restores 1 0 black_root (ztree BLACK Leaf 2 5 50 Leaf) 7%Z 70%Z 3).
  - exact black_root_Inv.
  - vm_compute; lia.
  - reflexivity.
Defined.

Lemma insert_of_present_key_writes_in_place_witness :
  Rep 1 0 black_root (ztree BLACK Leaf 2 5 50 Leaf) ∧
  sorted (ztree BLACK Leaf 2 5 50 Leaf) ∧
  height (ztree BLACK Leaf 2 5 50 Leaf) < 2 ∧
  is_Some (assoc 5%Z (elems (ztree BLACK Leaf 2 5 50 Leaf))) ∧
  ∃ a tr, a ≠ NIL black_root ∧ key black_root.[a] = 5%Z ∧
          LockCoupled.insert 2 black_root 5%Z 51%Z = Some (set_val black_root a 51%Z, tr).
Proof.
  split; [exact black_root_Rep|]. split; [repeat constructor|].
  split; [vm_compute; lia|]. split; [by eexists|].
  apply (insert_of_present_key_writes_in_place 1 0 black_root
           (ztree BLACK Leaf 2 5 50 Leaf) 5%Z 51%Z 2).
  - exact black_root_Rep.
  - repeat constructor.
  - vm_compute; lia.
  - by eexists.
Defined.

Lemma lookup_strategies_agree_witness :
  Rep 1 0 black_root (ztree BLACK Leaf 2 5 50 Leaf) ∧
  sorted (ztree BLACK Leaf 2 5 50 Leaf) ∧
  height (ztree BLACK Leaf 2 5 50 Leaf) < 2 ∧
  LockBased.lookup_simple 2 black_root 5%Z =
    Some (assoc 5%Z (elems (ztree BLACK Leaf 2 5 50 Leaf))) ∧
  LockBased.lookup_hybrid 2 black_root 5%Z =
    Some (assoc 5%Z (elems (ztree BLACK Leaf 2 5 50 Leaf))) ∧
  ∃ tr, OrderedLocking.lookup 2 black_root 5%Z =
          Some (assoc 5%Z (elems (ztree BLACK Leaf 2 5 50 Leaf)), tr) ∧
        held tr = [] ∧ peak [] tr ≤ 3.
Proof.
  split; [exact black_root_Rep|]. split; [repeat constructor|]. split; [vm_compute; lia|].
  apply (lookup_strategies_agree 1 0 black_root (ztree BLACK Leaf 2 5 50 Leaf) 5%Z 2).
  - exact black_root_Rep.
  - repeat constructor.
  - vm_compute; lia.
Defined.

Lemma cpp_insert_agrees_witness :
  Rep 1 0 black_root (ztree BLACK Leaf 2 5 50 Leaf) ∧
  height (ztree BLACK Leaf 2 5 50 Leaf) < 2 ∧
  LockBased.insert 2 black_root 7%Z 70%Z = fst <$> LockCoupled.insert 2 black_root 7%Z 70%Z ∧
  LockBased.insert_hybrid 2 black_root 7%Z 70%Z =
    fst <$> LockCoupled.insert 2 black_root 7%Z 70%Z ∧
  LockBased.erase 2 black_root 7%Z = LockCoupled.erase 2 black_root 7%Z ∧
  LockBased.validate 2 black_root = LockCoupled.validate 2 black_root.
Proof.
  split; [exact black_root_Rep|]. split; [vm_compute; lia|].
  apply (cpp_insert_agrees 1 0 black_root (ztree BLACK Leaf 2 5 50 Leaf) 7%Z 70%Z 2).
  - exact black_root_Rep.
  - vm_compute; lia.
Defined.

Lemma main_phase1_asserts_hold_witness :
  length [3; 1; 2]%Z < 4 ∧ main_phase1 4 [3; 1; 2]%Z = Some true.
Proof.
  split; [vm_compute; lia|].
  apply (main_phase1_asserts_hold [3; 1; 2]%Z 4). vm_compute; lia.
Defined.

Lemma reference_map_agrees_witness :
  length [(3, 30); (1, 10); (3, 31)]%Z < 4 ∧
  ∃ tree reference,
    initialize_tree 4 [(3, 30); (1, 10); (3, 31)]%Z (@RBTree_new Z Z _ _) ∅ =
      Some (tree, reference) ∧
    (∀ k, fst <$> LockCoupled.lookup 4 tree k = Some (ReferenceMap.lookup reference k)) ∧
    ReferenceMap.compare_with_tree 4 reference tree = Some true ∧
    (∀ entries, entries ≡ₚ map_to_list reference →
       ReferenceMap.compare_loop 4 tree entries = Some true) ∧
    (∀ k, ∃ tree',
       LockCoupled.erase 4 tree k = Some (tree', (ReferenceMap.erase reference k).2) ∧
       ∀ k', fst <$> LockCoupled.lookup 4 tree' k' =
             Some (ReferenceMap.lookup (ReferenceMap.erase reference k).1 k')).
Proof.
  split; [vm_compute; lia|].
  apply (reference_map_agrees [(3, 30); (1, 10); (3, 31)]%Z 4). vm_compute; lia.
Defined.

Lemma nodes_keep_their_bindings_witness :
  Inv 1 0 black_root (ztree BLACK Leaf 2 5 50 Leaf) ∧
  height (ztree BLACK Leaf 2 5 50 Leaf) < 2 ∧
  (∃ s' b, LockCoupled.erase 2 black_root 5%Z = Some (s', b) ∧ same_payload black_root s') ∧
  (∃ s' tr, LockCoupled.insert 2 black_root 5%Z 51%Z = Some (s', tr) ∧
     ∀ a n', heap s' !! a = Some n' →
       (key n' = 5%Z ∧ val n' = 51%Z) ∨
       ∃ n, heap black_root !! a = Some n ∧ key n' = key n ∧ val n' = val n).
Proof.
  split; [exact black_root_Inv|]. split; [vm_compute; lia|].
  apply (nodes_keep_their_bindings 1 0 black_root (ztree BLACK Leaf 2 5 50 Leaf) 5%Z 51%Z 2).
  - exact black_root_Inv.
  - vm_compute; lia.
Defined.

(** ** [print.hpp]: [format] *)
Lemma list_find_first (c : ascii) (s1 s2 : list ascii) :
  c ∉ s1 → list_find (λ x, x = c) (s1 ++ c :: s2) = Some (length s1, c).
Proof.
  induction s1 as [|x s1 IH]; simpl; intros Hc.
  - by rewrite decide_True.
  - apply not_elem_of_cons in Hc as [Hx Hc]. rewrite decide_False by done.
    by rewrite IH.
Qed.

Lemma list_find_absent (c : ascii) (s : list ascii) :
  c ∉ s → list_find (λ x, x = c) s = None.
Proof.
  intros Hc. apply list_find_None. apply Forall_forall. by intros x Hx ->.
Qed.

Lemma find_first (c : ascii) (done s1 s2 : list ascii) :
  c ∉ s1 →
  Print.find (done ++ s1 ++ c :: s2) c (Print.size done) =
  (Print.size done + Z.of_nat (length s1))%Z.
Proof.
  intros Hc. unfold Print.find, Print.size. rewrite decide_True.
  - rewrite Nat2Z.id, drop_app_length. by rewrite list_find_first.
  - rewrite !length_app. simpl. lia.
Qed.

Lemma find_absent (c : ascii) (done s : list ascii) (pos : Z) :
  pos = Print.size done → c ∉ s → Print.find (done ++ s) c pos = Print.npos.
Proof.
  intros -> Hc. unfold Print.find, Print.size. case_decide; [|done].
  by rewrite Nat2Z.id, drop_app_length, list_find_absent.
Qed.

Lemma format_loop (pieces : list (list ascii * list ascii)) :
  ∀ (done : list ascii) (i : Z) (S0 : list ascii) (fuel : nat)
    (args : list (list ascii)) (last : list ascii),
  Forall (λ p, ("{"%char ∉ p.1) ∧ ("}"%char ∉ p.2)) pieces →
  ("{"%char ∉ last) ∨ ("}"%char ∉ last) →
  (Print.size (done ++ template_of pieces last) < Print.npos)%Z →
  length pieces < fuel → (0 ≤ i)%Z →
  loop fuel (Print.format_body (done ++ template_of pieces last) args)
    (Print.size done, i, S0) =
  Some (S0 ++ filled pieces (drop (Z.to_nat i) args) last).
Proof.
  induction pieces as [|[text inside] pieces IH];
    intros done i S0 fuel args last Hp Hlast Hsize Hfuel Hi.
  - destruct fuel as [|fuel]; [simpl in Hfuel; lia|]. simpl.
    case_decide as Hlt; [|f_equal].
    2: { unfold Print.size in Hlt. rewrite length_app in Hlt.
         destruct last; [by rewrite (right_id_L [] (++))|simpl in Hlt; lia]. }
    assert (Print.substr_from (done ++ last) (Print.size done) = last) as Hsub.
    { unfold Print.substr_from, Print.size. by rewrite Nat2Z.id, drop_app_length. }
    destruct (decide ("{"%char ∈ last)) as [Hin|Hnin].
    + destruct Hlast as [?|Hclose]; [done|].
      apply list_elem_of_split_l in Hin as (t1 & t2 & -> & Ht1).
      rewrite (find_first _ done t1 t2 Ht1).
      rewrite decide_True; [by rewrite Hsub|]. right.
      replace (done ++ t1 ++ "{"%char :: t2) with ((done ++ t1) ++ "{"%char :: t2)
        by (by rewrite <- (assoc_L (++))).
      apply find_absent.
      * unfold Print.size. rewrite length_app. lia.
      * intros Hc. apply Hclose. apply elem_of_app. by right.
    + rewrite (find_absent _ done last (Print.size done)) by done.
      rewrite decide_True by (by left). by rewrite Hsub.
  - destruct fuel as [|fuel]; [simpl in Hfuel; lia|].
    apply Forall_cons in Hp as [[Hopen Hclose] Hp]. simpl in Hopen, Hclose.
    cbn [template_of] in *.
    set (rest := template_of pieces last) in *.
    assert (Print.size (done ++ text ++ "{"%char :: inside ++ "}"%char :: rest) =
            (Print.size done + Z.of_nat (length text) + 1 +
             Z.of_nat (length inside) + 1 + Z.of_nat (length rest))%Z) as Hlen.
    { unfold Print.size. rewrite !length_app. simpl. rewrite !length_app. simpl. lia. }
    assert (0 ≤ Print.size done)%Z as Hd0 by (unfold Print.size; lia).
    cbn [loop]. unfold Print.format_body at 1.
    rewrite decide_True by lia.
    rewrite (find_first _ done text _ Hopen).
    cbv zeta.
    assert (Print.find (done ++ text ++ "{"%char :: inside ++ "}"%char :: rest) "}"%char
              (Print.size done + Z.of_nat (length text)) =
            (Print.size done + Z.of_nat (length text) + 1 + Z.of_nat (length inside))%Z)
      as ->.
    { replace (done ++ text ++ "{"%char :: inside ++ "}"%char :: rest)
        with ((done ++ text) ++ ("{"%char :: inside) ++ "}"%char :: rest)
        by (by rewrite <- !(assoc_L (++))).
      replace (Print.size done + Z.of_nat (length text))%Z with (Print.size (done ++ text))
        by (unfold Print.size; rewrite length_app; lia).
      rewrite find_first.
      - simpl. unfold Print.size. rewrite length_app. lia.
      - apply not_elem_of_cons. split; [done|done]. }
    rewrite decide_False.
    2: { unfold Print.npos in *. intros [?|?]; lia. }
    assert (Print.substr (done ++ text ++ "{"%char :: inside ++ "}"%char :: rest)
              (Print.size done) (Print.size done + Z.of_nat (length text) - Print.size done) =
            text) as ->.
    { unfold Print.substr, Print.size. rewrite Nat2Z.id, drop_app_length.
      replace (Z.to_nat _) with (length text) by lia. by rewrite take_app_length. }
    replace (done ++ text ++ "{"%char :: inside ++ "}"%char :: rest)
      with ((done ++ text ++ "{"%char :: inside ++ ["}"%char]) ++ rest).
    2: { rewrite <- !(assoc_L (++)). simpl. by rewrite <- !(assoc_L (++)). }
    replace (Print.size done + Z.of_nat (length text) + 1 + Z.of_nat (length inside) + 1)%Z
      with (Print.size (done ++ text ++ "{"%char :: inside ++ ["}"%char])).
    2: { unfold Print.size. rewrite !length_app. simpl. rewrite !length_app. simpl. lia. }
    assert (Print.size ((done ++ text ++ "{"%char :: inside ++ ["}"%char]) ++ rest) < Print.npos)%Z
      as Hsize'.
    { revert Hsize. unfold Print.size. rewrite !length_app. simpl. rewrite !length_app. simpl. lia. }
    destruct (decide (i < Z.of_nat (length args))%Z) as [Hia|Hia].
    + rewrite (IH _ (i + 1)%Z _ fuel args last Hp Hlast Hsize' ltac:(simpl in Hfuel; lia) ltac:(lia)).
      f_equal. rewrite <- !(assoc_L (++)). do 2 f_equal.
      destruct (lookup_lt_is_Some_2 args (Z.to_nat i) ltac:(lia)) as [a Ha].
      rewrite Ha. simpl.
      rewrite (drop_S args a (Z.to_nat i) Ha). simpl.
      replace (Z.to_nat (i + 1)) with (S (Z.to_nat i)) by lia. done.
    + rewrite (IH _ i _ fuel args last Hp Hlast Hsize' ltac:(simpl in Hfuel; lia) Hi).
      f_equal. rewrite <- !(assoc_L (++)). f_equal.
      rewrite drop_ge by lia. done.
Qed.

(** X16.  [format] replaces each placeholder, a [{], whatever follows up
  to the next [}] and that [}], by the next argument, or by nothing once the
  arguments have run out; it copies the text between the placeholders and
  ignores the arguments that are left over.  A last [{] that no [}]
  follows is copied like any text. *)
Theorem format_fills_placeholders (pieces : list (list ascii * list ascii))
  (last : list ascii) (args : list (list ascii)) (fuel : nat) :
Forall (λ p, ("{"%char ∉ p.1) ∧ ("}"%char ∉ p.2)) pieces →
("{"%char ∉ last) ∨ ("}"%char ∉ last) →
(Print.size (template_of pieces last) < Print.npos)%Z →
length pieces < fuel →
Print.format fuel (template_of pieces last) args = Some (filled pieces args last).
Proof.
intros Hp Hlast Hsize Hfuel. unfold Print.format.
apply (format_loop pieces [] 0%Z [] fuel args last); try done.
Qed.

Lemma format_fills_placeholders_witness :
  Forall (λ p, ("{"%char ∉ p.1) ∧ ("}"%char ∉ p.2))
    [(["a"%char], []); (["b"%char], ["x"%char])] ∧
  (("{"%char ∉ ["c"%char; "{"%char]) ∨ ("}"%char ∉ ["c"%char; "{"%char])) ∧
  (Print.size (template_of [(["a"%char], []); (["b"%char], ["x"%char])] ["c"%char; "{"%char])
     < Print.npos)%Z ∧
  length [(["a"%char], []); (["b"%char], ["x"%char])] < 3 ∧
  Print.format 3
    (template_of [(["a"%char], []); (["b"%char], ["x"%char])] ["c"%char; "{"%char])
    [["1"%char]] =
  Some (filled [(["a"%char], []); (["b"%char], ["x"%char])] [["1"%char]] ["c"%char; "{"%char]).
Proof.
  assert (Forall (λ p, ("{"%char ∉ p.1) ∧ ("}"%char ∉ p.2))
            [(["a"%char], []); (["b"%char], ["x"%char])]) as Hp.
  { repeat constructor; simpl; compute_done. }
  assert (("{"%char ∉ ["c"%char; "{"%char]) ∨ ("}"%char ∉ ["c"%char; "{"%char])) as Hl.
  { right. compute_done. }
  split; [exact Hp|]. split; [exact Hl|]. split; [vm_compute; reflexivity|].
  split; [vm_compute; lia|].
  apply (format_fills_placeholders
           [(["a"%char], []); (["b"%char], ["x"%char])] ["c"%char; "{"%char] [["1"%char]] 3).
  - exact Hp.
  - exact Hl.
  - vm_compute; reflexivity.
  - vm_compute; lia.
Defined.
